(** * pydom: a JavaScript-like DOM wrapper over BeautifulSoup

    Shallow embedding of [pydom.py].  The wrapper classes [Element] and
    [Document] hold BeautifulSoup objects and mutate them in place, so the
    embedding has two layers:

    - [Bs4]: the part of the BeautifulSoup object graph that [pydom.py]
      reads and writes, as a heap of nodes addressed by allocation index
      (Python object identity), each with its own [contents] list and its
      own [parent] reference, together with the library calls the wrapper
      makes ([insert], [append], [extract], [clear], [decompose],
      [insert_before], [insert_after], [find], [Tag.__eq__]).
    - the methods of [Element] and [Document], transcribed statement by
      statement on top of those calls. *)

From Stdlib Require Import String Ascii List Arith Lia Bool.
From stdpp Require Import base option list strings.

Import ListNotations.
Local Open Scope list_scope.
Set Warnings "-register-all".

(** ** Python values used by the wrapper *)

(** The exception classes that reach the caller of [pydom]. *)
Inductive exn : Set :=
| TypeError
| ValueError
| AttributeError
| RecursionError.

(** [str.split(sep)] for a one-character separator: the pieces between the
    occurrences of [sep]; never the empty list. *)
Fixpoint split (sep : ascii) (s : string) : list string :=
  match s with
  | EmptyString => [EmptyString]
  | String c r =>
      if Ascii.eqb c sep then EmptyString :: split sep r
      else match split sep r with
           | h :: t => String c h :: t
           | [] => [String c EmptyString]
           end
  end.

(** Whitespace of [str.strip()].  A character of a string stands for a
    code point below 256; of these, [str.isspace] holds for the controls
    9 to 13 and 28 to 31, the space, the next-line control (133) and the
    no-break space (160). *)
Definition is_space (c : ascii) : bool :=
  let n := nat_of_ascii c in
  (n =? 32) || ((9 <=? n) && (n <=? 13)) || ((28 <=? n) && (n <=? 31))
  || (n =? 133) || (n =? 160).

Fixpoint lstrip (s : string) : string :=
  match s with
  | String c r => if is_space c then lstrip r else s
  | EmptyString => EmptyString
  end.

Fixpoint rstrip (s : string) : string :=
  match s with
  | EmptyString => EmptyString
  | String c r =>
      match rstrip r with
      | EmptyString => if is_space c then EmptyString else String c EmptyString
      | r' => String c r'
      end
  end.

Definition strip (s : string) : string := rstrip (lstrip s).

(** Truthiness of a [str]. *)
Definition truthy (s : string) : bool :=
  match s with EmptyString => false | _ => true end.

(** A Python [dict] with string keys, in insertion order: [d[k] = v]
    overwrites in place when [k] is present and appends otherwise. *)
Fixpoint dict_get {V : Type} (k : string) (d : list (string * V)) : option V :=
  match d with
  | [] => None
  | (k', v) :: d' => if String.eqb k' k then Some v else dict_get k d'
  end.

Fixpoint dict_set {V : Type} (k : string) (v : V) (d : list (string * V))
  : list (string * V) :=
  match d with
  | [] => [(k, v)]
  | (k', v') :: d' =>
      if String.eqb k' k then (k, v) :: d' else (k', v') :: dict_set k v d'
  end.

(** ** The BeautifulSoup object graph *)

Module Bs4.

(** The three classes of objects in a parsed document: the
    [BeautifulSoup] root object (a [Tag] named ["[document]"]), [Tag] and
    [NavigableString]. *)
Inductive kind : Set := KSoup | KTag | KText.

(** An attribute value: a string, or a list of strings for the
    multi-valued attributes ([class]). *)
Inductive attr_value : Set :=
| AStr (s : string)
| AList (l : list string).

Record Node : Set := mkNode {
  nkind : kind;
  name : string;
  attrs : list (string * attr_value);
  contents : list nat;
  parent : option nat;
  text : string
}.

(** The heap: object [i] is the [i]-th allocated node. *)
Abbreviation store := (list Node).

(** A call returns a value and the heap it left, raises with the heap as
    it was when the exception left the call, or never returns. *)
Inductive outcome (A : Type) : Type :=
| Ok (a : A) (s : store)
| Raise (e : exn) (s : store)
| Hang.
Arguments Ok {A} a s.
Arguments Raise {A} e s.
Arguments Hang {A}.

Definition M (A : Type) : Type := store -> outcome A.

Definition ret {A} (a : A) : M A := fun s => Ok a s.
Definition raise {A} (e : exn) : M A := fun s => Raise e s.
Definition hang {A} : M A := fun _ => Hang.
Definition bind {A B} (m : M A) (k : A -> M B) : M B :=
  fun s => match m s with
           | Ok a s' => k a s'
           | Raise e s' => Raise e s'
           | Hang => Hang
           end.
Definition get_store : M store := fun s => Ok s s.
Definition modify (f : store -> store) : M unit := fun s => Ok tt (f s).

Declare Scope py_scope.
Delimit Scope py_scope with py.
Notation "x <- m ;; k" := (bind m (fun x => k))
  (at level 100, m at next level, right associativity) : py_scope.
Notation "m ;;; k" := (bind m (fun _ => k))
  (at level 100, right associativity) : py_scope.
Local Open Scope py_scope.

(** [for x in xs: body(x)] over a list that the body cannot change (a
    copy, or a list of values). *)
Fixpoint for_each {A} (xs : list A) (body : A -> M unit) : M unit :=
  match xs with
  | [] => ret tt
  | x :: xs' => body x ;;; for_each xs' body
  end.

(** *** Field access *)

Definition contents_of (s : store) (x : nat) : list nat :=
  match s !! x with Some n => contents n | None => [] end.

Definition parent_of (s : store) (x : nat) : option nat :=
  match s !! x with Some n => parent n | None => None end.

Definition kind_of (s : store) (x : nat) : kind :=
  match s !! x with Some n => nkind n | None => KTag end.

Definition with_contents (cs : list nat) (n : Node) : Node :=
  mkNode (nkind n) (name n) (attrs n) cs (parent n) (text n).

Definition with_parent (p : option nat) (n : Node) : Node :=
  mkNode (nkind n) (name n) (attrs n) (contents n) p (text n).

Definition set_contents (x : nat) (cs : list nat) (s : store) : store :=
  alter (with_contents cs) x s.

Definition set_parent (x : nat) (p : option nat) (s : store) : store :=
  alter (with_parent p) x s.

(** Allocation of a fresh object. *)
Definition alloc (n : Node) : M nat :=
  fun s => Ok (length s) (s ++ [n]).

(** [soup.new_tag(name)]: a detached, empty [Tag]. *)
Definition new_tag (nm : string) : M nat :=
  alloc (mkNode KTag nm [] [] None EmptyString).

(** [NavigableString(text)]: a detached string node. *)
Definition new_string (txt : string) : M nat :=
  alloc (mkNode KText EmptyString [] [] None txt).

(** *** Identity search and the sibling links *)

(** [Tag.index(element)]: position of [x] in [l] by identity. *)
Fixpoint index (x : nat) (l : list nat) : option nat :=
  match l with
  | [] => None
  | y :: l' => if decide (y = x) then Some 0 else S <$> index x l'
  end.

(** [x.next_sibling].  The library keeps the sibling and document-order
    links as fields which [insert] and [extract] rewire; they are read
    here off the parent's [contents], with which those calls keep them
    in agreement. *)
Definition next_sibling (s : store) (x : nat) : option nat :=
  match parent_of s x with
  | None => None
  | Some p =>
      match index x (contents_of s p) with
      | Some i => contents_of s p !! S i
      | None => None
      end
  end.

(** The loop of [_last_descendant] taken when the sibling link is not
    used: follow the last child down while there is one.  [None] when the
    fuel is spent, which for a fuel above the heap size means the loop
    runs for ever. *)
Fixpoint last_descendant (fuel : nat) (s : store) (x : nat) : option nat :=
  match fuel with
  | 0 => None
  | S f =>
      match last (contents_of s x) with
      | None => Some x
      | Some c => last_descendant f s c
      end
  end.

(** The loop of [insert] that looks for the element following the new
    last child in document order: climb from [p] until an ancestor has a
    next sibling or the root is passed. *)
Fixpoint next_in_document (fuel : nat) (s : store) (p : option nat)
  : option (option nat) :=
  match p with
  | None => Some None
  | Some q =>
      match next_sibling s q with
      | Some n => Some (Some n)
      | None =>
          match fuel with
          | 0 => None
          | S f => next_in_document f s (parent_of s q)
          end
      end
  end.

(** Run one of the two link loops for its termination only. *)
Definition walk {A} (r : option A) : M unit :=
  match r with Some _ => ret tt | None => hang end.

(** Fuel that no terminating loop over the heap can spend: one more
    than the number of objects. *)
Definition fuel_of (s : store) : nat := S (length s).

(** *** [extract], [insert] and the calls built on them *)

(** [x.extract()]: delete [x] from its parent's [contents] (found by
    identity), reconnect the document-order links around the subtree of
    [x], clear [x.parent]. *)
Definition extract (x : nat) : M unit :=
  s <- get_store ;;
  let nxt := next_sibling s x in
  match parent_of s x with
  | None => ret tt
  | Some p =>
      match index x (contents_of s p) with
      | None => raise ValueError
      | Some i => modify (set_contents p (delete i (contents_of s p)))
      end
  end ;;;
  match nxt with
  | Some _ => ret tt
  | None => s1 <- get_store ;; walk (last_descendant (fuel_of s1) s1 x)
  end ;;;
  modify (set_parent x None).

(** [list.insert(position, x)]. *)
Definition list_insert_at {A} (position : nat) (x : A) (l : list A) : list A :=
  take position l ++ x :: drop position l.

(** [t.insert(position, n)] for a [Tag] or [NavigableString] [n]. *)
Definition insert_one (t : nat) (position : nat) (n : nat) : M unit :=
  if decide (n = t) then raise ValueError else
  s <- get_store ;;
  let position := min position (length (contents_of s t)) in
  position <-
    match parent_of s n with
    | None => ret position
    | Some p =>
        position <-
          (if decide (p = t) then
             match index n (contents_of s t) with
             | None => raise ValueError
             | Some current_index =>
                 ret (if current_index <? position
                      then position - 1 else position)
             end
           else ret position) ;;
        extract n ;;;
        ret position
    end ;;
  modify (set_parent n (Some t)) ;;;
  s1 <- get_store ;;
  match position with
  | 0 => ret tt
  | S i =>
      match contents_of s1 t !! i with
      | Some previous_child =>
          walk (last_descendant (fuel_of s1) s1 previous_child)
      | None => ret tt
      end
  end ;;;
  walk (last_descendant (fuel_of s1) s1 n) ;;;
  (if length (contents_of s1 t) <=? position
   then walk (next_in_document (fuel_of s1) s1 (Some t))
   else ret tt) ;;;
  modify (set_contents t (list_insert_at position n (contents_of s1 t))).

(** [t.insert(position, n)]: a [BeautifulSoup] object is not nested, its
    children are inserted one at a time from a copy of its list. *)
Fixpoint insert_each (t : nat) (position : nat) (ns : list nat) : M unit :=
  match ns with
  | [] => ret tt
  | n :: ns' => insert_one t position n ;;; insert_each t (S position) ns'
  end.

Definition insert (t : nat) (position : nat) (n : nat) : M unit :=
  if decide (n = t) then raise ValueError else
  s <- get_store ;;
  match kind_of s n with
  | KSoup => insert_each t position (contents_of s n)
  | _ => insert_one t position n
  end.

(** [t.append(n)]. *)
Definition append (t : nat) (n : nat) : M unit :=
  s <- get_store ;;
  insert t (length (contents_of s t)) n.

(** [t.append(text)] with a Python [str]: it is wrapped in a new
    [NavigableString] first. *)
Definition append_str (t : nat) (txt : string) : M unit :=
  s <- get_store ;;
  let position := length (contents_of s t) in
  n <- new_string txt ;;
  insert_one t position n.

(** [t.clear()]: extract every child, over a copy of the list. *)
Definition clear (t : nat) : M unit :=
  s <- get_store ;;
  for_each (contents_of s t) extract.

(** [x.insert_before(n)] and [x.insert_after(n)] with one argument. *)
Definition insert_before (x : nat) (n : nat) : M unit :=
  s <- get_store ;;
  match parent_of s x with
  | None => raise ValueError
  | Some p =>
      if decide (n = x) then raise ValueError else
      extract n ;;;
      s1 <- get_store ;;
      match index x (contents_of s1 p) with
      | None => raise ValueError
      | Some i => insert p i n
      end
  end.

Definition insert_after (x : nat) (n : nat) : M unit :=
  s <- get_store ;;
  match parent_of s x with
  | None => raise ValueError
  | Some p =>
      if decide (n = x) then raise ValueError else
      extract n ;;;
      s1 <- get_store ;;
      match index x (contents_of s1 p) with
      | None => raise ValueError
      | Some i => insert p (S i) n
      end
  end.

(** [x.descendants]: the objects below [x] in document order, that is
    in pre-order of the [contents] lists (the library follows its
    document-order links, which [insert] and [extract] keep in that
    order).  [fuel] bounds the depth. *)
Fixpoint descendants (fuel : nat) (s : store) (x : nat) : list nat :=
  match fuel with
  | 0 => []
  | S f => flat_map (fun c => c :: descendants f s c) (contents_of s x)
  end.



(** [t.string = value]. *)
Definition set_string (t : nat) (value : string) : M unit :=
  clear t ;;;
  append_str t value.

(** *** Searching *)

Definition is_tag (s : store) (x : nat) : bool :=
  match kind_of s x with KText => false | _ => true end.

Definition name_of (s : store) (x : nat) : string :=
  match s !! x with Some n => name n | None => EmptyString end.

Definition attrs_of (s : store) (x : nat) : list (string * attr_value) :=
  match s !! x with Some n => attrs n | None => [] end.

(** [t.find(name)], also written [t.<name>]: the first [Tag] below [t],
    in document order, with that name. *)
Definition find (s : store) (t : nat) (nm : string) : option nat :=
  List.find (fun x => is_tag s x && String.eqb (name_of s x) nm)
            (descendants (fuel_of s) s t).

Definition attr_matches (v : attr_value) (wanted : string) : bool :=
  match v with
  | AStr x => String.eqb x wanted
  | AList l => existsb (fun x => String.eqb x wanted) l
  end.

(** [t.find] with one attribute filter, as in [find(id=wanted)]. *)
Definition find_attr (s : store) (t : nat) (attr wanted : string) : option nat :=
  List.find (fun x => is_tag s x &&
                      match dict_get attr (attrs_of s x) with
                      | Some v => attr_matches v wanted
                      | None => false
                      end)
            (descendants (fuel_of s) s t).

(** [t.find_all(recursive=False)]: the children that are tags. *)
Definition find_all_children (s : store) (t : nat) : list nat :=
  filter (fun x => is_tag s x = true) (contents_of s t).



(** *** Equality of objects *)

(** Python bounds the depth of the call stack
    ([sys.getrecursionlimit()], 1000 unless it is changed, and [pydom]
    does not change it), and [Tag.__eq__] is recursive: a level of
    nesting takes a frame for [__eq__] and one for the [__ne__] that
    compares a pair of children, and as many again on the interpreters
    that count the calls of the two operators against the same limit.
    [eq_fuel] is the number of levels of nesting that this leaves to a
    comparison, the frames of the caller set aside; a comparison that
    has to go deeper raises [RecursionError]. *)
Definition recursion_limit : nat := 1000.

Definition eq_fuel : nat := recursion_limit / 4.

Definition attr_value_eqb (a b : attr_value) : bool :=
  match a, b with
  | AStr x, AStr y => String.eqb x y
  | AList x, AList y => if decide (x = y) then true else false
  | _, _ => false
  end.

(** [d1 == d2] on [dict]s: same number of keys, and every key of [d1] is
    in [d2] with an equal value. *)
Definition dict_eqb (d1 d2 : list (string * attr_value)) : bool :=
  (length d1 =? length d2) &&
  forallb (fun kv => match dict_get (fst kv) d2 with
                     | Some v => attr_value_eqb (snd kv) v
                     | None => false
                     end) d1.

(** The loop of [Tag.__eq__] over the children: the first pair that is
    not equal decides. *)
Fixpoint all_equal (eq : nat -> nat -> option bool) (l1 l2 : list nat)
  : option bool :=
  match l1, l2 with
  | x :: l1', y :: l2' =>
      match eq x y with
      | Some true => all_equal eq l1' l2'
      | r => r
      end
  | _, _ => Some true
  end.

(** [a == b].  Identical objects are equal; two [Tag]s are equal when
    they have the same name, the same attributes and pairwise equal
    contents ([Tag.__eq__]); two strings when they have the same text; a
    string and a tag never.  [None] when the recursion is deeper than
    [fuel] ([RecursionError]). *)
Fixpoint py_eq (fuel : nat) (s : store) (a b : nat) : option bool :=
  if decide (a = b) then Some true else
  match s !! a, s !! b with
  | Some na, Some nb =>
      match nkind na, nkind nb with
      | KText, KText => Some (String.eqb (text na) (text nb))
      | KText, _ | _, KText => Some false
      | _, _ =>
          if negb (String.eqb (name na) (name nb))
             || negb (dict_eqb (attrs na) (attrs nb))
             || negb (length (contents na) =? length (contents nb))
          then Some false
          else match fuel with
               | 0 => None
               | S f => all_equal (py_eq f s) (contents na) (contents nb)
               end
      end
  | _, _ => Some false
  end.

(** [l.index(v)] of a Python [list]: the first position whose item is
    [v] or equals it; [ValueError] when there is none. *)
Fixpoint list_index (s : store) (v : nat) (l : list nat) : outcome nat :=
  match l with
  | [] => Raise ValueError s
  | item :: l' =>
      match py_eq eq_fuel s item v with
      | Some true => Ok 0 s
      | Some false =>
          match list_index s v l' with
          | Ok i s' => Ok (S i) s'
          | r => r
          end
      | None => Raise RecursionError s
      end
  end.

(** *** Parsed documents *)

(** What the parser returns for a text, as a value: the forest of its
    top-level nodes.  The parser itself is the library's. *)
Inductive html : Set :=
| HTag (nm : string) (ats : list (string * attr_value)) (children : list html)
| HText (txt : string).

(** Allocation of the objects of a tree under parent [p]. *)
Fixpoint load (p : nat) (h : html) (s : store) : nat * store :=
  match h with
  | HText txt => (length s, s ++ [mkNode KText EmptyString [] [] (Some p) txt])
  | HTag nm ats cs =>
      let x := length s in
      let fix load_all (cs : list html) (s : store) : list nat * store :=
        match cs with
        | [] => ([], s)
        | c :: cs' =>
            let '(i, s1) := load x c s in
            let '(ids, s2) := load_all cs' s1 in
            (i :: ids, s2)
        end in
      let '(ids, s1) :=
        load_all cs (s ++ [mkNode KTag nm ats [] (Some p) EmptyString]) in
      (x, set_contents x ids s1)
  end.

Fixpoint load_forest (p : nat) (hs : list html) (s : store) : list nat * store :=
  match hs with
  | [] => ([], s)
  | h :: hs' =>
      let '(i, s1) := load p h s in
      let '(ids, s2) := load_forest p hs' s1 in
      (i :: ids, s2)
  end.

(** [BeautifulSoup(markup, "html.parser")], given the forest the parser
    builds for [markup]: a new root object with the forest below it. *)
Definition BeautifulSoup (forest : list html) : M nat :=
  fun s =>
    let root := length s in
    let '(ids, s1) :=
      load_forest root forest
        (s ++ [mkNode KSoup "[document]" [] [] None EmptyString]) in
    Ok root (set_contents root ids s1).

(** The tree below an object, read back from the heap. *)
Fixpoint render (fuel : nat) (s : store) (x : nat) : html :=
  match s !! x with
  | Some n =>
      match nkind n with
      | KText => HText (text n)
      | _ => HTag (name n) (attrs n)
               (match fuel with
                | 0 => []
                | S f => map (render f s) (contents n)
                end)
      end
  | None => HText EmptyString
  end.

Definition rendered (s : store) (x : nat) : list html :=
  match render (fuel_of s) s x with
  | HTag _ _ cs => cs
  | HText _ => []
  end.

End Bs4.

(** ** [class Element] *)

Import Bs4.
Local Open Scope py_scope.

(** A wrapper object: the wrapped node, the listener table (event name to
    a reference to a list object, see [World]) and the style dictionary. *)
Record Element : Set := mkElement {
  tag : nat;
  _events : list (string * nat);
  _style : list (string * string)
}.

(** An argument of a method, before its [isinstance] test. *)
Inductive value : Set :=
| VElement (e : Element)
| VStr (s : string)
| VNone.

(** The loop of [__init__] over [tag["style"].split(";")]. *)
Fixpoint init_style (segments : list string) (style : list (string * string))
  : M (list (string * string)) :=
  match segments with
  | [] => ret style
  | s :: rest =>
      if truthy (strip s) then
        match split ":" s with
        | [key; value] => init_style rest (dict_set (strip key) (strip value) style)
        | _ => raise ValueError
        end
      else init_style rest style
  end.

(** [Element(tag)]. *)
Definition Element__init__ (t : nat) : M Element :=
  s <- get_store ;;
  if negb (is_tag s t) then raise AttributeError else
  match dict_get "style" (attrs_of s t) with
  | None => ret (mkElement t [] [])
  | Some (AStr v) =>
      style <- init_style (split ";" v) [] ;;
      ret (mkElement t [] style)
  | Some (AList _) => raise AttributeError
  end.

(** [for child in t.contents: body(child)], on the list object itself:
    the iterator keeps an index and reads the list as it is at each
    step.  No body used here lengthens the list, so the fuel given by
    [for_in_contents] is never spent. *)
Fixpoint for_contents (fuel : nat) (t : nat) (i : nat) (body : nat -> M unit)
  : M unit :=
  match fuel with
  | 0 => hang
  | S f =>
      s <- get_store ;;
      match contents_of s t !! i with
      | None => ret tt
      | Some child => body child ;;; for_contents f t (S i) body
      end
  end.

Definition for_in_contents (t : nat) (body : nat -> M unit) : M unit :=
  s <- get_store ;;
  for_contents (S (length (contents_of s t))) t 0 body.

(** [for child in reversed(t.contents): body(child)]: the reverse
    iterator starts at the last index, counts down, and stops as soon as
    its index is outside the list. *)
Fixpoint for_reversed (t : nat) (k : nat) (body : nat -> M unit) : M unit :=
  match k with
  | 0 => ret tt
  | S i =>
      s <- get_store ;;
      match contents_of s t !! i with
      | None => ret tt
      | Some child => body child ;;; for_reversed t i body
      end
  end.

Definition for_in_reversed_contents (t : nat) (body : nat -> M unit) : M unit :=
  s <- get_store ;;
  for_reversed t (length (contents_of s t)) body.

(** [innerHTML] setter; [new_forest] is what the parser builds for
    [html_str]. *)
Definition set_innerHTML (self : Element) (new_forest : list html) : M unit :=
  clear (tag self) ;;;
  new_content <- BeautifulSoup new_forest ;;
  for_in_contents new_content (fun child => append (tag self) child).


Definition parentElement (self : Element) : M (option Element) :=
  s <- get_store ;;
  match parent_of s (tag self) with
  | Some p => e <- Element__init__ p ;; ret (Some e)
  | None => ret None
  end.

Fixpoint wrap_all (ts : list nat) : M (list Element) :=
  match ts with
  | [] => ret []
  | t :: ts' => e <- Element__init__ t ;; es <- wrap_all ts' ;; ret (e :: es)
  end.

Definition children (self : Element) : M (list Element) :=
  s <- get_store ;;
  wrap_all (find_all_children s (tag self)).


Definition appendChild (self : Element) (child : value) : M unit :=
  match child with
  | VElement child => append (tag self) (tag child)
  | _ => raise TypeError
  end.


Definition insertBefore (self : Element) (new_child reference_child : value)
  : M unit :=
  match new_child, reference_child with
  | VElement new_child, VElement reference_child =>
      index <- (fun s => list_index s (tag reference_child)
                           (contents_of s (tag self))) ;;
      insert (tag self) index (tag new_child)
  | _, _ => raise TypeError
  end.

Definition replaceChild (self : Element) (new_child old_child : value)
  : M unit :=
  match new_child, old_child with
  | VElement new_child, VElement old_child =>
      index <- (fun s => list_index s (tag old_child)
                           (contents_of s (tag self))) ;;
      s <- get_store ;;
      modify (set_contents (tag self)
                (<[index := tag new_child]> (contents_of s (tag self))))
  | _, _ => raise TypeError
  end.

(** [append] and [prependText]: an [Element], or the forest parsed from
    an HTML string. *)
Inductive content : Set :=
| CElement (e : Element)
| CHtml (forest : list html)
| COther.

Definition append_content (self : Element) (c : content) : M unit :=
  match c with
  | CElement e => append (tag self) (tag e)
  | CHtml forest =>
      new_content <- BeautifulSoup forest ;;
      for_in_contents new_content (fun child => append (tag self) child)
  | COther => raise TypeError
  end.

Definition prependText (self : Element) (c : content) : M unit :=
  match c with
  | CElement e =>
      s <- get_store ;;
      match contents_of s (tag self) with
      | _ :: _ => insert (tag self) 0 (tag e)
      | [] => append (tag self) (tag e)
      end
  | CHtml forest =>
      new_content <- BeautifulSoup forest ;;
      for_in_reversed_contents new_content (fun child => insert (tag self) 0 child)
  | COther => raise TypeError
  end.

(** [insertAdjacentHTML(position, html_str)]; [new_forest] is what the
    parser builds for [html_str]. *)
Definition insertAdjacentHTML (self : Element) (position : string)
    (new_forest : list html) : M unit :=
  new_content <- BeautifulSoup new_forest ;;
  if String.eqb position "beforebegin" then
    for_in_reversed_contents new_content (fun child => insert_before (tag self) child)
  else if String.eqb position "afterbegin" then
    for_in_reversed_contents new_content (fun child => insert (tag self) 0 child)
  else if String.eqb position "beforeend" then
    for_in_contents new_content (fun child => append (tag self) child)
  else if String.eqb position "afterend" then
    for_in_contents new_content (fun child => insert_after (tag self) child)
  else raise ValueError.


(** ** [class Document] *)

Record Document : Set := mkDocument { soup : nat }.

(** [Document(html)], given the forest the parser builds for [html]. *)
Definition Document__init__ (forest : list html) : M Document :=
  root <- BeautifulSoup forest ;;
  ret (mkDocument root).

Definition getElementById (self : Document) (element_id : string)
  : M (option Element) :=
  s <- get_store ;;
  match find_attr s (soup self) "id" element_id with
  | Some t => e <- Element__init__ t ;; ret (Some e)
  | None => ret None
  end.

Definition createElement (self : Document) (tag_name : string) : M Element :=
  t <- new_tag tag_name ;;
  Element__init__ t.


Definition set_title (self : Document) (value : string) : M unit :=
  s <- get_store ;;
  match find s (soup self) "title" with
  | Some title_tag => set_string title_tag value
  | None =>
      new_title <- new_tag "title" ;;
      set_string new_title value ;;;
      s <- get_store ;;
      match find s (soup self) "head" with
      | Some head => append head new_title
      | None =>
          head_tag <- new_tag "head" ;;
          append head_tag new_title ;;;
          s <- get_store ;;
          match find s (soup self) "html" with
          | Some html_tag => insert html_tag 0 head_tag
          | None => insert (soup self) 0 head_tag
          end
      end
  end.

Definition write (self : Document) (forest : list html) : M unit :=
  s <- get_store ;;
  match find s (soup self) "body" with
  | Some _ => ret tt
  | None =>
      body_tag <- new_tag "body" ;;
      s <- get_store ;;
      match find s (soup self) "html" with
      | Some html_tag => append html_tag body_tag
      | None =>
          html_tag <- new_tag "html" ;;
          append html_tag body_tag ;;;
          append (soup self) html_tag
      end
  end ;;;
  s <- get_store ;;
  match find s (soup self) "body" with
  | Some body => clear body
  | None => raise AttributeError
  end ;;;
  new_content <- BeautifulSoup forest ;;
  for_in_contents new_content (fun child =>
    s <- get_store ;;
    match find s (soup self) "body" with
    | Some body => append body child
    | None => raise AttributeError
    end).

(** ** Event listeners *)

(** A listener is a Python callable; it is known to [Element] by its
    identity only ([cb != callback]).  What a callable does when it is
    called is the client's code: here, a sequence of registrations and
    removals on wrapper objects. *)
Inductive action : Set :=
| AddListener (h : nat) (event : string) (callback : nat)
| RemoveListener (h : nat) (event : string) (callback : nat).

Section Events.

(** The positional and keyword arguments handed to [triggerEvent]. *)
Variable Args : Type.

(** The body of each callable. *)
Variable body : nat -> list action.

(** The wrapper objects and the list objects their [_events] tables
    refer to, both by allocation index, and the calls made so far. *)
Record World : Type := mkWorld {
  elems : list Element;
  lists : list (list nat);
  calls : list (nat * Args)
}.

Definition with_events (ev : list (string * nat)) (e : Element) : Element :=
  mkElement (tag e) ev (_style e).

(** The list object that [self._events[event]] refers to. *)
Definition listeners_ref (w : World) (h : nat) (event : string) : option nat :=
  match elems w !! h with
  | Some e => dict_get event (_events e)
  | None => None
  end.

(** A new wrapper object. *)
Definition new_object (e : Element) (w : World) : nat * World :=
  (length (elems w), mkWorld (elems w ++ [e]) (lists w) (calls w)).

(** [self._events[event] = l], with [l] a new list object. *)
Definition bind_new_list (h : nat) (event : string) (l : list nat) (w : World)
  : World :=
  mkWorld (alter (fun e => with_events (dict_set event (length (lists w)) (_events e)) e)
                 h (elems w))
          (lists w ++ [l])
          (calls w).

Definition addEventListener (h : nat) (event : string) (callback : nat)
    (w : World) : World :=
  let w1 := match listeners_ref w h event with
            | None => bind_new_list h event [] w
            | Some _ => w
            end in
  match listeners_ref w1 h event with
  | Some l => mkWorld (elems w1)
                      (alter (fun cbs => cbs ++ [callback]) l (lists w1))
                      (calls w1)
  | None => w1
  end.

Definition removeEventListener (h : nat) (event : string) (callback : nat)
    (w : World) : World :=
  match listeners_ref w h event with
  | Some l =>
      match lists w !! l with
      | Some cbs =>
          bind_new_list h event
            (filter (fun cb => cb <> callback) cbs) w
      | None => w
      end
  | None => w
  end.

Definition run_action (a : action) (w : World) : World :=
  match a with
  | AddListener h event callback => addEventListener h event callback w
  | RemoveListener h event callback => removeEventListener h event callback w
  end.

(** The call of [callback] with the arguments of [triggerEvent]: the
    call is recorded, then the body runs. *)
Definition call (callback : nat) (args : Args) (w : World) : World :=
  fold_left (fun w a => run_action a w) (body callback)
            (mkWorld (elems w) (lists w) (calls w ++ [(callback, args)])).

(** The [for] loop of [triggerEvent] over the list object [l]: index [i]
    is read from the list as it is when the iterator is advanced.
    [None] when the fuel is spent before the loop ends. *)
Fixpoint dispatch (fuel : nat) (l : nat) (i : nat) (args : Args) (w : World)
  : option World :=
  match fuel with
  | 0 => None
  | S f =>
      match lists w !! l with
      | Some cbs =>
          match cbs !! i with
          | Some callback => dispatch f l (S i) args (call callback args w)
          | None => Some w
          end
      | None => Some w
      end
  end.

Definition triggerEvent (fuel : nat) (h : nat) (event : string) (args : Args)
    (w : World) : option World :=
  match listeners_ref w h event with
  | Some l => dispatch fuel l 0 args w
  | None => Some w
  end.

(** The listeners registered for [event] on [h]. *)
Definition registered (w : World) (h : nat) (event : string) : list nat :=
  match listeners_ref w h event with
  | Some l => default [] (lists w !! l)
  | None => []
  end.

End Events.

Arguments mkWorld {Args} _ _ _.
Arguments elems {Args} _.
Arguments lists {Args} _.
Arguments calls {Args} _.
Arguments listeners_ref {Args} w h event.
Arguments new_object {Args} e w.
Arguments bind_new_list {Args} h event l w.
Arguments addEventListener {Args} h event callback w.
Arguments removeEventListener {Args} h event callback w.
Arguments run_action {Args} a w.
Arguments call {Args} body callback args w.
Arguments dispatch {Args} body fuel l i args w.
Arguments triggerEvent {Args} body fuel h event args w.
Arguments registered {Args} w h event.

(** ** Attributes, classes and style of [class Element] *)

(** [a in b] for two [str]: [a] occurs in [b]. *)
Fixpoint occurs (a b : string) : bool :=
  String.prefix a b ||
  match b with
  | EmptyString => false
  | String _ b' => occurs a b'
  end.

(** [x in l] for a [list] of [str]. *)
Definition member (x : string) (l : list string) : bool :=
  existsb (String.eqb x) l.

(** [l.remove(x)] when [x] is in [l]: the first occurrence goes. *)
Fixpoint list_remove (x : string) (l : list string) : list string :=
  match l with
  | [] => []
  | y :: l' => if String.eqb y x then l' else y :: list_remove x l'
  end.

(** [del d[k]]: no entry for [k] is left. *)
Fixpoint dict_del {V : Type} (k : string) (d : list (string * V))
  : list (string * V) :=
  match d with
  | [] => []
  | (k', v) :: d' =>
      if String.eqb k' k then dict_del k d' else (k', v) :: dict_del k d'
  end.

(** [sep.join(l)]. *)
Fixpoint join (sep : string) (l : list string) : string :=
  match l with
  | [] => EmptyString
  | [x] => x
  | x :: l' => (x ++ sep ++ join sep l')%string
  end.

Definition with_attrs (ats : list (string * attr_value)) (n : Node) : Node :=
  mkNode (nkind n) (name n) ats (contents n) (parent n) (text n).

(** [tag[attr] = value] and [del tag[attr]]. *)
Definition set_attr (x : nat) (attr : string) (value : attr_value) (s : store)
  : store :=
  alter (fun n => with_attrs (dict_set attr value (attrs n)) n) x s.

Definition del_attr (x : nat) (attr : string) (s : store) : store :=
  alter (fun n => with_attrs (dict_del attr (attrs n)) n) x s.

(** [classList]: [tag.get("class", [])]. *)
Definition classList (self : Element) : M attr_value :=
  s <- get_store ;;
  ret (default (AList []) (dict_get "class" (attrs_of s (tag self)))).

Definition addClass (self : Element) (cls : string) : M unit :=
  s <- get_store ;;
  match default (AList []) (dict_get "class" (attrs_of s (tag self))) with
  | AList classes =>
      if negb (member cls classes)
      then modify (set_attr (tag self) "class" (AList (classes ++ [cls])))
      else ret tt
  | AStr classes =>
      if negb (occurs cls classes) then raise AttributeError else ret tt
  end.

Definition removeClass (self : Element) (cls : string) : M unit :=
  s <- get_store ;;
  match default (AList []) (dict_get "class" (attrs_of s (tag self))) with
  | AList classes =>
      if member cls classes then
        match list_remove cls classes with
        | [] => modify (del_attr (tag self) "class")
        | classes' => modify (set_attr (tag self) "class" (AList classes'))
        end
      else ret tt
  | AStr classes =>
      if occurs cls classes then raise AttributeError else ret tt
  end.

Definition getAttribute (self : Element) (attr : string)
  : M (option attr_value) :=
  s <- get_store ;;
  ret (dict_get attr (attrs_of s (tag self))).

Definition setAttribute (self : Element) (attr : string) (value : attr_value)
  : M unit :=
  modify (set_attr (tag self) attr value).

(** [d.update(other)]. *)
Definition dict_update {V : Type} (d other : list (string * V))
  : list (string * V) :=
  fold_left (fun d kv => dict_set (fst kv) (snd kv) d) other d.

(** The text written to the [style] attribute. *)
Definition style_text (style : list (string * string)) : string :=
  join "; " (map (fun kv => (fst kv ++ ": " ++ snd kv)%string) style).

(** [style] setter.  The wrapper's own dictionary is updated in place;
    the wrapper is returned as it is after the call. *)
Definition set_style (self : Element) (style_dict : list (string * string))
  : M Element :=
  let style := dict_update (_style self) style_dict in
  modify (set_attr (tag self) "style" (AStr (style_text style))) ;;;
  ret (mkElement (tag self) (_events self) style).

(** ** Reading and searching methods of [class Element] *)


(** [v in xs] for an iterable of objects: the first item that is [v] or
    equals it makes the answer [True]; a comparison that exceeds the
    recursion limit raises. *)
Fixpoint py_in (s : store) (v : nat) (xs : list nat) : outcome bool :=
  match xs with
  | [] => Ok false s
  | item :: xs' =>
      match py_eq eq_fuel s item v with
      | Some true => Ok true s
      | Some false => py_in s v xs'
      | None => Raise RecursionError s
      end
  end.

Definition contains (self : Element) (other_element : value) : M bool :=
  match other_element with
  | VElement other_element =>
      fun s => py_in s (tag other_element)
                 (descendants (fuel_of s) s (tag self))
  | _ => raise TypeError
  end.

(** ** Tree invariants *)

(** Parent and child lists agree: [n.parent is p] exactly when [n] is in
    [p.contents]. *)
Definition symmetric (s : store) : Prop :=
  forall n p, parent_of s n = Some p <-> In n (contents_of s p).

(** No object is twice in one [contents] list. *)
Definition no_duplicates (s : store) : Prop :=
  forall p, NoDup (contents_of s p).

(** [ancestor s a n]: [a] is reached from [n] by one or more [parent]
    steps. *)
Inductive ancestor (s : store) : nat -> nat -> Prop :=
| ancestor_parent n p : parent_of s n = Some p -> ancestor s p n
| ancestor_step n p a :
    parent_of s n = Some p -> ancestor s a p -> ancestor s a n.

Definition acyclic (s : store) : Prop :=
  forall n, ~ ancestor s n n.

Definition well_formed (s : store) : Prop :=
  symmetric s /\ no_duplicates s /\ acyclic s.

(** What an object is, apart from its place in the tree. *)
Definition label_of (s : store) (x : nat)
  : option (kind * string * list (string * attr_value) * string) :=
  match s !! x with
  | Some n => Some (nkind n, name n, attrs n, text n)
  | None => None
  end.

(** Every object of [s] is the same object in [s']. *)
Definition preserved (s s' : store) : Prop :=
  forall x, x < length s -> s' !! x = s !! x.

(** ** Scenarios *)

(** [o.method(...)] on the result of a query: [None] has no methods. *)
Definition expect {A} (o : option A) : M A :=
  match o with
  | Some a => ret a
  | None => raise AttributeError
  end.

Definition by_id (d : Document) (element_id : string) : M Element :=
  o <- getElementById d element_id ;;
  expect o.

(** The document under an object, as the forest it renders to. *)
Definition document_of (d : Document) : M (list html) :=
  s <- get_store ;;
  ret (rendered s (soup d)).

(** [<div id="p"><a id="a"></a></div>]; a new [<b>] replaces [<a>]. *)
Definition replace_scenario : M (nat * nat * nat) :=
  d <- Document__init__
         [HTag "div" [("id", AStr "p")] [HTag "a" [("id", AStr "a")] []]] ;;
  p <- by_id d "p" ;;
  a <- by_id d "a" ;;
  b <- createElement d "b" ;;
  replaceChild p (VElement b) (VElement a) ;;;
  ret (tag p, tag a, tag b).

(** [<div id="nav"><p>old</p></div>]; [innerHTML] is set to a text that
    parses to [forest]. *)
Definition innerHTML_scenario (forest : list html) : M (list html) :=
  d <- Document__init__
         [HTag "div" [("id", AStr "nav")] [HTag "p" [] [HText "old"]]] ;;
  nav <- by_id d "nav" ;;
  set_innerHTML nav forest ;;;
  document_of d.

(** A document with one element carrying a [style] attribute, looked up
    by its id. *)
Definition style_scenario (style : string) : M (list (string * string)) :=
  d <- Document__init__
         [HTag "div" [("id", AStr "box"); ("style", AStr style)] []] ;;
  box <- by_id d "box" ;;
  ret (_style box).

(** [document.title = value] on the document parsed to [forest]. *)
Definition title_scenario (forest : list html) (value : string)
  : M (list html) :=
  d <- Document__init__ forest ;;
  set_title d value ;;;
  document_of d.

(** [<a id="a"><d id="d"></d><e></e></a>]; [<a>] is appended to its own
    child [<d>]. *)
Definition cycle_scenario : M (nat * nat) :=
  d <- Document__init__
         [HTag "a" [("id", AStr "a")]
            [HTag "d" [("id", AStr "d")] []; HTag "e" [] []]] ;;
  a <- by_id d "a" ;;
  inner <- by_id d "d" ;;
  appendChild inner (VElement a) ;;;
  ret (tag a, tag inner).

(** [<div id="p"><b></b><i></i></div>]; a new [<x>] is inserted before
    a new, detached [<b>]. *)
Definition detached_reference_scenario : M (list html) :=
  d <- Document__init__
         [HTag "div" [("id", AStr "p")] [HTag "b" [] []; HTag "i" [] []]] ;;
  p <- by_id d "p" ;;
  reference <- createElement d "b" ;;
  new_child <- createElement d "x" ;;
  insertBefore p (VElement new_child) (VElement reference) ;;;
  document_of d.

(** [<div id="p"><b></b><i></i><b></b></div>]: the first and the third
    child are two objects with the same name, attributes and contents.
    The third child is the reference (or the old child); a new [<x>] is
    inserted before it (or replaces it). *)
Definition twin_forest : list html :=
  [HTag "div" [("id", AStr "p")] [HTag "b" [] []; HTag "i" [] []; HTag "b" [] []]].

Definition third_child (p : Element) : M Element :=
  s <- get_store ;;
  match contents_of s (tag p) !! 2 with
  | Some t => Element__init__ t
  | None => raise AttributeError
  end.

Definition twin_insert_scenario : M (list html) :=
  d <- Document__init__ twin_forest ;;
  p <- by_id d "p" ;;
  reference <- third_child p ;;
  new_child <- createElement d "x" ;;
  insertBefore p (VElement new_child) (VElement reference) ;;;
  document_of d.

Definition twin_replace_scenario : M (list html) :=
  d <- Document__init__ twin_forest ;;
  p <- by_id d "p" ;;
  old_child <- third_child p ;;
  new_child <- createElement d "x" ;;
  replaceChild p (VElement new_child) (VElement old_child) ;;;
  document_of d.

(** A new, parentless [<x>]; the text that parses to [forest] is
    inserted at [position] of it. *)
Definition adjacent_scenario (position : string) (forest : list html)
  : M (list html) :=
  d <- Document__init__ [HTag "div" [("id", AStr "p")] []] ;;
  x <- createElement d "x" ;;
  insertAdjacentHTML x position forest ;;;
  document_of d.

(** Two queries for the same element give two wrappers. *)
Definition two_handles : M (Element * Element) :=
  d <- Document__init__ [HTag "button" [("id", AStr "go")] []] ;;
  h1 <- by_id d "go" ;;
  h2 <- by_id d "go" ;;
  ret (h1, h2).

Definition empty_world : World string := mkWorld [] [] [].

(** Callables that do nothing when called. *)
Definition inert (callback : nat) : list action := [].

(** A listener is registered through the first handle, the event is
    triggered through the second. *)
Definition shared_node_scenario : option (list (nat * string)) :=
  match two_handles [] with
  | Ok (e1, e2) _ =>
      let '(h1, w1) := new_object e1 empty_world in
      let '(h2, w2) := new_object e2 w1 in
      let w3 := addEventListener h1 "click" 7 w2 in
      calls <$> triggerEvent inert 10 h2 "click" "now" w3
  | _ => None
  end.

(** Callable 1 registers callable 2 for the event being dispatched, on
    the wrapper being dispatched. *)
Definition registering (callback : nat) : list action :=
  match callback with
  | 1 => [AddListener 0 "click" 2]
  | _ => []
  end.

(** Callable 1 removes callable 2. *)
Definition removing (callback : nat) : list action :=
  match callback with
  | 1 => [RemoveListener 0 "click" 2]
  | _ => []
  end.

(** One wrapper (object 0) with the listeners [cbs] registered, in that
    order, for ["click"]. *)
Definition listening (cbs : list nat) : World string :=
  fold_left (fun w cb => addEventListener 0 "click" cb w) cbs
    (snd (new_object (mkElement 0 [] []) empty_world)).

(** ** Notions used in the proofs *)

(** *** Shapes of the heap *)

(** Children name their parent. *)
Definition children_linked (s : store) : Prop :=
  forall x c, In c (contents_of s x) -> parent_of s c = Some x.


(** A chain of objects, each the parent of the next. *)
Inductive downchain (s : store) : list nat -> Prop :=
| downchain_one x : downchain s [x]
| downchain_cons x y l :
    parent_of s y = Some x -> downchain s (y :: l) -> downchain s (x :: y :: l).

(** The depth of the tree below [x] is less than [d]. *)
Definition depth_below (s : store) (x d : nat) : Prop :=
  forall l, downchain s (x :: l) -> length l < d.

(** [l] with every occurrence of [n] left out. *)
Definition without (n : nat) (l : list nat) : list nat :=
  List.filter (fun y => negb (Nat.eqb y n)) l.

(** *** Effects of the library calls *)

(** What [extract n] leaves of a heap: [n] has no parent and is in no
    [contents] list; nothing else has changed. *)
Definition extracted (n : nat) (s s' : store) : Prop :=
  length s' = length s /\
  (forall x, parent_of s' x = if decide (x = n) then None else parent_of s x) /\
  (forall x, contents_of s' x = without n (contents_of s x)) /\
  (forall x, label_of s' x = label_of s x).

(** The position at which [insert] puts [n] after taking it out of the
    tree: the requested one, capped by the number of children, and one
    less when [n] was an earlier child of the same parent. *)
Definition landing (s : store) (t position n : nat) : nat :=
  let m := min position (length (contents_of s t)) in
  match index n (contents_of s t) with
  | Some current_index => if current_index <? m then m - 1 else m
  | None => m
  end.

(** What moving [n] to position [k] of [t] makes of a heap: [n] names
    [t] as its parent, is the [k]-th child of [t] and is in no other
    [contents] list; nothing else has changed. *)
Definition moved (n t k : nat) (s s' : store) : Prop :=
  length s' = length s /\
  (forall x, parent_of s' x = if decide (x = n) then Some t else parent_of s x) /\
  (forall x, contents_of s' x =
             if decide (x = t)
             then list_insert_at k n (without n (contents_of s t))
             else without n (contents_of s x)) /\
  (forall x, label_of s' x = label_of s x).

(** What inserting the detached object [n] at position [k] of [t] makes
    of a heap. *)
Definition attached (n t k : nat) (s s' : store) : Prop :=
  length s' = length s /\
  (forall x, label_of s' x = label_of s x) /\
  (forall x, parent_of s' x = if decide (x = n) then Some t else parent_of s x) /\
  (forall x, contents_of s' x =
             if decide (x = t) then list_insert_at k n (contents_of s t)
             else contents_of s x).

(** [n] is a child of [t], of nothing else, and the heap is well
    formed. *)
Definition relocated (n t : nat) (s : store) : Prop :=
  well_formed s /\
  parent_of s n = Some t /\
  In n (contents_of s t) /\
  forall p, p <> t -> ~ In n (contents_of s p).


(** *** Checking a heap *)

(** Decision procedures for the three parts of [well_formed]. *)
Definition symmetricb (s : store) : bool :=
  forallb (fun n => match parent_of s n with
                    | Some p => existsb (Nat.eqb n) (contents_of s p)
                    | None => true
                    end) (seq 0 (length s)) &&
  forallb (fun p => forallb (fun c => match parent_of s c with
                                      | Some q => Nat.eqb q p
                                      | None => false
                                      end) (contents_of s p))
          (seq 0 (length s)).

Definition no_duplicatesb (s : store) : bool :=
  forallb (fun p => bool_decide (NoDup (contents_of s p))) (seq 0 (length s)).

(** [x] reaches an object without parent in fewer than [fuel] steps. *)
Fixpoint climbs (fuel : nat) (s : store) (x : nat) : bool :=
  match fuel with
  | 0 => false
  | S f => match parent_of s x with
           | None => true
           | Some p => climbs f s p
           end
  end.

Definition acyclicb (s : store) : bool :=
  forallb (climbs (S (length s)) s) (seq 0 (length s)).

Definition well_formedb (s : store) : bool :=
  symmetricb s && no_duplicatesb s && acyclicb s.


(** *** Positions *)



(** *** Listener tables *)

(** Every table entry refers to an allocated list object, and no list
    object is referred to by two entries. *)
Definition sound_world {Args} (w : World Args) : Prop :=
  (forall h e l, listeners_ref w h e = Some l -> l < length (lists w)) /\
  (forall h1 e1 h2 e2 l,
      listeners_ref w h1 e1 = Some l -> listeners_ref w h2 e2 = Some l ->
      h1 = h2 /\ e1 = e2).

(** The action registers a listener for [event] on wrapper [h]. *)
Definition adds_to (h : nat) (event : string) (a : action) : Prop :=
  match a with
  | AddListener h' event' _ => h' = h /\ event' = event
  | RemoveListener _ _ _ => False
  end.

(** The list object [l], holding [cbs], is the one of [(h, event)] or of
    no entry at all. *)
Definition iterating {Args} (l : nat) (cbs : list nat) (h : nat)
    (event : string) (w : World Args) : Prop :=
  lists w !! l = Some cbs /\
  forall h' event', listeners_ref w h' event' = Some l -> h' = h /\ event' = event.

(** With [body] giving the body of each callable: the callable registers
    no listener for [event] on [h]; it may remove listeners, and
    register listeners for other events or on other wrappers. *)
Definition quiet (body : nat -> list action) (h : nat) (event : string)
    (callback : nat) : Prop :=
  forall a, In a (body callback) -> ~ adds_to h event a.

(** *** Heaps used as inputs *)

(** The heap of [twin_insert_scenario] before the insertion: object 1 is
    the [<div>], objects 2 and 4 its two [<b>] children, object 5 the
    new [<x>]; objects 6 and 7 are two more detached elements, [<u>]
    and [<b>]. *)
Definition twin_store : store :=
  [ mkNode KSoup "[document]" [] [1] None "";
    mkNode KTag "div" [("id", AStr "p")] [2; 3; 4] (Some 0) "";
    mkNode KTag "b" [] [] (Some 1) "";
    mkNode KTag "i" [] [] (Some 1) "";
    mkNode KTag "b" [] [] (Some 1) "";
    mkNode KTag "x" [] [] None "";
    mkNode KTag "u" [] [] None "";
    mkNode KTag "b" [] [] None "" ].


(** The heap of [<a><d></d><e></e></a>]. *)
Definition nested_store : store :=
  [ mkNode KSoup "[document]" [] [1] None "";
    mkNode KTag "a" [] [2; 3] (Some 0) "";
    mkNode KTag "d" [] [] (Some 1) "";
    mkNode KTag "e" [] [] (Some 1) "" ].

(** The heap of the empty document. *)
Definition empty_document_store : store :=
  [ mkNode KSoup "[document]" [] [] None "" ].

(** *** Strings that survive the style text *)

(** [c] occurs in [s]. *)
Fixpoint has_char (c : ascii) (s : string) : bool :=
  match s with
  | EmptyString => false
  | String c' s' => Ascii.eqb c' c || has_char c s'
  end.

(** A property name or value that the style text can carry: no [;], no
    [:], and nothing at either end that [str.strip] removes. *)
Definition plain (s : string) : Prop :=
  has_char ";" s = false /\ has_char ":" s = false /\ strip s = s.

Definition plain_style (style : list (string * string)) : Prop :=
  Forall (fun kv => plain (fst kv) /\ plain (snd kv)) style.

(** The class list of an element, when the [class] attribute is absent
    or holds a list. *)
Definition classes_are (s : store) (x : nat) (classes : list string) : Prop :=
  default (AList []) (dict_get "class" (attrs_of s x)) = AList classes.

(** The heap of one [<div id="x" class="a b">]. *)
Definition div_store : store :=
  [ mkNode KTag "div" [("id", AStr "x"); ("class", AList ["a"; "b"])] [] None "" ].

(** The action rebinds the table entry of [(h, event)]: a removal for
    that wrapper and event. *)
Definition removes_from (h : nat) (event : string) (a : action) : Prop :=
  match a with
  | RemoveListener h' event' _ => h' = h /\ event' = event
  | AddListener _ _ _ => False
  end.

(** Callable [c] registers itself for ["click"] on wrapper 0. *)
Definition reregistering (callback : nat) : list action :=
  [AddListener 0 "click" callback].

(** *** Parsed trees in the heap *)

(** The objects from [lo] on are trees hung under [p]: [roots] are the
    roots, in order; every other object from [lo] on is a child of an
    earlier one; children come after their parent and name it. *)
Definition grafted (p lo : nat) (roots : list nat) (s : store) : Prop :=
  NoDup roots /\
  (forall r, In r roots -> lo <= r < length s /\ parent_of s r = Some p) /\
  (forall y, lo <= y < length s ->
     kind_of s y <> KSoup /\ NoDup (contents_of s y) /\
     (In y roots \/
      exists q, lo <= q < y /\ parent_of s y = Some q /\
                In y (contents_of s q))) /\
  (forall q c, lo <= q < length s -> In c (contents_of s q) ->
     q < c < length s /\ parent_of s c = Some q).

(** *** Handing the children of one object to another *)

(** Every other item of a list: with [keep] the first, third, ...,
    without it the second, fourth, ... *)
Fixpoint alternate {A} (keep : bool) (l : list A) : list A :=
  match l with
  | [] => []
  | x :: l' => if keep then x :: alternate false l' else alternate true l'
  end.

(** The children of [r] can be moved under [t]: the heap is well
    formed, [r] is neither [t] nor above it, and no child of [r] is a
    root object. *)
Definition donor (s : store) (r t : nat) : Prop :=
  well_formed s /\ r <> t /\ t < length s /\ ~ ancestor s r t /\
  forall c, In c (contents_of s r) -> kind_of s c <> KSoup.

(** The objects [cs] have gone from [r] to [t]: they name [t] as their
    parent, [r] is left with [lr] and [t] has [lt]; nothing else has
    changed. *)
Definition handed_over (cs : list nat) (r t : nat) (lr lt : list nat)
    (s s' : store) : Prop :=
  length s' = length s /\
  (forall x, label_of s' x = label_of s x) /\
  (forall x, In x cs -> parent_of s' x = Some t) /\
  (forall x, ~ In x cs -> parent_of s' x = parent_of s x) /\
  contents_of s' r = lr /\
  contents_of s' t = lt /\
  (forall x, x <> r -> x <> t -> contents_of s' x = contents_of s x).

(** Where each of the four insertions puts a new child in the list of
    children. *)
Definition place_last (c : nat) (l : list nat) : list nat := l ++ [c].

Definition place_first (c : nat) (l : list nat) : list nat := c :: l.

Definition place_before (x c : nat) (l : list nat) : list nat :=
  match index x l with
  | Some i => list_insert_at i c l
  | None => l
  end.

Definition place_after (x c : nat) (l : list nat) : list nat :=
  match index x l with
  | Some i => list_insert_at (S i) c l
  | None => l
  end.

(** *** Reading a tree back *)

(** [below s x y]: [y] is [x] or is reached from [x] through the
    [contents] lists. *)
Inductive below (s : store) : nat -> nat -> Prop :=
| below_self x : below s x x
| below_child x c y : In c (contents_of s x) -> below s c y -> below s x y.

(** The number of levels of tags below the top of a tree. *)
Fixpoint height (h : html) : nat :=
  match h with
  | HText _ => 0
  | HTag _ _ cs => list_max (map (fun c => S (height c)) cs)
  end.

(** The fragment [<h1>hi</h1><h2></h2>t]. *)
Definition three_nodes : list html :=
  [HTag "h1" [] [HText "hi"]; HTag "h2" [] []; HText "t"].

(** *** The traversal up to an object *)


(** The heap of [<head><title>old</title></head><body><p></p></body>]. *)
Definition titled_store : store :=
  [ mkNode KSoup "[document]" [] [1; 4] None "";
    mkNode KTag "head" [] [2] (Some 0) "";
    mkNode KTag "title" [] [3] (Some 1) "";
    mkNode KText "" [] [] (Some 2) "old";
    mkNode KTag "body" [] [5] (Some 0) "";
    mkNode KTag "p" [] [] (Some 4) "" ].

(** *** The script [main.py] *)

(** The script, from what the parser builds for the text of
    [index.html] to the document that is written back.  The two strings
    of the script are given as what the parser builds for them; the
    assignment to [nav.innerHTML] fails on [None]. *)
Definition main (raw : list html) : M (list html) :=
  document <- Document__init__ raw ;;
  nav <- getElementById document "nav" ;;
  nav <- expect nav ;;
  set_innerHTML nav [HTag "h1" [] [HText "heavens above"]] ;;;
  write document [HText "may the lord have mercy upon us all"] ;;;
  document_of document.

(** What [find(id=wanted)] tests on an object. *)
Definition id_is (s : store) (wanted : string) (x : nat) : bool :=
  is_tag s x &&
  match dict_get "id" (attrs_of s x) with
  | Some v => attr_matches v wanted
  | None => false
  end.

(** A tag of the tree has the [id] wanted. *)
Fixpoint has_id (wanted : string) (h : html) : bool :=
  match h with
  | HText _ => false
  | HTag _ ats cs =>
      match dict_get "id" ats with
      | Some v => attr_matches v wanted
      | None => false
      end || existsb (has_id wanted) cs
  end.

(** *** Objects of the same structure *)





(** *** Two deep children of the same structure *)

(** The [k]-th levels of two chains of [<b>] elements, [n] levels below
    the objects 2 and 3: the objects [3 + 2 * k] and [4 + 2 * k]. *)
Definition chain_level (n k : nat) : list Node :=
  let up x := if k =? 1 then x else 2 * k + x - 1 in
  let down x := if k =? n then [] else [x + 2] in
  [ mkNode KTag "b" [] (down (3 + 2 * k)) (Some (up 2)) "";
    mkNode KTag "b" [] (down (4 + 2 * k)) (Some (up 3)) "" ].

(** The heap of a [<div>] (object 1) whose two children (objects 2 and
    3) are the tops of two chains of nested [<b>] elements, each [n]
    levels deep, with a detached [<x>] (object 4). *)
Definition deep_store (n : nat) : store :=
  [ mkNode KSoup "[document]" [] [1] None "";
    mkNode KTag "div" [] [2; 3] (Some 0) "";
    mkNode KTag "b" [] [5] (Some 1) "";
    mkNode KTag "b" [] [6] (Some 1) "";
    mkNode KTag "x" [] [] None "" ]
  ++ flat_map (chain_level n) (seq 1 n).

(** ** Properties that the code does not have

    Each is stated for every input; the code fails it at an input given
    in the second part. *)

(** The listener table is shared by the wrappers of a node: a listener
    registered through one wrapper is called when the event is
    triggered through another wrapper of the same node. *)
Definition registry_per_node : Prop :=
  forall (body : nat -> list action) (w : World string) h1 h2 e1 e2
         event callback args,
    elems w !! h1 = Some e1 -> elems w !! h2 = Some e2 -> tag e1 = tag e2 ->
    exists fuel w',
      triggerEvent body fuel h2 event args
        (addEventListener h1 event callback w) = Some w' /\
      In (callback, args) (calls w').




(** [triggerEvent] calls exactly the listeners registered when it
    starts. *)
Definition dispatch_is_snapshot : Prop :=
  forall (body : nat -> list action) (w : World string) h event args,
    sound_world w ->
    exists fuel w',
      triggerEvent body fuel h event args w = Some w' /\
      calls w' = calls w ++ map (fun cb => (cb, args)) (registered w h event).



(** * Properties *)


(** ** Strings and style parsing *)

Lemma split_nonempty sep s : split sep s <> [].
Proof.
  destruct s as [|c r]; simpl; [discriminate|].
  destruct (Ascii.eqb c sep); [discriminate|].
  destruct (split sep r); discriminate.
Qed.

(** A segment that is not blank and does not split into exactly two
    pieces at its colons stops [init_style] with [ValueError], whatever
    follows it. *)
Lemma init_style_bad_segment seg rest style s :
  truthy (strip seg) = true ->
  length (split ":" seg) <> 2 ->
  init_style (seg :: rest) style s = Raise ValueError s.
Proof.
  intros Hblank Hlen. simpl. rewrite Hblank.
  destruct (split ":" seg) as [|a [|b [|c l]]]; try reflexivity.
  simpl in Hlen. lia.
Qed.

(** C4.  Wrapping an element whose [style] attribute is
    ["background: url(http://x)"] does not succeed: the segment splits
    into three pieces at its two colons and [Element(tag)] raises
    [ValueError], so no style mapping is produced. *)
Theorem style_with_url_raises :
  exists s, style_scenario "background: url(http://x)" [] = Raise ValueError s.
Proof. eexists. vm_compute. reflexivity. Qed.

(** With one colon per segment the mapping is built as described. *)
Example style_single_colons :
  exists s, style_scenario "color: red;  background : blue ; " []
            = Ok [("color", "red"); ("background", "blue")] s.
Proof. eexists. vm_compute. reflexivity. Qed.

(** ** [innerHTML] *)

(** C2.  Setting [innerHTML] to a text with the two top-level nodes
    [<h1>hi</h1><h2></h2>] leaves the element with the single child
    [<h1>hi</h1>]: the second node is never inserted, because each
    [append] takes the node out of the list being iterated. *)
Theorem innerHTML_drops_second_node :
  exists s,
    innerHTML_scenario [HTag "h1" [] [HText "hi"]; HTag "h2" [] []] []
    = Ok [HTag "div" [("id", AStr "nav")] [HTag "h1" [] [HText "hi"]]] s.
Proof. eexists. vm_compute. reflexivity. Qed.

(** With one top-level node the old children are replaced by it. *)
Example innerHTML_one_node :
  exists s,
    innerHTML_scenario [HTag "h1" [] [HText "hi"]] []
    = Ok [HTag "div" [("id", AStr "nav")] [HTag "h1" [] [HText "hi"]]] s.
Proof. eexists. vm_compute. reflexivity. Qed.

(** Of three top-level nodes the first and the third arrive. *)
Example innerHTML_three_nodes :
  exists s,
    innerHTML_scenario [HTag "a" [] []; HTag "b" [] []; HTag "c" [] []] []
    = Ok [HTag "div" [("id", AStr "nav")] [HTag "a" [] []; HTag "c" [] []]] s.
Proof. eexists. vm_compute. reflexivity. Qed.

(** ** [replaceChild] and the parent links *)

(** C1.  After [replaceChild] the new child is in the parent's
    [contents] but has no parent, and the old child is out of the
    [contents] but still names the parent: the symmetry between parent
    links and child lists is broken. *)
Theorem replaceChild_breaks_symmetry :
  exists p a b s,
    replace_scenario [] = Ok (p, a, b) s /\
    In b (contents_of s p) /\ parent_of s b = None /\
    ~ In a (contents_of s p) /\ parent_of s a = Some p /\
    ~ symmetric s.
Proof.
  exists 1, 2, 3. eexists. split; [vm_compute; reflexivity|].
  repeat split.
  - simpl. auto.
  - simpl. intros [H|[]]. discriminate.
  - intros Hsym. destruct (Hsym 3 1) as [_ H].
    specialize (H (or_introl eq_refl)). discriminate.
Qed.

(** ** Looking a child up in [contents] *)



(** The same on a parsed document: the new [<x>] lands before the first
    [<b>], not before the third child that was given, and replaces the
    first [<b>], not the third child. *)
Example twin_insert :
  exists s,
    twin_insert_scenario []
    = Ok [HTag "div" [("id", AStr "p")]
            [HTag "x" [] []; HTag "b" [] []; HTag "i" [] []; HTag "b" [] []]] s.
Proof. eexists. vm_compute. reflexivity. Qed.

Example twin_replace :
  exists s,
    twin_replace_scenario []
    = Ok [HTag "div" [("id", AStr "p")]
            [HTag "x" [] []; HTag "i" [] []; HTag "b" [] []]] s.
Proof. eexists. vm_compute. reflexivity. Qed.

(** ** [insertBefore] with a reference that is not a child *)

(** The reference [<b>] is a new, detached element and not a child of
    the [<div>], yet [insertBefore] returns and the [<div>] has a new
    first child. *)
Example insertBefore_detached_reference_succeeds :
  exists s,
    detached_reference_scenario []
    = Ok [HTag "div" [("id", AStr "p")]
            [HTag "x" [] []; HTag "b" [] []; HTag "i" [] []]] s.
Proof. eexists. vm_compute. reflexivity. Qed.




(** ** Allocation keeps the objects that exist *)

Lemma preserved_refl s : preserved s s.
Proof. intros x _. reflexivity. Qed.

Lemma preserved_trans s1 s2 s3 :
  length s1 <= length s2 -> preserved s1 s2 -> preserved s2 s3 -> preserved s1 s3.
Proof.
  intros Hlen H12 H23 x Hx. rewrite H23 by lia. apply H12. exact Hx.
Qed.

Lemma preserved_app s ext : preserved s (s ++ ext).
Proof. intros x Hx. apply lookup_app_l. exact Hx. Qed.

Lemma preserved_alter_above s (f : Node -> Node) x :
  length s <= x -> forall s', preserved s s' -> preserved s (alter f x s').
Proof.
  intros Hx s' Hp y Hy. rewrite list_lookup_alter_ne by lia. apply Hp. exact Hy.
Qed.

Lemma preserved_parent s s' x :
  preserved s s' -> x < length s -> parent_of s' x = parent_of s x.
Proof. intros Hp Hx. unfold parent_of. rewrite Hp by exact Hx. reflexivity. Qed.

Lemma preserved_contents s s' x :
  preserved s s' -> x < length s -> contents_of s' x = contents_of s x.
Proof. intros Hp Hx. unfold contents_of. rewrite Hp by exact Hx. reflexivity. Qed.

Lemma html_nested_ind (P : html -> Prop) :
  (forall txt, P (HText txt)) ->
  (forall nm ats cs, Forall P cs -> P (HTag nm ats cs)) ->
  forall h, P h.
Proof.
  intros Htext Htag. fix IH 1. intros [nm ats cs|txt].
  - apply Htag. induction cs as [|c cs IHcs]; constructor.
    + apply IH.
    + exact IHcs.
  - apply Htext.
Qed.

(** Loading a tree allocates at least one object and touches none of the
    existing ones. *)
Lemma load_preserved h : forall p s,
  fst (load p h s) = length s /\
  length s < length (snd (load p h s)) /\
  preserved s (snd (load p h s)).
Proof.
  induction h as [txt|nm ats cs IH] using html_nested_ind; intros p s.
  - simpl. rewrite length_app. simpl.
    split; [reflexivity|split; [lia|apply preserved_app]].
  - cbn [load].
    set (s0 := s ++ [mkNode KTag nm ats [] (Some p) EmptyString]).
    set (load_all := fix load_all (cs0 : list html) (s' : store) {struct cs0} :=
           match cs0 with
           | [] => ([], s')
           | c :: cs' =>
               let '(i, s1) := load (length s) c s' in
               let '(ids, s2) := load_all cs' s1 in (i :: ids, s2)
           end).
    assert (Hall : forall s1, length s1 <= length (snd (load_all cs s1)) /\
                              preserved s1 (snd (load_all cs s1))).
    { clear s0. induction IH as [|c cs Hc _ IHcs]; intros s1.
      - simpl. split; [lia|apply preserved_refl].
      - cbn [load_all].
        destruct (Hc (length s) s1) as (_ & Hlt & Hp1).
        destruct (load (length s) c s1) as [i s2]. simpl in Hlt, Hp1.
        destruct (IHcs s2) as (Hle & Hp2).
        destruct (load_all cs s2) as [ids s3]. simpl in *.
        split; [lia|]. apply (preserved_trans s1 s2 s3); [lia|assumption..]. }
    destruct (Hall s0) as (Hle & Hp).
    destruct (load_all cs s0) as [ids s1]. simpl in *.
    assert (Hs0 : length s0 = S (length s))
      by (unfold s0; rewrite length_app; simpl; lia).
    unfold set_contents. rewrite length_alter.
    split; [reflexivity|split; [lia|]].
    apply preserved_alter_above; [lia|].
    apply (preserved_trans s s0 s1); [lia|apply preserved_app|exact Hp].
Qed.

Lemma load_forest_preserved p forest : forall s,
  length (fst (load_forest p forest s)) = length forest /\
  length s <= length (snd (load_forest p forest s)) /\
  preserved s (snd (load_forest p forest s)).
Proof.
  induction forest as [|h forest IH]; intros s.
  - simpl. split; [reflexivity|split; [lia|apply preserved_refl]].
  - cbn [load_forest].
    destruct (load_preserved h p s) as (_ & Hlt & Hp1).
    destruct (load p h s) as [i s1]. simpl in Hlt, Hp1.
    destruct (IH s1) as (Hlen & Hle & Hp2).
    destruct (load_forest p forest s1) as [ids s2]. simpl in *.
    split; [lia|split; [lia|]].
    apply (preserved_trans s s1 s2); [lia|assumption..].
Qed.


(** ** [insertAdjacentHTML] and [insertAdjacentElement] *)





(** [insertAdjacentHTML] with ["beforebegin"] and an empty text on a
    new element, which has no parent, returns normally. *)
Example insertAdjacentHTML_empty_text_returns :
  exists s,
    adjacent_scenario "beforebegin" [] []
    = Ok [HTag "div" [("id", AStr "p")] []] s.
Proof. eexists. vm_compute. reflexivity. Qed.




(** ** Field updates *)

Lemma length_set_parent x p s : length (set_parent x p s) = length s.
Proof. apply length_alter. Qed.

Lemma length_set_contents x cs s : length (set_contents x cs s) = length s.
Proof. apply length_alter. Qed.

Lemma parent_of_set_parent_eq s x p :
  x < length s -> parent_of (set_parent x p s) x = p.
Proof.
  intros Hx. unfold parent_of, set_parent. rewrite list_lookup_alter_eq.
  destruct (lookup_lt_is_Some_2 s x Hx) as [n ->]. reflexivity.
Qed.

Lemma parent_of_set_parent_ne s x p y :
  y <> x -> parent_of (set_parent x p s) y = parent_of s y.
Proof.
  intros Hne. unfold parent_of, set_parent.
  rewrite list_lookup_alter_ne by congruence. reflexivity.
Qed.

Lemma contents_of_set_parent s x p y :
  contents_of (set_parent x p s) y = contents_of s y.
Proof.
  unfold contents_of, set_parent. destruct (decide (x = y)) as [->|Hne].
  - rewrite list_lookup_alter_eq. destruct (s !! y); reflexivity.
  - rewrite list_lookup_alter_ne by exact Hne. reflexivity.
Qed.

Lemma contents_of_set_contents_eq s x cs :
  x < length s -> contents_of (set_contents x cs s) x = cs.
Proof.
  intros Hx. unfold contents_of, set_contents. rewrite list_lookup_alter_eq.
  destruct (lookup_lt_is_Some_2 s x Hx) as [n ->]. reflexivity.
Qed.

Lemma contents_of_set_contents_ne s x cs y :
  y <> x -> contents_of (set_contents x cs s) y = contents_of s y.
Proof.
  intros Hne. unfold contents_of, set_contents.
  rewrite list_lookup_alter_ne by congruence. reflexivity.
Qed.

Lemma parent_of_set_contents s x cs y :
  parent_of (set_contents x cs s) y = parent_of s y.
Proof.
  unfold parent_of, set_contents. destruct (decide (x = y)) as [->|Hne].
  - rewrite list_lookup_alter_eq. destruct (s !! y); reflexivity.
  - rewrite list_lookup_alter_ne by exact Hne. reflexivity.
Qed.

Lemma label_of_set_parent s x p y : label_of (set_parent x p s) y = label_of s y.
Proof.
  unfold label_of, set_parent. destruct (decide (x = y)) as [->|Hne].
  - rewrite list_lookup_alter_eq. destruct (s !! y); reflexivity.
  - rewrite list_lookup_alter_ne by exact Hne. reflexivity.
Qed.

Lemma label_of_set_contents s x cs y :
  label_of (set_contents x cs s) y = label_of s y.
Proof.
  unfold label_of, set_contents. destruct (decide (x = y)) as [->|Hne].
  - rewrite list_lookup_alter_eq. destruct (s !! y); reflexivity.
  - rewrite list_lookup_alter_ne by exact Hne. reflexivity.
Qed.

Lemma kind_of_label s s' x :
  label_of s' x = label_of s x -> kind_of s' x = kind_of s x.
Proof.
  unfold label_of, kind_of. destruct (s' !! x), (s !! x); congruence.
Qed.


Lemma kind_of_set_parent s x p y : kind_of (set_parent x p s) y = kind_of s y.
Proof.
  unfold kind_of, set_parent. destruct (decide (x = y)) as [->|Hne].
  - rewrite list_lookup_alter_eq. destruct (s !! y); reflexivity.
  - rewrite list_lookup_alter_ne by exact Hne. reflexivity.
Qed.

Lemma parent_in_range s x p : parent_of s x = Some p -> x < length s.
Proof.
  unfold parent_of. destruct (s !! x) eqn:Hx; [|discriminate].
  intros _. eapply lookup_lt_Some. exact Hx.
Qed.

Lemma child_in_range s x c : In c (contents_of s x) -> x < length s.
Proof.
  unfold contents_of. destruct (s !! x) eqn:Hx; [|intros []].
  intros _. eapply lookup_lt_Some. exact Hx.
Qed.

(** ** Identity search *)

Lemma index_Some x l i : index x l = Some i -> l !! i = Some x.
Proof.
  revert i. induction l as [|y l IH]; intros i; simpl; [discriminate|].
  destruct (decide (y = x)) as [->|Hne].
  - intros [= <-]. reflexivity.
  - destruct (index x l) as [j|]; simpl; [|discriminate].
    intros [= <-]. simpl. apply IH. reflexivity.
Qed.

Lemma index_In x l : In x l -> exists i, index x l = Some i.
Proof.
  induction l as [|y l IH]; simpl; [intros []|].
  intros Hin. destruct (decide (y = x)) as [->|Hne]; [eauto|].
  destruct Hin as [Heq|Hin]; [congruence|].
  destruct (IH Hin) as [i ->]. simpl. eauto.
Qed.


(** Deleting the position found by [index] from a list without
    duplicates removes the object from the list. *)
Lemma In_delete_index x l i y :
  NoDup l -> index x l = Some i ->
  (In y (delete i l) <-> y <> x /\ In y l).
Proof.
  intros Hnd. revert i. induction Hnd as [|z l Hz Hnd IH]; intros i; simpl;
    [discriminate|].
  apply list_elem_of_In in Hz || idtac.
  destruct (decide (z = x)) as [->|Hne].
  - intros [= <-]. simpl. split.
    + intros Hy. split; [|auto]. intros ->. apply Hz. apply list_elem_of_In. exact Hy.
    + intros [Hyx [Heq|Hy]]; [congruence|exact Hy].
  - destruct (index x l) as [j|] eqn:Hj; simpl; [|discriminate].
    intros [= <-]. simpl. rewrite (IH j eq_refl). split.
    + intros [<-|[Hyx Hy]]; auto.
    + intros [Hyx [<-|Hy]]; auto.
Qed.

Lemma NoDup_delete (l : list nat) i : NoDup l -> NoDup (delete i l).
Proof.
  intros Hnd. revert i. induction Hnd as [|z l Hz Hnd IH]; intros i.
  - destruct i; constructor.
  - destruct i as [|i]; simpl; [exact Hnd|].
    constructor; [|apply IH].
    intros Hin. apply Hz. apply list_elem_of_In.
    apply list_elem_of_In in Hin.
    clear -Hin. revert i Hin. induction l as [|a l IHl]; intros i Hin.
    + destruct i; destruct Hin.
    + destruct i as [|i]; simpl in Hin; [right; exact Hin|].
      destruct Hin as [->|Hin]; [left; reflexivity|right; eauto].
Qed.

Lemma In_list_insert_at (x y : nat) position l :
  In y (list_insert_at position x l) <-> y = x \/ In y l.
Proof.
  assert (Hl : In y l <-> In y (take position l) \/ In y (drop position l))
    by (rewrite <- in_app_iff, take_drop; reflexivity).
  unfold list_insert_at. rewrite in_app_iff. simpl.
  intuition congruence.
Qed.

Lemma NoDup_list_insert_at (x : nat) position l :
  NoDup l -> ~ In x l -> NoDup (list_insert_at position x l).
Proof.
  intros Hnd Hx. unfold list_insert_at.
  rewrite <- (take_drop position l) in Hnd, Hx.
  apply NoDup_app in Hnd as (Ht & Hdisj & Hd).
  apply NoDup_app. split; [exact Ht|]. split.
  - intros y Hy Hin. apply list_elem_of_In in Hin. destruct Hin as [<-|Hin].
    + apply Hx. apply in_app_iff. left. apply list_elem_of_In. exact Hy.
    + apply (Hdisj y Hy). apply list_elem_of_In. exact Hin.
  - constructor; [|exact Hd].
    intros Hin. apply Hx. apply in_app_iff. right. apply list_elem_of_In. exact Hin.
Qed.

(** ** Ancestors and the two link loops *)

Lemma ancestor_trans s a b c :
  ancestor s a b -> ancestor s b c -> ancestor s a c.
Proof.
  intros Hab Hbc. induction Hbc as [c p Hp|c p b Hp Hbp IH].
  - eapply ancestor_step; eauto.
  - eapply ancestor_step; eauto.
Qed.

Lemma downchain_ancestor s x l :
  downchain s (x :: l) -> forall y, In y l -> ancestor s x y.
Proof.
  revert x. induction l as [|z l IH]; intros x Hc y Hy; [destruct Hy|].
  inversion Hc as [|? ? ? Hp Hc']; subst.
  destruct Hy as [<-|Hy].
  - apply ancestor_parent. exact Hp.
  - eapply ancestor_trans; [apply ancestor_parent; exact Hp|].
    apply IH; assumption.
Qed.

Lemma downchain_NoDup s l : acyclic s -> downchain s l -> NoDup l.
Proof.
  intros Hac Hc. induction Hc as [x|x y l Hp Hc IH].
  - constructor; [intros H; inversion H|constructor].
  - constructor; [|exact IH].
    intros Hin. apply list_elem_of_In in Hin.
    apply (Hac x). eapply downchain_ancestor; [|exact Hin].
    constructor; assumption.
Qed.

Lemma downchain_tail_in_range s x l :
  downchain s (x :: l) -> Forall (fun y => y < length s) l.
Proof.
  revert x. induction l as [|y l IH]; intros x Hc; [constructor|].
  inversion Hc as [|? ? ? Hp Hc']; subst.
  constructor; [eapply parent_in_range; eauto|eauto].
Qed.

(** In a heap without cycles a chain has at most one object more than
    the heap. *)
Lemma downchain_bound s x l :
  acyclic s -> downchain s (x :: l) -> length l <= length s.
Proof.
  intros Hac Hc.
  assert (Hnd : NoDup l).
  { apply (downchain_NoDup s) in Hc; [|exact Hac].
    apply NoDup_cons in Hc. apply Hc. }
  pose proof (downchain_tail_in_range s x l Hc) as Hrange.
  assert (Hle : length l <= length (seq 0 (length s))).
  { apply NoDup_incl_length; [apply NoDup_ListNoDup; exact Hnd|].
    intros y Hy. apply in_seq. rewrite Forall_forall in Hrange.
    apply list_elem_of_In in Hy. specialize (Hrange y Hy). lia. }
  rewrite length_seq in Hle. exact Hle.
Qed.

Lemma downchain_snoc s l a b :
  downchain s (l ++ [a]) -> parent_of s b = Some a ->
  downchain s ((l ++ [a]) ++ [b]).
Proof.
  intros Hc Hp. induction l as [|x l IH]; simpl in *.
  - constructor; [exact Hp|constructor].
  - destruct l as [|z l]; simpl in *.
    + inversion Hc; subst. constructor; [assumption|].
      constructor; [exact Hp|constructor].
    + inversion Hc; subst. constructor; [assumption|].
      apply IH. assumption.
Qed.

Lemma last_In {A} (l : list A) x : last l = Some x -> In x l.
Proof.
  intros H. apply last_Some in H as [l' ->]. apply in_app_iff. right. left. reflexivity.
Qed.

(** When the downward loop does not end within [fuel] steps, it has
    walked a chain of [fuel] objects below its start. *)
Lemma last_descendant_None fuel : forall s x,
  children_linked s ->
  last_descendant fuel s x = None ->
  exists l, length l = fuel /\ downchain s (x :: l).
Proof.
  induction fuel as [|f IH]; intros s x Hlink Hnone; simpl in Hnone.
  - exists []. split; [reflexivity|constructor].
  - destruct (last (contents_of s x)) as [c|] eqn:Hlast; [|discriminate].
    destruct (IH s c Hlink Hnone) as (l & Hlen & Hc).
    exists (c :: l). split; [simpl; lia|].
    constructor; [|exact Hc].
    apply Hlink. apply last_In. exact Hlast.
Qed.

Lemma last_descendant_ends s x :
  acyclic s -> children_linked s ->
  last_descendant (fuel_of s) s x <> None.
Proof.
  intros Hac Hlink Hnone.
  destruct (last_descendant_None _ _ _ Hlink Hnone) as (l & Hlen & Hc).
  pose proof (downchain_bound s x l Hac Hc). unfold fuel_of in Hlen. lia.
Qed.

(** The same for the upward loop. *)
Lemma next_in_document_None fuel : forall s q,
  next_in_document fuel s (Some q) = None ->
  exists l, length l = fuel /\ downchain s (l ++ [q]).
Proof.
  induction fuel as [|f IH]; intros s q Hnone; simpl in Hnone.
  - exists []. split; [reflexivity|constructor].
  - destruct (next_sibling s q); [discriminate|].
    destruct (parent_of s q) as [p|] eqn:Hp; [|destruct f; discriminate].
    destruct (IH s p Hnone) as (l & Hlen & Hc).
    exists (l ++ [p]). split; [rewrite length_app; simpl; lia|].
    apply downchain_snoc; assumption.
Qed.

Lemma next_in_document_ends s p :
  acyclic s -> next_in_document (fuel_of s) s p <> None.
Proof.
  intros Hac Hnone. destruct p as [q|]; [|discriminate].
  destruct (next_in_document_None _ _ _ Hnone) as (l & Hlen & Hc).
  unfold fuel_of in Hlen.
  destruct l as [|x l]; [discriminate|].
  simpl in Hc. pose proof (downchain_bound s x (l ++ [q]) Hac Hc) as Hb.
  rewrite length_app in Hb. simpl in Hlen, Hb. lia.
Qed.

Lemma walk_ends {A} (r : option A) s : r <> None -> walk r s = Ok tt s.
Proof. destruct r; [reflexivity|congruence]. Qed.

(** Giving [n] the parent [t] makes no cycle unless [n] is [t] or above
    [t]. *)
Lemma ancestor_reparented s s' n t :
  (forall x, x <> n -> parent_of s' x = parent_of s x) ->
  parent_of s' n = Some t ->
  n <> t -> ~ ancestor s n t ->
  forall a b, ancestor s' a b ->
    ancestor s a b \/
    ((b = n \/ ancestor s n b) /\ (a = t \/ ancestor s a t)).
Proof.
  intros Hother Hn Hnt Hnot a b Hab.
  induction Hab as [b p Hp|b p a Hp Hap IH].
  - destruct (decide (b = n)) as [->|Hb].
    + right. rewrite Hn in Hp. injection Hp as <-. auto.
    + left. apply ancestor_parent. rewrite <- Hother by exact Hb. exact Hp.
  - destruct (decide (b = n)) as [->|Hb].
    + rewrite Hn in Hp. injection Hp as <-.
      destruct IH as [IH|[[Ht|Ht] _]]; [right; auto|congruence|contradiction].
    + rewrite Hother in Hp by exact Hb.
      destruct IH as [IH|[[->|Hnp] Hat]].
      * left. eapply ancestor_step; eauto.
      * right. split; [right; apply ancestor_parent; exact Hp|exact Hat].
      * right. split; [right; eapply ancestor_step; eauto|exact Hat].
Qed.

Lemma acyclic_reparented s s' n t :
  acyclic s ->
  (forall x, x <> n -> parent_of s' x = parent_of s x) ->
  parent_of s' n = Some t ->
  n <> t -> ~ ancestor s n t ->
  acyclic s'.
Proof.
  intros Hac Hother Hn Hnt Hnot x Hxx.
  destruct (ancestor_reparented s s' n t Hother Hn Hnt Hnot x x Hxx)
    as [H|[[->|Hnx] [->|Hxt]]].
  - exact (Hac x H).
  - congruence.
  - contradiction.
  - contradiction.
  - apply Hnot. eapply ancestor_trans; eauto.
Qed.

(** Clearing a parent link makes no cycle. *)
Lemma acyclic_detached s s' n :
  acyclic s ->
  (forall x, x <> n -> parent_of s' x = parent_of s x) ->
  parent_of s' n = None ->
  acyclic s'.
Proof.
  intros Hac Hother Hn.
  assert (Hsub : forall a b, ancestor s' a b -> ancestor s a b).
  { intros a b Hab. induction Hab as [b p Hp|b p a Hp Hap IH].
    - destruct (decide (b = n)) as [->|Hb]; [congruence|].
      apply ancestor_parent. rewrite <- Hother by exact Hb. exact Hp.
    - destruct (decide (b = n)) as [->|Hb]; [congruence|].
      eapply ancestor_step; [|exact IH]. rewrite <- Hother by exact Hb. exact Hp. }
  intros x Hxx. exact (Hac x (Hsub x x Hxx)).
Qed.

(** ** [extract] and [insert] on a well-formed heap *)

Lemma In_without n l y : In y (without n l) <-> y <> n /\ In y l.
Proof.
  unfold without. rewrite filter_In, negb_true_iff, Nat.eqb_neq. tauto.
Qed.

Lemma without_absent n l : ~ In n l -> without n l = l.
Proof.
  induction l as [|y l IH]; intros Hn; simpl; [reflexivity|].
  destruct (Nat.eqb_spec y n) as [->|Hne]; simpl.
  - exfalso. apply Hn. left. reflexivity.
  - rewrite IH; [reflexivity|]. intros H. apply Hn. right. exact H.
Qed.

Lemma delete_index_without n l i :
  NoDup l -> index n l = Some i -> delete i l = without n l.
Proof.
  intros Hnd. revert i. induction Hnd as [|y l Hy Hnd IH]; intros i; simpl;
    [discriminate|].
  destruct (decide (y = n)) as [->|Hne].
  - intros [= <-]. simpl. rewrite Nat.eqb_refl. simpl.
    symmetry. apply without_absent. intros H. apply Hy.
    apply list_elem_of_In. exact H.
  - destruct (index n l) as [j|]; simpl; [|discriminate].
    intros [= <-]. simpl.
    destruct (Nat.eqb_spec y n); [congruence|]. simpl.
    rewrite (IH j eq_refl). reflexivity.
Qed.

Lemma NoDup_without n l : NoDup l -> NoDup (without n l).
Proof.
  intros Hnd. induction Hnd as [|y l Hy Hnd IH]; simpl; [constructor|].
  destruct (Nat.eqb y n); simpl; [exact IH|].
  constructor; [|exact IH].
  intros H. apply Hy. apply list_elem_of_In. apply list_elem_of_In in H.
  apply In_without in H. tauto.
Qed.

Lemma acyclic_same_parents s s' :
  (forall x, parent_of s' x = parent_of s x) -> acyclic s -> acyclic s'.
Proof.
  intros Hsame Hac.
  assert (Hsub : forall a b, ancestor s' a b -> ancestor s a b).
  { intros a b Hab. induction Hab as [b p Hp|b p a Hp Hap IH].
    - apply ancestor_parent. rewrite <- Hsame. exact Hp.
    - eapply ancestor_step; [|exact IH]. rewrite <- Hsame. exact Hp. }
  intros x Hxx. exact (Hac x (Hsub x x Hxx)).
Qed.

Lemma kind_of_set_contents s x cs y :
  kind_of (set_contents x cs s) y = kind_of s y.
Proof.
  unfold kind_of, set_contents. destruct (decide (x = y)) as [->|Hne].
  - rewrite list_lookup_alter_eq. destruct (s !! y); reflexivity.
  - rewrite list_lookup_alter_ne by exact Hne. reflexivity.
Qed.

Lemma symmetric_children_linked s : symmetric s -> children_linked s.
Proof. intros Hsym x c Hc. apply Hsym. exact Hc. Qed.

Lemma parent_of_set_parent_None s n x :
  parent_of (set_parent n None s) x
  = if decide (x = n) then None else parent_of s x.
Proof.
  destruct (decide (x = n)) as [->|Hne].
  - unfold parent_of, set_parent. rewrite list_lookup_alter_eq.
    destruct (s !! n); reflexivity.
  - apply parent_of_set_parent_ne. exact Hne.
Qed.

Lemma bind_Ok {A B} (m : M A) (k : A -> M B) s a s1 :
  m s = Ok a s1 -> bind m k s = k a s1.
Proof. intros H. unfold bind. rewrite H. reflexivity. Qed.

Lemma extract_spec s n :
  well_formed s ->
  exists s', extract n s = Ok tt s' /\ extracted n s s'.
Proof.
  intros (Hsym & Hnd & Hac).
  unfold extract. rewrite (bind_Ok get_store _ s s s) by reflexivity.
  destruct (parent_of s n) as [p|] eqn:Hp.
  - assert (Hin : In n (contents_of s p)) by (apply Hsym; exact Hp).
    destruct (index_In _ _ Hin) as [i Hi]. rewrite Hi.
    set (sa := set_contents p (delete i (contents_of s p)) s).
    rewrite (bind_Ok _ _ s tt sa) by reflexivity.
    assert (Hpa : forall x, parent_of sa x = parent_of s x)
      by (intros x; apply parent_of_set_contents).
    assert (Hca : forall x, contents_of sa x = without n (contents_of s x)).
    { intros x. unfold sa. destruct (decide (x = p)) as [->|Hne].
      - rewrite contents_of_set_contents_eq by (eapply child_in_range; eauto).
        apply delete_index_without; [apply Hnd|exact Hi].
      - rewrite contents_of_set_contents_ne by exact Hne.
        symmetry. apply without_absent. intros Hx.
        apply Hsym in Hx. congruence. }
    rewrite (bind_Ok _ _ sa tt sa).
    2:{ destruct (next_sibling s n); [reflexivity|].
        rewrite (bind_Ok get_store _ sa sa sa) by reflexivity.
        apply walk_ends. apply last_descendant_ends.
        - apply (acyclic_same_parents s); assumption.
        - intros x c Hc. rewrite Hca in Hc. apply In_without in Hc as [_ Hc].
          rewrite Hpa. apply Hsym. exact Hc. }
    eexists. split; [reflexivity|].
    split; [rewrite length_set_parent; apply length_set_contents|].
    split; [|split].
    + intros x. rewrite parent_of_set_parent_None, Hpa. reflexivity.
    + intros x. rewrite contents_of_set_parent. apply Hca.
    + intros x. rewrite label_of_set_parent. apply label_of_set_contents.
  - rewrite (bind_Ok _ _ s tt s) by reflexivity.
    rewrite (bind_Ok _ _ s tt s).
    2:{ unfold next_sibling. rewrite Hp.
        rewrite (bind_Ok get_store _ s s s) by reflexivity.
        apply walk_ends. apply last_descendant_ends;
          [exact Hac|apply symmetric_children_linked; exact Hsym]. }
    eexists. split; [reflexivity|].
    split; [apply length_set_parent|].
    split; [|split].
    + intros x. apply parent_of_set_parent_None.
    + intros x. rewrite contents_of_set_parent.
      symmetry. apply without_absent. intros Hx. apply Hsym in Hx. congruence.
    + intros x. apply label_of_set_parent.
Qed.

Lemma index_absent x l : ~ In x l -> index x l = None.
Proof.
  intros Hx. destruct (index x l) as [i|] eqn:Hi; [|reflexivity].
  exfalso. apply Hx. apply index_Some in Hi.
  apply list_elem_of_In. eapply list_elem_of_lookup_2. exact Hi.
Qed.

Lemma extracted_detached s n :
  symmetric s -> parent_of s n = None -> extracted n s s.
Proof.
  intros Hsym Hp. split; [reflexivity|]. split; [|split].
  - intros x. destruct (decide (x = n)) as [->|]; [exact Hp|reflexivity].
  - intros x. symmetry. apply without_absent. intros Hx.
    apply Hsym in Hx. congruence.
  - reflexivity.
Qed.

Lemma insert_one_spec s t position n :
  well_formed s -> n <> t -> ~ ancestor s n t ->
  t < length s -> n < length s ->
  exists s',
    insert_one t position n s = Ok tt s' /\
    moved n t (landing s t position n) s s'.
Proof.
  intros Hwf Hnt Hnot Ht Hn. pose proof Hwf as (Hsym & Hnd & Hac).
  unfold insert_one. destruct (decide (n = t)) as [|_]; [contradiction|].
  rewrite (bind_Ok get_store _ s s s) by reflexivity.
  set (m := min position (length (contents_of s t))).
  assert (Hphase1 : exists se,
    match parent_of s n with
    | Some p =>
        position0 <-
          (if decide (p = t)
           then match index n (contents_of s t) with
                | Some current_index =>
                    ret (if current_index <? m then m - 1 else m)
                | None => raise ValueError
                end
           else ret m) ;;
        extract n ;;; ret position0
    | None => ret m
    end s = Ok (landing s t position n) se /\ extracted n s se).
  { destruct (parent_of s n) as [p|] eqn:Hp.
    - destruct (extract_spec s n Hwf) as (se & Hex & Hse).
      exists se. split; [|exact Hse].
      destruct (decide (p = t)) as [->|Hpt].
      + assert (Hin : In n (contents_of s t)) by (apply Hsym; exact Hp).
        destruct (index_In _ _ Hin) as [ci Hci].
        unfold landing. fold m. rewrite Hci.
        rewrite (bind_Ok _ _ s (if ci <? m then m - 1 else m) s) by reflexivity.
        rewrite (bind_Ok _ _ s tt se) by exact Hex. reflexivity.
      + assert (Hout : ~ In n (contents_of s t))
          by (intros Hin; apply Hsym in Hin; congruence).
        unfold landing. fold m. rewrite (index_absent _ _ Hout).
        rewrite (bind_Ok _ _ s m s) by reflexivity.
        rewrite (bind_Ok _ _ s tt se) by exact Hex. reflexivity.
    - exists s. split; [|apply extracted_detached; assumption].
      assert (Hout : ~ In n (contents_of s t))
        by (intros Hin; apply Hsym in Hin; congruence).
      unfold landing. fold m. rewrite (index_absent _ _ Hout). reflexivity. }
  destruct Hphase1 as (se & Hphase1 & Hlen & Hpe & Hce & Hke).
  rewrite (bind_Ok _ _ s (landing s t position n) se) by exact Hphase1.
  set (k := landing s t position n).
  set (s1 := set_parent n (Some t) se).
  rewrite (bind_Ok _ _ se tt s1) by reflexivity.
  rewrite (bind_Ok get_store _ s1 s1 s1) by reflexivity.
  assert (Hp1 : forall x, x <> n -> parent_of s1 x = parent_of s x).
  { intros x Hx. unfold s1. rewrite parent_of_set_parent_ne by exact Hx.
    rewrite Hpe. destruct (decide (x = n)); [contradiction|reflexivity]. }
  assert (Hp1n : parent_of s1 n = Some t)
    by (apply parent_of_set_parent_eq; lia).
  assert (Hc1 : forall x, contents_of s1 x = without n (contents_of s x))
    by (intros x; unfold s1; rewrite contents_of_set_parent; apply Hce).
  assert (Hac1 : acyclic s1)
    by (apply (acyclic_reparented s s1 n t); assumption).
  assert (Hlink1 : children_linked s1).
  { intros x c Hc. rewrite Hc1 in Hc. apply In_without in Hc as [Hcn Hc].
    rewrite Hp1 by exact Hcn. apply Hsym. exact Hc. }
  rewrite (bind_Ok _ _ s1 tt s1).
  2:{ destruct k as [|i]; [reflexivity|].
      destruct (contents_of s1 t !! i); [|reflexivity].
      apply walk_ends. apply last_descendant_ends; assumption. }
  rewrite (bind_Ok _ _ s1 tt s1)
    by (apply walk_ends; apply last_descendant_ends; assumption).
  rewrite (bind_Ok _ _ s1 tt s1).
  2:{ destruct (length (contents_of s1 t) <=? k); [|reflexivity].
      apply walk_ends. apply next_in_document_ends. exact Hac1. }
  eexists. split; [reflexivity|].
  assert (Hlen1 : length s1 = length s)
    by (unfold s1; rewrite length_set_parent; exact Hlen).
  split; [rewrite length_set_contents; exact Hlen1|].
  split; [|split].
  - intros x. rewrite parent_of_set_contents.
    destruct (decide (x = n)) as [->|Hx]; [exact Hp1n|apply Hp1; exact Hx].
  - intros x. destruct (decide (x = t)) as [->|Hx].
    + rewrite contents_of_set_contents_eq by lia. rewrite Hc1. reflexivity.
    + rewrite contents_of_set_contents_ne by exact Hx. apply Hc1.
  - intros x. rewrite label_of_set_contents. unfold s1.
    rewrite label_of_set_parent. apply Hke.
Qed.

(** A move that does not put an object below itself keeps the heap
    well-formed. *)
Lemma moved_well_formed s s' n t k :
  well_formed s -> n <> t -> ~ ancestor s n t ->
  moved n t k s s' -> well_formed s'.
Proof.
  intros (Hsym & Hnd & Hac) Hnt Hnot (Hlen & Hp & Hc & _).
  split; [|split].
  - intros x p. rewrite Hp, Hc.
    destruct (decide (x = n)) as [->|Hx]; destruct (decide (p = t)) as [->|Hpt].
    + rewrite In_list_insert_at. split; auto.
    + rewrite In_without. split; [congruence|tauto].
    + rewrite In_list_insert_at, In_without, (Hsym x t). split; [tauto|].
      intros [?|[_ ?]]; [contradiction|assumption].
    + rewrite In_without, (Hsym x p). tauto.
  - intros p. rewrite Hc. destruct (decide (p = t)) as [->|Hpt].
    + apply NoDup_list_insert_at; [apply NoDup_without, Hnd|].
      rewrite In_without. tauto.
    + apply NoDup_without, Hnd.
  - apply (acyclic_reparented s s' n t); try assumption.
    + intros x Hx. rewrite Hp. destruct (decide (x = n)); [contradiction|reflexivity].
    + rewrite Hp. destruct (decide (n = n)); [reflexivity|contradiction].
Qed.

(** ** Checking a heap *)

Lemma symmetricb_sound s : symmetricb s = true -> symmetric s.
Proof.
  unfold symmetricb. rewrite andb_true_iff, !forallb_forall.
  intros [Hup Hdown] n p. split.
  - intros Hp. specialize (Hup n). rewrite Hp in Hup.
    assert (Hn : In n (seq 0 (length s)))
      by (apply in_seq; pose proof (parent_in_range s n p Hp); lia).
    apply Hup in Hn. apply existsb_exists in Hn as (c & Hc & Heq).
    apply Nat.eqb_eq in Heq. subst c. exact Hc.
  - intros Hin.
    assert (Hp : In p (seq 0 (length s)))
      by (apply in_seq; pose proof (child_in_range s p n Hin); lia).
    specialize (Hdown p Hp). rewrite forallb_forall in Hdown.
    specialize (Hdown n Hin). destruct (parent_of s n) as [q|]; [|discriminate].
    apply Nat.eqb_eq in Hdown. congruence.
Qed.

Lemma no_duplicatesb_sound s : no_duplicatesb s = true -> no_duplicates s.
Proof.
  unfold no_duplicatesb. rewrite forallb_forall. intros H p.
  destruct (le_lt_dec (length s) p) as [Hge|Hlt].
  - unfold contents_of. rewrite lookup_ge_None_2 by exact Hge. constructor.
  - eapply bool_decide_eq_true_1. apply H. apply in_seq. lia.
Qed.

Lemma climbs_ancestor s : forall fuel x a,
  climbs fuel s x = true -> ancestor s a x ->
  exists fuel', fuel' < fuel /\ climbs fuel' s a = true.
Proof.
  intros fuel x a Hclimb Hanc. revert fuel Hclimb.
  induction Hanc as [x p Hp|x p a Hp Hanc IH]; intros fuel Hclimb.
  - destruct fuel as [|f]; [discriminate|]. simpl in Hclimb. rewrite Hp in Hclimb.
    exists f. split; [lia|exact Hclimb].
  - destruct fuel as [|f]; [discriminate|]. simpl in Hclimb. rewrite Hp in Hclimb.
    destruct (IH f Hclimb) as (f' & Hlt & Hf'). exists f'. split; [lia|exact Hf'].
Qed.

Lemma climbs_not_own_ancestor s fuel : forall x,
  climbs fuel s x = true -> ~ ancestor s x x.
Proof.
  induction fuel as [fuel IH] using lt_wf_ind. intros x Hclimb Hanc.
  destruct (climbs_ancestor s fuel x x Hclimb Hanc) as (f' & Hlt & Hf').
  exact (IH f' Hlt x Hf' Hanc).
Qed.

Lemma acyclicb_sound s : acyclicb s = true -> acyclic s.
Proof.
  unfold acyclicb. rewrite forallb_forall. intros H x Hanc.
  assert (Hx : x < length s).
  { inversion Hanc; subst; eapply parent_in_range; eauto. }
  apply (climbs_not_own_ancestor s (S (length s)) x); [|exact Hanc].
  apply H. apply in_seq. lia.
Qed.

Lemma well_formedb_sound s : well_formedb s = true -> well_formed s.
Proof.
  unfold well_formedb. rewrite !andb_true_iff. intros [[H1 H2] H3].
  split; [|split];
    auto using symmetricb_sound, no_duplicatesb_sound, acyclicb_sound.
Qed.



(** ** Positions of [insert] *)

Lemma index_lt x l i : index x l = Some i -> i < length l.
Proof. intros H. apply index_Some in H. eapply lookup_lt_Some. exact H. Qed.

Lemma list_insert_at_end {A} (x : A) l : list_insert_at (length l) x l = l ++ [x].
Proof.
  unfold list_insert_at. rewrite take_ge, drop_ge by lia. reflexivity.
Qed.



Lemma insert_tag s t position n :
  n <> t -> kind_of s n <> KSoup ->
  insert t position n s = insert_one t position n s.
Proof.
  intros Hnt Hk. unfold insert. destruct (decide (n = t)); [contradiction|].
  rewrite (bind_Ok get_store _ s s s) by reflexivity.
  destruct (kind_of s n); [contradiction|reflexivity..].
Qed.

(** ** The listener tables *)

Lemma dict_get_set_eq {V} k (v : V) d : dict_get k (dict_set k v d) = Some v.
Proof.
  induction d as [|[k' v'] d IH]; simpl.
  - rewrite String.eqb_refl. reflexivity.
  - destruct (String.eqb k' k) eqn:Hk; simpl.
    + rewrite String.eqb_refl. reflexivity.
    + rewrite Hk. exact IH.
Qed.

Lemma dict_get_set_ne {V} k k0 (v : V) d :
  k0 <> k -> dict_get k0 (dict_set k v d) = dict_get k0 d.
Proof.
  intros Hne. induction d as [|[k' v'] d IH]; simpl.
  - destruct (String.eqb_spec k k0); [congruence|reflexivity].
  - destruct (String.eqb_spec k' k) as [->|Hk]; simpl.
    + destruct (String.eqb_spec k k0); [congruence|reflexivity].
    + destruct (String.eqb k' k0); [reflexivity|exact IH].
Qed.

Section EventProperties.

Variable Args : Type.

Implicit Types w : World Args.

Lemma listeners_ref_bind_new_list w h event l h' event' :
  listeners_ref (bind_new_list h event l w) h' event'
  = if decide (h' = h /\ event' = event /\ h < length (elems w))
    then Some (length (lists w))
    else listeners_ref w h' event'.
Proof.
  unfold listeners_ref, bind_new_list. simpl.
  destruct (decide (h' = h)) as [->|Hh].
  - rewrite list_lookup_alter_eq.
    destruct (elems w !! h) as [e|] eqn:He; simpl.
    + pose proof (lookup_lt_Some _ _ _ He) as Hlt.
      destruct (decide (event' = event)) as [->|He'].
      * rewrite dict_get_set_eq.
        destruct (decide (h = h /\ event = event /\ h < length (elems w)));
          [reflexivity|tauto].
      * rewrite dict_get_set_ne by exact He'.
        destruct (decide (h = h /\ event' = event /\ h < length (elems w)));
          [tauto|reflexivity].
    + apply lookup_ge_None_1 in He.
      destruct (decide (h = h /\ event' = event /\ h < length (elems w)));
        [lia|reflexivity].
  - rewrite list_lookup_alter_ne by congruence.
    destruct (decide (h' = h /\ event' = event /\ h < length (elems w)));
      [tauto|reflexivity].
Qed.

Lemma sound_bind_new_list w h event l :
  sound_world w -> sound_world (bind_new_list h event l w).
Proof.
  intros [Hb Hs]. split.
  - intros h' e' l'. rewrite listeners_ref_bind_new_list.
    simpl. rewrite length_app. simpl.
    destruct (decide _); [intros [= <-]; lia|].
    intros H. apply Hb in H. lia.
  - intros h1 e1 h2 e2 l'. rewrite !listeners_ref_bind_new_list.
    destruct (decide (h1 = h /\ _)) as [(-> & -> & _)|_];
      destruct (decide (h2 = h /\ _)) as [(-> & -> & _)|_].
    + auto.
    + intros [= <-] H. apply Hb in H. lia.
    + intros H [= <-]. apply Hb in H. lia.
    + apply Hs.
Qed.

Lemma listeners_ref_same_elems (w w' : World Args) h event :
  elems w' = elems w -> listeners_ref w' h event = listeners_ref w h event.
Proof. intros H. unfold listeners_ref. rewrite H. reflexivity. Qed.

Lemma sound_addEventListener w h event callback :
  sound_world w -> sound_world (addEventListener h event callback w).
Proof.
  intros Hw. unfold addEventListener.
  set (w1 := match listeners_ref w h event with
             | Some _ => w
             | None => bind_new_list h event [] w
             end).
  assert (Hw1 : sound_world w1)
    by (unfold w1; destruct (listeners_ref w h event);
        [exact Hw|apply sound_bind_new_list; exact Hw]).
  destruct (listeners_ref w1 h event) as [l|]; [|exact Hw1].
  destruct Hw1 as [Hb Hs]. split.
  - intros h' e' l'. rewrite (listeners_ref_same_elems w1) by reflexivity.
    simpl. rewrite length_alter. apply Hb.
  - intros h1 e1 h2 e2 l'.
    rewrite !(listeners_ref_same_elems w1) by reflexivity. apply Hs.
Qed.

Lemma sound_removeEventListener w h event callback :
  sound_world w -> sound_world (removeEventListener h event callback w).
Proof.
  intros Hw. unfold removeEventListener.
  destruct (listeners_ref w h event) as [l|]; [|exact Hw].
  destruct (lists w !! l); [|exact Hw].
  apply sound_bind_new_list. exact Hw.
Qed.

Lemma iterating_bind_new_list l cbs h event w h' event' l' :
  iterating l cbs h event w ->
  iterating l cbs h event (bind_new_list h' event' l' w).
Proof.
  intros [Hl Hown].
  pose proof (lookup_lt_Some _ _ _ Hl) as Hlt. split.
  - simpl. rewrite lookup_app_l by exact Hlt. exact Hl.
  - intros h0 e0. rewrite listeners_ref_bind_new_list.
    destruct (decide _); [intros [= <-]; lia|apply Hown].
Qed.

Lemma iterating_run_action l cbs h event a w :
  ~ adds_to h event a ->
  iterating l cbs h event w ->
  iterating l cbs h event (run_action a w) /\
  calls (run_action a w) = calls w.
Proof.
  intros Hquiet Hit. destruct a as [h' event' cb|h' event' cb]; simpl in *.
  - unfold addEventListener.
    set (w1 := match listeners_ref w h' event' with
               | Some _ => w
               | None => bind_new_list h' event' [] w
               end).
    assert (Hit1 : iterating l cbs h event w1)
      by (unfold w1; destruct (listeners_ref w h' event');
          [exact Hit|apply iterating_bind_new_list; exact Hit]).
    assert (Hcalls1 : calls w1 = calls w)
      by (unfold w1; destruct (listeners_ref w h' event'); reflexivity).
    destruct (listeners_ref w1 h' event') as [l'|] eqn:Hl'; [|auto].
    simpl. split; [|exact Hcalls1].
    destruct Hit1 as [Hl Hown]. split.
    + simpl. rewrite list_lookup_alter_ne; [exact Hl|].
      intros <-. apply Hown in Hl'. tauto.
    + intros h0 e0. rewrite (listeners_ref_same_elems w1) by reflexivity.
      apply Hown.
  - unfold removeEventListener.
    destruct (listeners_ref w h' event') as [l'|]; [|auto].
    destruct (lists w !! l'); [|auto].
    split; [apply iterating_bind_new_list; exact Hit|reflexivity].
Qed.

Lemma iterating_run_actions l cbs h event acts : forall w,
  (forall a, In a acts -> ~ adds_to h event a) ->
  iterating l cbs h event w ->
  iterating l cbs h event (fold_left (fun w a => run_action a w) acts w) /\
  calls (fold_left (fun w a => run_action a w) acts w) = calls w.
Proof.
  induction acts as [|a acts IH]; intros w Hquiet Hit; simpl; [auto|].
  destruct (iterating_run_action l cbs h event a w) as [Hit1 Hcalls1];
    [apply Hquiet; left; reflexivity|exact Hit|].
  destruct (IH (run_action a w)) as [Hit2 Hcalls2];
    [intros a' Ha'; apply Hquiet; right; exact Ha'|exact Hit1|].
  split; [exact Hit2|congruence].
Qed.

Section Dispatching.

(** The body of each callable. *)
Variable body : nat -> list action.

Lemma iterating_call l cbs h event callback args w :
  quiet body h event callback ->
  iterating l cbs h event w ->
  iterating l cbs h event (call body callback args w) /\
  calls (call body callback args w) = calls w ++ [(callback, args)].
Proof.
  intros Hquiet Hit. unfold call.
  apply (iterating_run_actions l cbs h event (body callback)
           (mkWorld (elems w) (lists w) (calls w ++ [(callback, args)]))).
  - exact Hquiet.
  - exact Hit.
Qed.

(** The loop over a list object that no callable lengthens calls the
    callables from index [i] on, in order, and ends. *)
Lemma dispatch_quiet l cbs h event args : forall fuel i w,
  iterating l cbs h event w ->
  (forall cb, In cb (drop i cbs) -> quiet body h event cb) ->
  length cbs - i < fuel ->
  exists w',
    dispatch body fuel l i args w = Some w' /\
    calls w' = calls w ++ map (fun cb => (cb, args)) (drop i cbs).
Proof.
  induction fuel as [|f IH]; intros i w Hit Hquiet Hfuel; [lia|].
  simpl. destruct Hit as [Hl Hown]. rewrite Hl.
  destruct (cbs !! i) as [cb|] eqn:Hcb.
  - pose proof (lookup_lt_Some _ _ _ Hcb) as Hlt.
    rewrite (drop_S _ _ _ Hcb) in Hquiet |- *.
    destruct (iterating_call l cbs h event cb args w) as [Hit' Hcalls'];
      [apply Hquiet; left; reflexivity|split; assumption|].
    destruct (IH (S i) (call body cb args w) Hit') as (w' & Hrun & Hcalls).
    + intros cb' Hcb'. apply Hquiet. right. exact Hcb'.
    + lia.
    + exists w'. split; [exact Hrun|].
      rewrite Hcalls, Hcalls'. simpl. rewrite <- app_assoc. reflexivity.
  - apply lookup_ge_None_1 in Hcb. rewrite drop_ge by exact Hcb.
    exists w. split; [reflexivity|]. simpl. rewrite app_nil_r. reflexivity.
Qed.

Lemma triggerEvent_quiet w h event args fuel :
  sound_world w ->
  (forall cb, In cb (registered w h event) -> quiet body h event cb) ->
  length (registered w h event) < fuel ->
  exists w',
    triggerEvent body fuel h event args w = Some w' /\
    calls w' = calls w ++ map (fun cb => (cb, args)) (registered w h event).
Proof.
  intros [Hb Hs] Hquiet Hfuel.
  unfold triggerEvent, registered in *.
  destruct (listeners_ref w h event) as [l|] eqn:Hl.
  - destruct (lists w !! l) as [cbs|] eqn:Hcbs; simpl in *.
    + destruct (dispatch_quiet l cbs h event args fuel 0 w) as (w' & Hrun & Hcalls).
      * split; [exact Hcbs|]. intros h' e' H'. apply (Hs h' e' h event l H' Hl).
      * exact Hquiet.
      * lia.
      * exists w'. split; assumption.
    + exists w. destruct fuel; [lia|]. simpl. rewrite Hcbs.
      split; [reflexivity|]. rewrite app_nil_r. reflexivity.
  - exists w. split; [reflexivity|]. simpl. rewrite app_nil_r. reflexivity.
Qed.

End Dispatching.

End EventProperties.

Lemma sound_empty_world {Args} : sound_world (@mkWorld Args [] [] []).
Proof. split; intros *; discriminate. Qed.

Lemma listeners_ref_new_object {Args} (w : World Args) e h event :
  _events e = [] ->
  listeners_ref (snd (new_object e w)) h event = listeners_ref w h event.
Proof.
  intros He. unfold listeners_ref. simpl.
  destruct (le_lt_dec (length (elems w)) h) as [Hge|Hlt].
  - rewrite (lookup_ge_None_2 (elems w)) by exact Hge.
    destruct (decide (h = length (elems w))) as [->|Hne].
    + rewrite list_lookup_middle by reflexivity. rewrite He. reflexivity.
    + rewrite lookup_ge_None_2; [reflexivity|].
      rewrite length_app. simpl. lia.
  - rewrite lookup_app_l by exact Hlt. reflexivity.
Qed.

Lemma sound_new_object {Args} (w : World Args) e :
  _events e = [] -> sound_world w -> sound_world (snd (new_object e w)).
Proof.
  intros He [Hb Hs]. split.
  - intros h ev l. rewrite listeners_ref_new_object by exact He. apply Hb.
  - intros h1 e1 h2 e2 l. rewrite !listeners_ref_new_object by exact He. apply Hs.
Qed.

Lemma sound_listening cbs : sound_world (listening cbs).
Proof.
  unfold listening.
  generalize (sound_new_object (@empty_world) (mkElement 0 [] []) eq_refl
                sound_empty_world).
  generalize (snd (new_object (mkElement 0 [] []) empty_world)).
  induction cbs as [|cb cbs IH]; intros w Hw; simpl; [exact Hw|].
  apply IH. apply sound_addEventListener. exact Hw.
Qed.

(** [Element(tag)] always starts with an empty listener table. *)
Lemma Element__init__events t s e s' :
  Element__init__ t s = Ok e s' -> _events e = [].
Proof.
  unfold Element__init__. rewrite (bind_Ok get_store _ s s s) by reflexivity.
  destruct (negb (is_tag s t)); [discriminate|].
  destruct (dict_get "style" (attrs_of s t)) as [[v|l]|].
  - unfold bind. destruct (init_style (split ":" v) [] s);
      destruct (init_style (split ";" v) [] s); try discriminate.
    all: intros [= <- _]; reflexivity.
  - discriminate.
  - intros [= <- _]. reflexivity.
Qed.

(** Registering appends to the list of the wrapper and event. *)
Lemma registered_addEventListener {Args} (w : World Args) h event callback :
  sound_world w -> h < length (elems w) ->
  registered (addEventListener h event callback w) h event
  = registered w h event ++ [callback].
Proof.
  intros [Hb Hs] Hh. unfold registered, addEventListener.
  destruct (listeners_ref w h event) as [l|] eqn:Hl.
  - rewrite Hl. rewrite (listeners_ref_same_elems _ w) by reflexivity.
    rewrite Hl. simpl. rewrite list_lookup_alter_eq.
    destruct (lookup_lt_is_Some_2 (lists w) l (Hb _ _ _ Hl)) as [cbs ->].
    reflexivity.
  - rewrite listeners_ref_bind_new_list.
    destruct (decide _) as [_|Hno]; [|tauto].
    rewrite (listeners_ref_same_elems _ (bind_new_list h event [] w))
      by reflexivity.
    rewrite listeners_ref_bind_new_list.
    destruct (decide _) as [_|Hno]; [|tauto].
    simpl. rewrite list_lookup_alter_eq.
    rewrite list_lookup_middle by reflexivity. reflexivity.
Qed.

(** ** Listeners and handles *)

(** Two queries for the same element give two wrappers; the listener
    registered through the first is not called when the event is
    triggered through the second. *)
Example listener_not_shared_between_handles :
  shared_node_scenario = Some [].
Proof. vm_compute. reflexivity. Qed.

(** C3, as stated, fails: with two wrappers of node 1 and callable 7
    registered through the first, triggering through the second calls
    nothing. *)
Lemma registry_is_not_per_node : ~ registry_per_node.
Proof.
  intros Hclaim.
  destruct (Hclaim inert
              (snd (new_object (mkElement 1 [] [])
                      (snd (new_object (mkElement 1 [] []) empty_world))))
              0 1 (mkElement 1 [] []) (mkElement 1 [] []) "click" 7 "now"
              eq_refl eq_refl eq_refl) as (fuel & w' & Hrun & Hin).
  vm_compute in Hrun. injection Hrun as <-. destruct Hin.
Qed.

(** C3, amended.  The listener table belongs to the wrapper object, not
    to the node: every wrapper is created with an empty table, so
    triggering an event through a newly obtained handle calls nothing,
    whatever was registered through other handles of the node; a
    listener registered through a handle is called, after the listeners
    registered before it, when the event is triggered through that same
    handle (for listeners that do not themselves register listeners for
    that event on that handle). *)
Theorem listeners_belong_to_the_wrapper :
  (forall t s e s', Element__init__ t s = Ok e s' -> _events e = []) /\
  (forall Args body (w : World Args) e fuel event args,
      _events e = [] ->
      triggerEvent body fuel (fst (new_object e w)) event args
        (snd (new_object e w))
      = Some (snd (new_object e w))) /\
  (forall Args body (w : World Args) h event callback args fuel,
      sound_world w -> h < length (elems w) ->
      (forall cb, In cb (registered w h event ++ [callback]) ->
                  quiet body h event cb) ->
      S (length (registered w h event)) < fuel ->
      exists w',
        triggerEvent body fuel h event args
          (addEventListener h event callback w) = Some w' /\
        calls w' = calls w ++ map (fun cb => (cb, args))
                                  (registered w h event ++ [callback])).
Proof.
  split; [exact Element__init__events|]. split.
  - intros Args body w e fuel event args He.
    unfold triggerEvent. rewrite listeners_ref_new_object by exact He.
    unfold new_object, listeners_ref. simpl.
    rewrite lookup_ge_None_2 by lia. reflexivity.
  - intros Args body w h event callback args fuel Hw Hh Hquiet Hfuel.
    pose proof (registered_addEventListener w h event callback Hw Hh) as Hreg.
    destruct (triggerEvent_quiet Args body (addEventListener h event callback w)
                h event args fuel) as (w' & Hrun & Hcalls).
    + apply sound_addEventListener. exact Hw.
    + rewrite Hreg. exact Hquiet.
    + rewrite Hreg, length_app. simpl. lia.
    + exists w'. split; [exact Hrun|].
      rewrite Hcalls, Hreg.
      f_equal. unfold addEventListener.
      destruct (listeners_ref w h event);
        destruct (listeners_ref _ h event); reflexivity.
Qed.

Lemma listeners_belong_to_the_wrapper_witness :
  _events (mkElement 0 [] []) = [] /\
  triggerEvent inert 4 (fst (new_object (mkElement 0 [] []) (listening [1; 2])))
    "click" "now" (snd (new_object (mkElement 0 [] []) (listening [1; 2])))
  = Some (snd (new_object (mkElement 0 [] []) (listening [1; 2]))) /\
  exists w',
    triggerEvent inert 4 0 "click" "now"
      (addEventListener 0 "click" 3 (listening [1; 2])) = Some w' /\
    calls w' = calls (listening [1; 2])
               ++ map (fun cb => (cb, "now"))
                      (registered (listening [1; 2]) 0 "click" ++ [3]).
Proof.
  destruct listeners_belong_to_the_wrapper as (Hinit & Hfresh & Hsame).
  split; [|split].
  - apply (Hinit 0 [mkNode KTag "b" [] [] None ""] _
                 [mkNode KTag "b" [] [] None ""]). reflexivity.
  - apply Hfresh. reflexivity.
  - apply Hsame.
    + apply sound_listening.
    + simpl. lia.
    + intros cb _ a Ha. destruct Ha.
    + vm_compute. lia.
Defined.

(** ** Dispatch *)

(** The only listener registered when the event is triggered is
    callable 1; it registers callable 2 while it runs, and the dispatch
    in progress calls callable 2 as well. *)
Example listener_added_during_dispatch_is_called :
  registered (listening [1]) 0 "click" = [1] /\
  (calls <$> triggerEvent registering 3 0 "click" "now" (listening [1]))
    = Some [(1, "now"); (2, "now")] /\
  forall fuel,
    (calls <$> triggerEvent registering fuel 0 "click" "now" (listening [1]))
    <> Some (map (fun cb => (cb, "now")) (registered (listening [1]) 0 "click")).
Proof.
  split; [reflexivity|]. split; [reflexivity|].
  intros fuel. destruct fuel as [|[|[|fuel]]]; vm_compute; discriminate.
Qed.

(** C8, as stated, fails: with callable 1 registering callable 2 while
    it runs, the calls made are not those of the listeners registered
    when the dispatch started. *)
Lemma dispatch_is_not_snapshot : ~ dispatch_is_snapshot.
Proof.
  intros Hclaim.
  destruct (Hclaim registering (listening [1]) 0 "click" "now"
              (sound_listening [1])) as (fuel & w' & Hrun & Hcalls).
  destruct fuel as [|[|[|fuel]]]; vm_compute in Hrun; try discriminate.
  injection Hrun as <-. vm_compute in Hcalls. discriminate.
Qed.

(** C8, amended.  [triggerEvent] calls the listeners registered for the
    event when it starts, in registration order, each with the given
    arguments, and returns, provided none of them registers a listener
    for that event on that wrapper while it runs; they may remove
    listeners, which does not change the dispatch in progress. *)
Theorem triggerEvent_calls_registered
    Args body (w : World Args) h event args fuel :
  sound_world w ->
  (forall cb, In cb (registered w h event) -> quiet body h event cb) ->
  length (registered w h event) < fuel ->
  exists w',
    triggerEvent body fuel h event args w = Some w' /\
    calls w' = calls w ++ map (fun cb => (cb, args)) (registered w h event).
Proof. apply triggerEvent_quiet. Qed.

Lemma triggerEvent_calls_registered_witness :
  exists w',
    triggerEvent removing 3 0 "click" "now" (listening [1; 2]) = Some w' /\
    calls w' = calls (listening [1; 2])
               ++ map (fun cb => (cb, "now"))
                      (registered (listening [1; 2]) 0 "click").
Proof.
  apply (triggerEvent_calls_registered string removing (listening [1; 2])
           0 "click" "now" 3).
  - apply sound_listening.
  - intros cb Hcb a Ha.
    change (In cb [1; 2]) in Hcb.
    destruct Hcb as [<-|[<-|[]]]; simpl in Ha.
    + destruct Ha as [<-|[]]. simpl. tauto.
    + destruct Ha.
  - vm_compute. lia.
Defined.

(** With the removing listener first, the listener it removes is still
    called by the dispatch in progress, and is gone afterwards. *)
Example listener_removed_during_dispatch_is_called :
  exists w',
    triggerEvent removing 3 0 "click" "now" (listening [1; 2]) = Some w' /\
    calls w' = [(1, "now"); (2, "now")] /\
    registered w' 0 "click" = [1].
Proof. eexists. split; [vm_compute; reflexivity|]. split; reflexivity. Qed.

(** ** [document.title] *)

(** On a document without an [<html>] element the setter puts the new
    [<head>] directly under the document root, and no [<html>] element
    is created. *)
Example title_set_without_html_creates_no_html :
  exists s,
    title_scenario [] "T" []
    = Ok [HTag "head" [] [HTag "title" [] [HText "T"]]] s /\
    forall x, name_of s x <> "html".
Proof.
  eexists. split; [vm_compute; reflexivity|].
  intros [|[|[|[|x]]]]; vm_compute; discriminate.
Qed.


(** ** Searching a heap that has grown *)










(** ** Insertion of a detached object *)

Lemma alloc_parent s nd x :
  parent nd = None -> parent_of (s ++ [nd]) x = parent_of s x.
Proof.
  intros Hp. unfold parent_of.
  destruct (lt_eq_lt_dec x (length s)) as [[Hlt| -> ]|Hgt].
  - rewrite lookup_app_l by exact Hlt. reflexivity.
  - rewrite list_lookup_middle by reflexivity.
    rewrite lookup_ge_None_2 by lia. exact Hp.
  - rewrite !lookup_ge_None_2; [reflexivity|lia|rewrite length_app; simpl; lia].
Qed.

Lemma alloc_contents s nd x :
  contents nd = [] -> contents_of (s ++ [nd]) x = contents_of s x.
Proof.
  intros Hc. unfold contents_of.
  destruct (lt_eq_lt_dec x (length s)) as [[Hlt| -> ]|Hgt].
  - rewrite lookup_app_l by exact Hlt. reflexivity.
  - rewrite list_lookup_middle by reflexivity.
    rewrite lookup_ge_None_2 by lia. exact Hc.
  - rewrite !lookup_ge_None_2; [reflexivity|lia|rewrite length_app; simpl; lia].
Qed.


Lemma alloc_label_new s nd :
  label_of (s ++ [nd]) (length s) = Some (nkind nd, name nd, attrs nd, text nd).
Proof. unfold label_of. rewrite list_lookup_middle by reflexivity. reflexivity. Qed.

Lemma ancestor_same_parents s s' :
  (forall x, parent_of s' x = parent_of s x) ->
  forall a b, ancestor s' a b -> ancestor s a b.
Proof.
  intros Hsame a b Hab. induction Hab as [b p Hp|b p a Hp Hap IH].
  - apply ancestor_parent. rewrite <- Hsame. exact Hp.
  - eapply ancestor_step; [|exact IH]. rewrite <- Hsame. exact Hp.
Qed.

(** Well-formedness is a property of the parent links and the child
    lists. *)
Lemma well_formed_same s s' :
  (forall x, parent_of s' x = parent_of s x) ->
  (forall x, contents_of s' x = contents_of s x) ->
  well_formed s -> well_formed s'.
Proof.
  intros Hp Hc (Hsym & Hnd & Hac). split; [|split].
  - intros n p. rewrite Hp, Hc. apply Hsym.
  - intros p. rewrite Hc. apply Hnd.
  - eapply acyclic_same_parents; eauto.
Qed.

Lemma well_formed_alloc s nd :
  parent nd = None -> contents nd = [] ->
  well_formed s -> well_formed (s ++ [nd]).
Proof.
  intros Hp Hc. apply well_formed_same; intros x;
    [apply alloc_parent|apply alloc_contents]; assumption.
Qed.


Lemma ancestor_has_child s a x :
  symmetric s -> ancestor s a x -> contents_of s a <> [].
Proof.
  intros Hsym Hanc. induction Hanc as [x p Hp|x p a Hp Hanc IH]; [|exact IH].
  apply Hsym in Hp. intros Hnil. rewrite Hnil in Hp. destruct Hp.
Qed.


Lemma insert_one_detached s t position n :
  well_formed s -> n <> t -> t < length s -> n < length s ->
  ~ ancestor s n t -> parent_of s n = None ->
  exists s',
    insert_one t position n s = Ok tt s' /\ well_formed s' /\
    attached n t (min position (length (contents_of s t))) s s'.
Proof.
  intros Hwf Hnt Ht Hn Hnot Hp.
  destruct (insert_one_spec s t position n Hwf Hnt Hnot Ht Hn) as (s' & Hrun & Hm).
  exists s'. split; [exact Hrun|]. split; [eapply moved_well_formed; eauto|].
  destruct Hwf as (Hsym & _ & _).
  assert (Hout : forall x, ~ In n (contents_of s x))
    by (intros x Hx; apply Hsym in Hx; congruence).
  assert (Hland : landing s t position n = min position (length (contents_of s t)))
    by (unfold landing; rewrite (index_absent _ _ (Hout t)); reflexivity).
  destruct Hm as (Hlen & Hpar & Hc & Hl). rewrite Hland in Hc.
  split; [exact Hlen|]. split; [exact Hl|]. split; [exact Hpar|].
  intros x. rewrite Hc, !without_absent by apply Hout. reflexivity.
Qed.

Lemma insert_detached s t position n :
  well_formed s -> n <> t -> t < length s -> n < length s ->
  ~ ancestor s n t -> parent_of s n = None -> kind_of s n <> KSoup ->
  exists s',
    insert t position n s = Ok tt s' /\ well_formed s' /\
    attached n t (min position (length (contents_of s t))) s s'.
Proof.
  intros Hwf Hnt Ht Hn Hnot Hp Hk. rewrite insert_tag by assumption.
  apply insert_one_detached; assumption.
Qed.


Lemma list_insert_at_front {A} (x : A) l : list_insert_at 0 x l = x :: l.
Proof. reflexivity. Qed.

Lemma list_insert_at_nil {A} k (x : A) : list_insert_at k x [] = [x].
Proof. destruct k; reflexivity. Qed.










(** The setter on five small documents, for every title text: an empty
    [<html>], an [<html>] with a [<body>], an [<html>] with a [<head>],
    a document without [<html>], and the empty document. *)
Example title_on_small_documents value :
  (exists s,
     title_scenario [HTag "html" [] []] value []
     = Ok [HTag "html" [] [HTag "head" [] [HTag "title" [] [HText value]]]] s) /\
  (exists s,
     title_scenario [HTag "html" [] [HTag "body" [] []]] value []
     = Ok [HTag "html" [] [HTag "head" [] [HTag "title" [] [HText value]];
                            HTag "body" [] []]] s) /\
  (exists s,
     title_scenario [HTag "html" [] [HTag "head" [] [HTag "meta" [] []]]] value []
     = Ok [HTag "html" [] [HTag "head" [] [HTag "meta" [] [];
                                            HTag "title" [] [HText value]]]] s) /\
  (exists s,
     title_scenario [HTag "p" [] []] value []
     = Ok [HTag "head" [] [HTag "title" [] [HText value]]; HTag "p" [] []] s) /\
  (exists s,
     title_scenario [] value []
     = Ok [HTag "head" [] [HTag "title" [] [HText value]]] s).
Proof.
  repeat split; eexists; vm_compute; reflexivity.
Qed.

(** ** Insertion relocates *)

Lemma list_index_total s v l :
  (exists i, list_index s v l = Ok i s /\ i < length l) \/
  (exists e, list_index s v l = Raise e s).
Proof.
  induction l as [|item l IH]; cbn [list_index].
  - right. eauto.
  - destruct (py_eq eq_fuel s item v) as [[|]|].
    + left. exists 0. split; [reflexivity|simpl; lia].
    + destruct IH as [(i & -> & Hi)|(e & ->)].
      * left. exists (S i). split; [reflexivity|simpl; lia].
      * right. eauto.
    + right. eauto.
Qed.

Lemma extracted_well_formed s s' n :
  well_formed s -> extracted n s s' -> well_formed s'.
Proof.
  intros (Hsym & Hnd & Hac) (_ & Hp & Hc & _). split; [|split].
  - intros x p. rewrite Hp, Hc, In_without.
    destruct (decide (x = n)) as [->|Hx].
    + split; [discriminate|tauto].
    + rewrite (Hsym x p). tauto.
  - intros p. rewrite Hc. apply NoDup_without, Hnd.
  - apply (acyclic_detached s s' n); [exact Hac| |].
    + intros x Hx. rewrite Hp. destruct (decide (x = n)); [contradiction|reflexivity].
    + rewrite Hp. destruct (decide (n = n)); [reflexivity|contradiction].
Qed.

Lemma moved_relocated s s' n t k :
  well_formed s -> n <> t -> ~ ancestor s n t ->
  moved n t k s s' -> relocated n t s'.
Proof.
  intros Hwf Hnt Hnot Hm. split; [eapply moved_well_formed; eauto|].
  destruct Hm as (_ & Hp & Hc & _). split; [|split].
  - rewrite Hp. destruct (decide (n = n)); congruence.
  - rewrite Hc. destruct (decide (t = t)); [|congruence].
    apply In_list_insert_at. left. reflexivity.
  - intros p Hpt. rewrite Hc. destruct (decide (p = t)); [contradiction|].
    rewrite In_without. tauto.
Qed.


(** [insert] of a tag that is not the target or above it returns and
    relocates. *)
Lemma insert_relocates s t position n :
  well_formed s -> n <> t -> ~ ancestor s n t ->
  t < length s -> n < length s -> kind_of s n <> KSoup ->
  exists s', insert t position n s = Ok tt s' /\ relocated n t s' /\
             moved n t (landing s t position n) s s'.
Proof.
  intros Hwf Hnt Hnot Ht Hn Hk.
  destruct (insert_one_spec s t position n Hwf Hnt Hnot Ht Hn) as (s' & Hrun & Hm).
  exists s'. rewrite insert_tag by assumption.
  split; [exact Hrun|]. split; [eapply moved_relocated; eauto|exact Hm].
Qed.


Lemma ancestor_extracted s s' n a b :
  extracted n s s' -> ancestor s' a b -> ancestor s a b.
Proof.
  intros (_ & Hp & _ & _) Hab. induction Hab as [b p Hb|b p a Hb Hap IH].
  - rewrite Hp in Hb. destruct (decide (b = n)); [discriminate|].
    apply ancestor_parent. exact Hb.
  - rewrite Hp in Hb. destruct (decide (b = n)); [discriminate|].
    eapply ancestor_step; eauto.
Qed.


(** Appending [<a>] to its own child [<d>] leaves each of the two the
    parent of the other. *)
Example appendChild_into_descendant_makes_cycle :
  exists a d s,
    cycle_scenario [] = Ok (a, d) s /\
    parent_of s a = Some d /\ parent_of s d = Some a /\
    ~ acyclic s.
Proof.
  exists 1, 2. eexists. split; [vm_compute; reflexivity|].
  split; [reflexivity|]. split; [reflexivity|].
  intros Hac. apply (Hac 1).
  eapply ancestor_step; [reflexivity|]. apply ancestor_parent. reflexivity.
Qed.




(** ** [replaceChild] and the parent links, on every heap *)

(** [replaceChild] returns or raises, and in both cases every parent
    link is what it was: the new child is not given its parent and the
    old child keeps it. *)
Lemma replaceChild_keeps_parent_links s self new_child old_child :
  match replaceChild self (VElement new_child) (VElement old_child) s with
  | Ok _ s' | Raise _ s' => forall x, parent_of s' x = parent_of s x
  | Hang => False
  end.
Proof.
  unfold replaceChild, bind.
  destruct (list_index_total s (tag old_child) (contents_of s (tag self)))
    as [(i & -> & _)|(e & ->)].
  - simpl. intros x. apply parent_of_set_contents.
  - reflexivity.
Qed.

(** ** Attributes *)

Lemma attrs_of_set_attr_eq s x attr value :
  x < length s ->
  attrs_of (set_attr x attr value s) x = dict_set attr value (attrs_of s x).
Proof.
  intros Hx. unfold attrs_of, set_attr. rewrite list_lookup_alter_eq.
  destruct (lookup_lt_is_Some_2 s x Hx) as [n ->]. reflexivity.
Qed.

Lemma attrs_of_set_attr_ne s x attr value y :
  y <> x -> attrs_of (set_attr x attr value s) y = attrs_of s y.
Proof.
  intros Hne. unfold attrs_of, set_attr.
  rewrite list_lookup_alter_ne by congruence. reflexivity.
Qed.

Lemma attrs_of_del_attr_eq s x attr :
  attrs_of (del_attr x attr s) x = dict_del attr (attrs_of s x).
Proof.
  unfold attrs_of, del_attr. rewrite list_lookup_alter_eq.
  destruct (s !! x); reflexivity.
Qed.

Lemma tree_of_alter_attrs s x (f : list (string * attr_value) -> list (string * attr_value)) y :
  parent_of (alter (fun n => with_attrs (f (attrs n)) n) x s) y = parent_of s y /\
  contents_of (alter (fun n => with_attrs (f (attrs n)) n) x s) y = contents_of s y.
Proof.
  unfold parent_of, contents_of. destruct (decide (x = y)) as [->|Hne].
  - rewrite list_lookup_alter_eq. destruct (s !! y); split; reflexivity.
  - rewrite list_lookup_alter_ne by exact Hne. split; reflexivity.
Qed.

(** X1.  [setAttribute] then [getAttribute] of the same name gives the
    value that was set; the other attributes of the element, the
    attributes of every other object, and the tree are unchanged. *)
Theorem setAttribute_getAttribute s self attr value :
  tag self < length s ->
  exists s',
    setAttribute self attr value s = Ok tt s' /\
    getAttribute self attr s' = Ok (Some value) s' /\
    (forall attr', attr' <> attr ->
       getAttribute self attr' s'
       = Ok (dict_get attr' (attrs_of s (tag self))) s') /\
    (forall x, x <> tag self -> attrs_of s' x = attrs_of s x) /\
    (forall x, parent_of s' x = parent_of s x /\
               contents_of s' x = contents_of s x).
Proof.
  intros Hx. eexists. split; [reflexivity|].
  unfold getAttribute, bind, get_store, ret.
  rewrite attrs_of_set_attr_eq by exact Hx. split; [|split; [|split]].
  - rewrite dict_get_set_eq. reflexivity.
  - intros attr' Hne. rewrite dict_get_set_ne by exact Hne. reflexivity.
  - intros x Hne. apply attrs_of_set_attr_ne. exact Hne.
  - intros x. apply (tree_of_alter_attrs s (tag self) (dict_set attr value)).
Qed.

Lemma setAttribute_getAttribute_witness :
  exists s',
    setAttribute (mkElement 0 [] []) "title" (AStr "t") div_store = Ok tt s' /\
    getAttribute (mkElement 0 [] []) "title" s' = Ok (Some (AStr "t")) s' /\
    (forall attr', attr' <> "title" ->
       getAttribute (mkElement 0 [] []) attr' s'
       = Ok (dict_get attr' (attrs_of div_store 0)) s') /\
    (forall x, x <> 0 -> attrs_of s' x = attrs_of div_store x) /\
    (forall x, parent_of s' x = parent_of div_store x /\
               contents_of s' x = contents_of div_store x).
Proof.
  apply (setAttribute_getAttribute div_store (mkElement 0 [] []) "title" (AStr "t")).
  simpl. lia.
Defined.

(** ** Classes *)

Lemma member_app x l y :
  member x (l ++ [y]) = member x l || String.eqb x y.
Proof.
  unfold member. rewrite existsb_app. simpl. rewrite orb_false_r. reflexivity.
Qed.

Lemma list_remove_app_absent x l :
  member x l = false -> list_remove x (l ++ [x]) = l.
Proof.
  induction l as [|y l IH]; simpl; intros Hm.
  - rewrite String.eqb_refl. reflexivity.
  - apply orb_false_elim in Hm as [Hxy Hm].
    rewrite String.eqb_sym, Hxy. rewrite IH by exact Hm. reflexivity.
Qed.

(** X2.  [addClass] leaves the class list unchanged when the class is in
    it and appends the class otherwise, so that adding twice is adding
    once: the second call does not change the heap. *)
Theorem addClass_once s self cls classes :
  tag self < length s -> classes_are s (tag self) classes ->
  exists s',
    addClass self cls s = Ok tt s' /\
    classes_are s' (tag self)
      (if member cls classes then classes else classes ++ [cls]) /\
    addClass self cls s' = Ok tt s'.
Proof.
  intros Hx Hcl. unfold classes_are in *.
  unfold addClass. rewrite (bind_Ok get_store _ s s s) by reflexivity.
  rewrite Hcl. destruct (member cls classes) eqn:Hm; simpl.
  - exists s. split; [reflexivity|]. split; [exact Hcl|].
    rewrite (bind_Ok get_store _ s s s) by reflexivity.
    rewrite Hcl, Hm. reflexivity.
  - eexists. split; [reflexivity|].
    assert (Hcl' : default (AList [])
                     (dict_get "class"
                        (attrs_of (set_attr (tag self) "class"
                                     (AList (classes ++ [cls])) s) (tag self)))
                   = AList (classes ++ [cls])).
    { rewrite attrs_of_set_attr_eq by exact Hx. rewrite dict_get_set_eq. reflexivity. }
    split; [exact Hcl'|].
    rewrite (bind_Ok get_store _ _ _ _ eq_refl).
    rewrite Hcl', member_app, String.eqb_refl, orb_true_r. reflexivity.
Qed.

Lemma addClass_once_witness :
  exists s',
    addClass (mkElement 0 [] []) "c" div_store = Ok tt s' /\
    classes_are s' 0 (if member "c" ["a"; "b"] then ["a"; "b"] else ["a"; "b"] ++ ["c"]) /\
    addClass (mkElement 0 [] []) "c" s' = Ok tt s'.
Proof.
  apply (addClass_once div_store (mkElement 0 [] []) "c" ["a"; "b"]).
  - simpl. lia.
  - reflexivity.
Defined.

Lemma alter_fixed {A} (f : A -> A) (l : list A) i x :
  l !! i = Some x -> f x = x -> alter f i l = l.
Proof.
  intros Hi Hf. apply list_eq. intros j.
  destruct (decide (i = j)) as [->|Hne].
  - rewrite list_lookup_alter_eq, Hi. simpl. rewrite Hf. reflexivity.
  - rewrite list_lookup_alter_ne by exact Hne. reflexivity.
Qed.

Lemma dict_del_set_absent {V} k (v : V) d :
  dict_get k d = None -> dict_del k (dict_set k v d) = d.
Proof.
  induction d as [|[k' v'] d IH]; simpl.
  - rewrite String.eqb_refl. reflexivity.
  - destruct (String.eqb k' k) eqn:Hk; [discriminate|].
    intros Hd. simpl. rewrite Hk, IH by exact Hd. reflexivity.
Qed.

Lemma dict_get_del_eq {V} k (d : list (string * V)) :
  dict_get k (dict_del k d) = None.
Proof.
  induction d as [|[k' v'] d IH]; simpl; [reflexivity|].
  destruct (String.eqb k' k) eqn:Hk; simpl; [exact IH|].
  rewrite Hk. exact IH.
Qed.

Lemma dict_get_del_ne {V} k k0 (d : list (string * V)) :
  k0 <> k -> dict_get k0 (dict_del k d) = dict_get k0 d.
Proof.
  intros Hne. induction d as [|[k' v'] d IH]; simpl; [reflexivity|].
  destruct (String.eqb_spec k' k) as [->|Hk]; simpl.
  - destruct (String.eqb_spec k k0); [congruence|exact IH].
  - destruct (String.eqb k' k0); [reflexivity|exact IH].
Qed.

Lemma dict_set_set {V} k (v v' : V) d :
  dict_set k v' (dict_set k v d) = dict_set k v' d.
Proof.
  induction d as [|[k0 v0] d IH]; simpl.
  - rewrite String.eqb_refl. reflexivity.
  - destruct (String.eqb k0 k) eqn:Hk; simpl.
    + rewrite String.eqb_refl. reflexivity.
    + rewrite Hk, IH. reflexivity.
Qed.

Lemma dict_set_same {V} k (v : V) d :
  dict_get k d = Some v -> dict_set k v d = d.
Proof.
  induction d as [|[k0 v0] d IH]; simpl; [discriminate|].
  destruct (String.eqb_spec k0 k) as [->|Hk].
  - intros [= ->]. reflexivity.
  - intros Hd. rewrite IH by exact Hd. reflexivity.
Qed.

(** X3.  [removeClass] undoes [addClass]: when the class is not in the
    class list (and the [class] attribute is not an empty list),
    adding it and removing it again gives back the heap as it was; an
    attribute that [addClass] created is deleted again, not left
    empty. *)
Theorem removeClass_undoes_addClass s self cls classes :
  tag self < length s -> classes_are s (tag self) classes ->
  member cls classes = false ->
  dict_get "class" (attrs_of s (tag self)) <> Some (AList []) ->
  (addClass self cls ;;; removeClass self cls)%py s = Ok tt s.
Proof.
  intros Hx Hcl Hm Hnonempty. unfold classes_are in Hcl.
  destruct (lookup_lt_is_Some_2 s (tag self) Hx) as [n Hn].
  assert (Hattrs : attrs_of s (tag self) = attrs n)
    by (unfold attrs_of; rewrite Hn; reflexivity).
  unfold addClass at 1.
  set (s1 := set_attr (tag self) "class" (AList (classes ++ [cls])) s).
  assert (Hadd : (s0 <- get_store ;;
                  match default (AList []) (dict_get "class" (attrs_of s0 (tag self))) with
                  | AList classes0 =>
                      if negb (member cls classes0)
                      then modify (set_attr (tag self) "class" (AList (classes0 ++ [cls])))
                      else ret tt
                  | AStr classes0 =>
                      if negb (occurs cls classes0) then raise AttributeError else ret tt
                  end)%py s = Ok tt s1).
  { rewrite (bind_Ok get_store _ s s s) by reflexivity. rewrite Hcl, Hm. reflexivity. }
  rewrite (bind_Ok _ _ s tt s1) by exact Hadd.
  unfold removeClass. rewrite (bind_Ok get_store _ s1 s1 s1) by reflexivity.
  unfold s1 at 1. rewrite attrs_of_set_attr_eq by exact Hx.
  rewrite dict_get_set_eq. simpl.
  rewrite member_app, String.eqb_refl, orb_true_r.
  rewrite list_remove_app_absent by exact Hm.
  destruct classes as [|c classes].
  - unfold modify. f_equal. unfold s1, del_attr, set_attr.
    rewrite list_alter_alter_eq.
    apply (alter_fixed _ s (tag self) n Hn).
    destruct n as [k nm ats cs p txt]. unfold with_attrs. simpl in *.
    f_equal. apply dict_del_set_absent.
    rewrite Hattrs in Hcl, Hnonempty.
    destruct (dict_get "class" ats) as [[v|[|c l]]|]; simpl in Hcl;
      try discriminate; try reflexivity. congruence.
  - unfold modify. f_equal. unfold s1, set_attr.
    rewrite list_alter_alter_eq.
    apply (alter_fixed _ s (tag self) n Hn).
    destruct n as [k nm ats cs p txt]. unfold with_attrs. simpl in *.
    f_equal. rewrite dict_set_set. apply dict_set_same.
    rewrite Hattrs in Hcl.
    destruct (dict_get "class" ats) as [v|]; simpl in Hcl; [|discriminate].
    congruence.
Qed.

Lemma removeClass_undoes_addClass_witness :
  (addClass (mkElement 0 [] []) "c" ;;; removeClass (mkElement 0 [] []) "c")%py
    div_store = Ok tt div_store.
Proof.
  apply (removeClass_undoes_addClass div_store (mkElement 0 [] []) "c" ["a"; "b"]).
  - simpl. lia.
  - reflexivity.
  - reflexivity.
  - discriminate.
Defined.

(** X4.  [removeClass] takes one occurrence of the class out of the
    class list and leaves the other attributes alone; when the list
    becomes empty the [class] attribute is deleted, so that
    [getAttribute("class")] is [None] afterwards.  A class that is not
    in the list changes nothing. *)
Theorem removeClass_removes_one s self cls classes :
  tag self < length s -> classes_are s (tag self) classes ->
  exists s',
    removeClass self cls s = Ok tt s' /\
    classes_are s' (tag self)
      (if member cls classes then list_remove cls classes else classes) /\
    (member cls classes = true -> list_remove cls classes = [] ->
     getAttribute self "class" s' = Ok None s') /\
    (member cls classes = false -> s' = s) /\
    (forall attr, attr <> "class" ->
       dict_get attr (attrs_of s' (tag self))
       = dict_get attr (attrs_of s (tag self))).
Proof.
  intros Hx Hcl. unfold classes_are in *.
  unfold removeClass. rewrite (bind_Ok get_store _ s s s) by reflexivity.
  rewrite Hcl. destruct (member cls classes) eqn:Hm.
  - destruct (list_remove cls classes) as [|c l] eqn:Hrem.
    + eexists. split; [reflexivity|].
      rewrite attrs_of_del_attr_eq. split; [|split; [|split]].
      * rewrite dict_get_del_eq. reflexivity.
      * intros _ _. unfold getAttribute.
        rewrite (bind_Ok get_store _ _ _ _ eq_refl).
        rewrite attrs_of_del_attr_eq, dict_get_del_eq. reflexivity.
      * discriminate.
      * intros attr Hne. apply dict_get_del_ne. exact Hne.
    + eexists. split; [reflexivity|].
      rewrite attrs_of_set_attr_eq by exact Hx. split; [|split; [|split]].
      * rewrite dict_get_set_eq. reflexivity.
      * discriminate.
      * discriminate.
      * intros attr Hne. apply dict_get_set_ne. exact Hne.
  - exists s. split; [reflexivity|]. split; [exact Hcl|].
    split; [discriminate|]. split; reflexivity.
Qed.

Lemma removeClass_removes_one_witness :
  exists s',
    removeClass (mkElement 0 [] []) "a" div_store = Ok tt s' /\
    classes_are s' 0
      (if member "a" ["a"; "b"] then list_remove "a" ["a"; "b"] else ["a"; "b"]) /\
    (member "a" ["a"; "b"] = true -> list_remove "a" ["a"; "b"] = [] ->
     getAttribute (mkElement 0 [] []) "class" s' = Ok None s') /\
    (member "a" ["a"; "b"] = false -> s' = div_store) /\
    (forall attr, attr <> "class" ->
       dict_get attr (attrs_of s' 0) = dict_get attr (attrs_of div_store 0)).
Proof.
  apply (removeClass_removes_one div_store (mkElement 0 [] []) "a" ["a"; "b"]).
  - simpl. lia.
  - reflexivity.
Defined.

(** X5.  Once the [class] attribute holds a string (as after
    [setAttribute("class", "a b")]) the class methods no longer work on
    it: [addClass] raises [AttributeError] unless the class occurs in
    the string as a substring, in which case it does nothing, and
    [removeClass] raises [AttributeError] whenever the class occurs in
    the string; the attribute is never changed. *)
Theorem class_methods_on_string_class s self value cls :
  tag self < length s ->
  let s1 := set_attr (tag self) "class" (AStr value) s in
  setAttribute self "class" (AStr value) s = Ok tt s1 /\
  addClass self cls s1
    = (if occurs cls value then Ok tt s1 else Raise AttributeError s1) /\
  removeClass self cls s1
    = (if occurs cls value then Raise AttributeError s1 else Ok tt s1).
Proof.
  intros Hx s1. split; [reflexivity|].
  assert (Hcl : default (AList []) (dict_get "class" (attrs_of s1 (tag self)))
                = AStr value).
  { unfold s1. rewrite attrs_of_set_attr_eq by exact Hx.
    rewrite dict_get_set_eq. reflexivity. }
  split.
  - unfold addClass. rewrite (bind_Ok get_store _ s1 s1 s1) by reflexivity.
    rewrite Hcl. destruct (occurs cls value); reflexivity.
  - unfold removeClass. rewrite (bind_Ok get_store _ s1 s1 s1) by reflexivity.
    rewrite Hcl. destruct (occurs cls value); reflexivity.
Qed.

Lemma class_methods_on_string_class_witness :
  let s1 := set_attr 0 "class" (AStr "ab") div_store in
  setAttribute (mkElement 0 [] []) "class" (AStr "ab") div_store = Ok tt s1 /\
  addClass (mkElement 0 [] []) "c" s1
    = (if occurs "c" "ab" then Ok tt s1 else Raise AttributeError s1) /\
  removeClass (mkElement 0 [] []) "c" s1
    = (if occurs "c" "ab" then Raise AttributeError s1 else Ok tt s1).
Proof.
  apply (class_methods_on_string_class div_store (mkElement 0 [] []) "ab" "c").
  simpl. lia.
Defined.

(** ** Style *)

Lemma append_cons x (a b : string) :
  (String x a ++ b = String x (a ++ b))%string.
Proof. reflexivity. Qed.

Lemma append_nil (b : string) : (EmptyString ++ b = b)%string.
Proof. reflexivity. Qed.

Lemma string_app_assoc (a b c : string) :
  ((a ++ b) ++ c = a ++ (b ++ c))%string.
Proof.
  induction a as [|x a IH]; [reflexivity|].
  rewrite !append_cons. f_equal. exact IH.
Qed.

Lemma has_char_app c (a b : string) :
  has_char c (a ++ b)%string = has_char c a || has_char c b.
Proof.
  induction a as [|c' a IH]; [reflexivity|].
  rewrite append_cons. simpl. rewrite IH. apply orb_assoc.
Qed.

Lemma split_without_separator c s : has_char c s = false -> split c s = [s].
Proof.
  induction s as [|c' s IH]; simpl; [reflexivity|].
  intros H. apply orb_false_elim in H as [Hc Hs].
  rewrite Hc, IH by exact Hs. reflexivity.
Qed.

Lemma split_at_separator c a b :
  has_char c a = false -> split c (a ++ String c b) = a :: split c b.
Proof.
  induction a as [|c' a IH]; rewrite ?append_nil, ?append_cons; simpl.
  - intros _. rewrite Ascii.eqb_refl. reflexivity.
  - intros H. apply orb_false_elim in H as [Hc Ha].
    rewrite Hc, IH by exact Ha. reflexivity.
Qed.

(** The pieces of a joined text: the first carries the given prefix,
    each of the others the space that follows the separator. *)
Lemma split_join pre segs seg :
  has_char ";" pre = false ->
  Forall (fun x => has_char ";" x = false) (seg :: segs) ->
  split ";" (pre ++ join "; " (seg :: segs))
  = (pre ++ seg)%string :: map (String " ") segs.
Proof.
  revert pre seg. induction segs as [|y segs IH]; intros pre seg Hpre Hall.
  - simpl. apply split_without_separator.
    rewrite has_char_app, Hpre. inversion Hall; subst. assumption.
  - inversion Hall as [|? ? Hseg Hrest]; subst.
    change (join "; " (seg :: y :: segs))
      with (seg ++ String ";" (String " " (join "; " (y :: segs))))%string.
    rewrite <- string_app_assoc.
    rewrite split_at_separator by (rewrite has_char_app, Hpre; exact Hseg).
    change (String " " (join "; " (y :: segs)))
      with (" " ++ join "; " (y :: segs))%string.
    rewrite (IH " "%string y) by (try reflexivity; exact Hrest).
    reflexivity.
Qed.

Lemma rstrip_nonspace_head c r :
  is_space c = false -> rstrip (String c r) <> EmptyString.
Proof.
  intros Hc. simpl. destruct (rstrip r); [rewrite Hc|]; discriminate.
Qed.

Lemma lstrip_to_nonspace c s :
  has_char c s = true -> is_space c = false ->
  exists c' r, lstrip s = String c' r /\ is_space c' = false.
Proof.
  intros Hin Hc. induction s as [|c0 s IH]; simpl in *; [discriminate|].
  destruct (is_space c0) eqn:Hc0.
  - apply IH. destruct (Ascii.eqb_spec c0 c) as [->|_]; [congruence|exact Hin].
  - eauto.
Qed.

Lemma strip_truthy c s :
  has_char c s = true -> is_space c = false -> truthy (strip s) = true.
Proof.
  intros Hin Hc. destruct (lstrip_to_nonspace c s Hin Hc) as (c' & r & Hl & Hc').
  unfold strip. rewrite Hl.
  pose proof (rstrip_nonspace_head c' r Hc').
  destruct (rstrip (String c' r)); [contradiction|reflexivity].
Qed.

Lemma init_style_segment pre k v rest style s :
  pre = EmptyString \/ pre = " "%string ->
  plain k -> plain v ->
  init_style ((pre ++ k ++ ": " ++ v)%string :: rest) style s
  = init_style rest (dict_set k v style) s.
Proof.
  intros Hpre (Hk1 & Hk2 & Hk3) (Hv1 & Hv2 & Hv3).
  assert (Hpre2 : has_char ":" pre = false) by (destruct Hpre; subst; reflexivity).
  cbn [init_style].
  rewrite (strip_truthy ":"); [| |reflexivity].
  2:{ rewrite !has_char_app. simpl. rewrite !orb_true_r. reflexivity. }
  change (pre ++ k ++ ": " ++ v)%string
    with (pre ++ (k ++ String ":" (String " " v)))%string.
  rewrite <- string_app_assoc.
  rewrite split_at_separator by (rewrite has_char_app, Hpre2; exact Hk2).
  rewrite split_without_separator by exact Hv2.
  assert (Hsk : strip (pre ++ k) = k)
    by (destruct Hpre; subst; [exact Hk3|exact Hk3]).
  assert (Hsv : strip (String " " v) = v) by exact Hv3.
  rewrite Hsk, Hsv. reflexivity.
Qed.

Lemma dict_set_fresh {V} k (v : V) d :
  ~ In k (map fst d) -> dict_set k v d = d ++ [(k, v)].
Proof.
  induction d as [|[k' v'] d IH]; simpl; intros Hk; [reflexivity|].
  destruct (String.eqb_spec k' k) as [->|Hne]; [tauto|].
  rewrite IH by tauto. reflexivity.
Qed.

Lemma init_style_segments : forall style pres acc s,
  length pres = length style ->
  Forall (fun pre => pre = EmptyString \/ pre = " "%string) pres ->
  plain_style style ->
  NoDup (map fst (acc ++ style)) ->
  init_style
    (zip_with (fun pre kv => (pre ++ fst kv ++ ": " ++ snd kv)%string) pres style)
    acc s
  = Ok (acc ++ style) s.
Proof.
  induction style as [|[k v] style IH]; intros pres acc s Hlen Hpres Hplain Hnd.
  - destruct pres; [|discriminate]. simpl. rewrite app_nil_r. reflexivity.
  - destruct pres as [|pre pres]; [discriminate|].
    inversion Hpres as [|? ? Hpre Hpres']; subst.
    inversion Hplain as [|? ? [Hk Hv] Hplain']; subst.
    cbn [zip_with fst snd].
    rewrite init_style_segment by assumption.
    assert (Hfresh : ~ In k (map fst acc)).
    { rewrite map_app in Hnd. apply NoDup_app in Hnd as (_ & Hdisj & _).
      intros Hin. apply (Hdisj k); [apply list_elem_of_In; exact Hin|].
      simpl. left. }
    rewrite dict_set_fresh by exact Hfresh.
    rewrite IH; [rewrite <- app_assoc; reflexivity|simpl in Hlen; lia|assumption..|].
    rewrite <- app_assoc. exact Hnd.
Qed.

(** The text of a mapping parses back to the mapping. *)
Lemma style_text_parses style s :
  plain_style style -> NoDup (map fst style) ->
  init_style (split ";" (style_text style)) [] s = Ok style s.
Proof.
  intros Hplain Hnd. destruct style as [|[k v] style]; [reflexivity|].
  unfold style_text. cbn [map fst snd].
  change (join "; " ((k ++ ": " ++ v)%string
                       :: map (fun kv => (fst kv ++ ": " ++ snd kv)%string) style))
    with (EmptyString ++ join "; " ((k ++ ": " ++ v)%string
                       :: map (fun kv => (fst kv ++ ": " ++ snd kv)%string) style))%string.
  rewrite split_join; [|reflexivity|].
  2:{ apply Forall_forall. intros x Hx. apply list_elem_of_In in Hx.
      change ((k ++ ": " ++ v)%string
                :: map (fun kv => (fst kv ++ ": " ++ snd kv)%string) style)
        with (map (fun kv => (fst kv ++ ": " ++ snd kv)%string) ((k, v) :: style)) in Hx.
      apply in_map_iff in Hx as ([k' v'] & <- & Hin).
      unfold plain_style in Hplain. rewrite Forall_forall in Hplain.
      apply list_elem_of_In in Hin.
      destruct (Hplain _ Hin) as ((Hk1 & _) & (Hv1 & _)). simpl in *.
      rewrite !has_char_app, Hk1, Hv1. reflexivity. }
  assert (Hzip :
    (EmptyString ++ (k ++ ": " ++ v))%string
      :: map (String " ") (map (fun kv => (fst kv ++ ": " ++ snd kv)%string) style)
    = zip_with (fun pre kv => (pre ++ fst kv ++ ": " ++ snd kv)%string)
        (EmptyString :: map (fun _ => " "%string) style) ((k, v) :: style)).
  { simpl. f_equal. clear. induction style as [|[k v] style IH]; simpl;
      [reflexivity|]. rewrite IH. reflexivity. }
  rewrite Hzip.
  apply (init_style_segments ((k, v) :: style)
           (EmptyString :: map (fun _ => " "%string) style) [] s).
  - simpl. rewrite length_map. reflexivity.
  - constructor; [left; reflexivity|].
    apply Forall_forall. intros x Hx. apply list_elem_of_In in Hx.
    apply in_map_iff in Hx as (? & <- & _). right. reflexivity.
  - exact Hplain.
  - exact Hnd.
Qed.

(** X6.  A style write can be read back: when the names and values of
    the updated mapping contain no [;] and no [:] and neither begin nor
    end with a character that [str.strip] removes (white space, the
    no-break space and the controls 28 to 31 and 133 included), a
    wrapper made from the element after the write holds exactly the
    mapping that the writing wrapper holds, in the same order. *)
Theorem style_write_then_wrap s self style_dict :
  tag self < length s -> is_tag s (tag self) = true ->
  plain_style (dict_update (_style self) style_dict) ->
  NoDup (map fst (dict_update (_style self) style_dict)) ->
  exists e s',
    set_style self style_dict s = Ok e s' /\
    _style e = dict_update (_style self) style_dict /\
    getAttribute e "style" s' = Ok (Some (AStr (style_text (_style e)))) s' /\
    Element__init__ (tag self) s' = Ok (mkElement (tag self) [] (_style e)) s'.
Proof.
  intros Hx Htag Hplain Hnd.
  set (style := dict_update (_style self) style_dict) in *.
  set (s' := set_attr (tag self) "style" (AStr (style_text style)) s).
  exists (mkElement (tag self) (_events self) style), s'.
  split; [reflexivity|]. split; [reflexivity|].
  assert (Hattr : dict_get "style" (attrs_of s' (tag self))
                  = Some (AStr (style_text style))).
  { unfold s'. rewrite attrs_of_set_attr_eq by exact Hx. apply dict_get_set_eq. }
  split.
  - unfold getAttribute. rewrite (bind_Ok get_store _ s' s' s') by reflexivity.
    simpl. rewrite Hattr. reflexivity.
  - unfold Element__init__. rewrite (bind_Ok get_store _ s' s' s') by reflexivity.
    assert (Htag' : is_tag s' (tag self) = true).
    { unfold is_tag, kind_of, s', set_attr in *.
      rewrite list_lookup_alter_eq. destruct (s !! tag self); exact Htag. }
    rewrite Htag', Hattr. simpl.
    rewrite (bind_Ok _ _ s' style s')
      by (apply style_text_parses; assumption).
    reflexivity.
Qed.

Lemma style_write_then_wrap_witness :
  exists e s',
    set_style (mkElement 0 [] [("color", "red")]) [("background", "blue")]
      div_store = Ok e s' /\
    _style e = dict_update [("color", "red")] [("background", "blue")] /\
    getAttribute e "style" s' = Ok (Some (AStr (style_text (_style e)))) s' /\
    Element__init__ 0 s' = Ok (mkElement 0 [] (_style e)) s'.
Proof.
  apply (style_write_then_wrap div_store (mkElement 0 [] [("color", "red")])
           [("background", "blue")]).
  - simpl. lia.
  - reflexivity.
  - repeat constructor.
  - apply (bool_decide_unpack _). vm_compute. exact I.
Defined.

(** The three writes of one wrapper: the text keeps the position of a
    name that is written again. *)
Example style_writes :
  exists e s',
    (e <- set_style (mkElement 0 [] []) [("color", "red")] ;;
     e <- set_style e [("background", "blue")] ;;
     set_style e [("color", "green")])%py div_store = Ok e s' /\
    getAttribute e "style" s'
    = Ok (Some (AStr "color: green; background: blue")) s'.
Proof. eexists. eexists. split; vm_compute; reflexivity. Qed.

(** ** Registration and removal of listeners *)

Section RegistrationProperties.

Variable Args : Type.

Implicit Types w : World Args.

Lemma registered_bind_new_list_eq w h event l :
  h < length (elems w) -> registered (bind_new_list h event l w) h event = l.
Proof.
  intros Hh. unfold registered. rewrite listeners_ref_bind_new_list.
  destruct (decide _) as [_|Hno]; [|tauto]. simpl.
  rewrite list_lookup_middle by reflexivity. reflexivity.
Qed.

Lemma registered_bind_new_list_ne w h event l h' event' :
  sound_world w -> ~ (h' = h /\ event' = event) ->
  registered (bind_new_list h event l w) h' event' = registered w h' event'.
Proof.
  intros [Hb _] Hne. unfold registered. rewrite listeners_ref_bind_new_list.
  destruct (decide _) as [Hyes|_]; [tauto|].
  destruct (listeners_ref w h' event') as [l'|] eqn:Hl'; [|reflexivity].
  simpl. rewrite lookup_app_l by (eapply Hb; exact Hl'). reflexivity.
Qed.

Lemma listeners_ref_in_range w h event l :
  listeners_ref w h event = Some l -> h < length (elems w).
Proof.
  unfold listeners_ref. destruct (elems w !! h) eqn:He; [|discriminate].
  intros _. eapply lookup_lt_Some. exact He.
Qed.

Lemma registered_removeEventListener_eq w h event callback :
  registered (removeEventListener h event callback w) h event
  = filter (fun cb => cb <> callback) (registered w h event).
Proof.
  unfold removeEventListener.
  destruct (listeners_ref w h event) as [l|] eqn:Hl.
  - destruct (lists w !! l) as [cbs|] eqn:Hcbs.
    + rewrite registered_bind_new_list_eq
        by (eapply listeners_ref_in_range; exact Hl).
      unfold registered. rewrite Hl, Hcbs. reflexivity.
    + unfold registered. rewrite Hl, Hcbs. reflexivity.
  - unfold registered. rewrite Hl. reflexivity.
Qed.

Lemma registered_removeEventListener_ne w h event callback h' event' :
  sound_world w -> ~ (h' = h /\ event' = event) ->
  registered (removeEventListener h event callback w) h' event'
  = registered w h' event'.
Proof.
  intros Hw Hne. unfold removeEventListener.
  destruct (listeners_ref w h event) as [l|]; [|reflexivity].
  destruct (lists w !! l); [|reflexivity].
  apply registered_bind_new_list_ne; assumption.
Qed.

Lemma registered_addEventListener_ne w h event callback h' event' :
  sound_world w -> ~ (h' = h /\ event' = event) ->
  registered (addEventListener h event callback w) h' event'
  = registered w h' event'.
Proof.
  intros Hw Hne. unfold addEventListener.
  set (w1 := match listeners_ref w h event with
             | Some _ => w
             | None => bind_new_list h event [] w
             end).
  assert (Hw1 : sound_world w1)
    by (unfold w1; destruct (listeners_ref w h event);
        [exact Hw|apply sound_bind_new_list; exact Hw]).
  assert (Hreg1 : registered w1 h' event' = registered w h' event')
    by (unfold w1; destruct (listeners_ref w h event);
        [reflexivity|apply registered_bind_new_list_ne; assumption]).
  destruct (listeners_ref w1 h event) as [l|] eqn:Hl; [|exact Hreg1].
  rewrite <- Hreg1. unfold registered.
  rewrite (listeners_ref_same_elems _ w1) by reflexivity.
  destruct (listeners_ref w1 h' event') as [l'|] eqn:Hl'; [|reflexivity].
  simpl. rewrite list_lookup_alter_ne; [reflexivity|].
  intros <-. destruct Hw1 as [_ Hs].
  destruct (Hs _ _ _ _ _ Hl Hl') as [-> ->]. tauto.
Qed.

Lemma lists_removeEventListener w h event callback l cbs :
  lists w !! l = Some cbs ->
  lists (removeEventListener h event callback w) !! l = Some cbs.
Proof.
  intros Hl. unfold removeEventListener.
  destruct (listeners_ref w h event) as [l0|]; [|exact Hl].
  destruct (lists w !! l0); [|exact Hl].
  simpl. rewrite lookup_app_l by (eapply lookup_lt_Some; exact Hl). exact Hl.
Qed.

Lemma calls_removeEventListener w h event callback :
  calls (removeEventListener h event callback w) = calls w.
Proof.
  unfold removeEventListener.
  destruct (listeners_ref w h event) as [l0|]; [|reflexivity].
  destruct (lists w !! l0); reflexivity.
Qed.

Lemma calls_addEventListener w h event callback :
  calls (addEventListener h event callback w) = calls w.
Proof.
  unfold addEventListener.
  destruct (listeners_ref w h event) as [l0|] eqn:Hl.
  - rewrite Hl. reflexivity.
  - destruct (listeners_ref (bind_new_list h event [] w) h event); reflexivity.
Qed.

Lemma tags_addEventListener w h event callback :
  map tag (elems (addEventListener h event callback w)) = map tag (elems w).
Proof.
  assert (Hbind : forall l, map tag (elems (bind_new_list h event l w))
                            = map tag (elems w)).
  { intros l. simpl. apply list_eq. intros i. rewrite !list_lookup_fmap.
    destruct (decide (i = h)) as [->|Hne].
    - rewrite list_lookup_alter_eq. destruct (elems w !! h); reflexivity.
    - rewrite list_lookup_alter_ne by congruence. reflexivity. }
  unfold addEventListener.
  destruct (listeners_ref w h event) as [l0|] eqn:Hl.
  - rewrite Hl. reflexivity.
  - destruct (listeners_ref (bind_new_list h event [] w) h event);
      simpl; apply (Hbind []).
Qed.

(** X7.  [removeEventListener] takes every registration of the callback
    out of the list of the wrapper and event, keeping the others in
    their order; the listeners of the other events and wrappers are the
    same, no call is made, and no list object that existed is changed:
    the table entry is bound to a new list. *)
Theorem removeEventListener_filters w h event callback :
  sound_world w ->
  registered (removeEventListener h event callback w) h event
    = filter (fun cb => cb <> callback) (registered w h event) /\
  (forall h' event', ~ (h' = h /\ event' = event) ->
     registered (removeEventListener h event callback w) h' event'
     = registered w h' event') /\
  (forall l cbs, lists w !! l = Some cbs ->
     lists (removeEventListener h event callback w) !! l = Some cbs) /\
  calls (removeEventListener h event callback w) = calls w /\
  sound_world (removeEventListener h event callback w).
Proof.
  intros Hw. split; [|split; [|split; [|split]]].
  - apply registered_removeEventListener_eq.
  - intros h' event' Hne. apply registered_removeEventListener_ne; assumption.
  - intros l cbs. apply lists_removeEventListener.
  - apply calls_removeEventListener.
  - apply sound_removeEventListener. exact Hw.
Qed.

(** X8.  [addEventListener] appends the callback to the list of the
    wrapper and event, whether or not it is there already; the listeners
    of the other events and wrappers are the same, no call is made and
    the wrappers wrap the nodes they wrapped. *)
Theorem addEventListener_appends w h event callback :
  sound_world w -> h < length (elems w) ->
  registered (addEventListener h event callback w) h event
    = registered w h event ++ [callback] /\
  (forall h' event', ~ (h' = h /\ event' = event) ->
     registered (addEventListener h event callback w) h' event'
     = registered w h' event') /\
  calls (addEventListener h event callback w) = calls w /\
  map tag (elems (addEventListener h event callback w)) = map tag (elems w) /\
  sound_world (addEventListener h event callback w).
Proof.
  intros Hw Hh. split; [|split; [|split; [|split]]].
  - apply registered_addEventListener; assumption.
  - intros h' event' Hne. apply registered_addEventListener_ne; assumption.
  - apply calls_addEventListener.
  - apply tags_addEventListener.
  - apply sound_addEventListener. exact Hw.
Qed.

Lemma filter_absent (x : nat) l :
  ~ In x l -> filter (fun y => y <> x) l = l.
Proof.
  induction l as [|y l IH]; intros Hx; [reflexivity|].
  rewrite filter_cons. destruct (decide (y <> x)) as [_|Heq].
  - rewrite IH; [reflexivity|]. intros H. apply Hx. right. exact H.
  - exfalso. apply Hx. left. destruct (decide (y = x)); tauto.
Qed.

(** X9.  Registering a callback that is not registered for the event on
    the wrapper, and removing it again, leaves every wrapper with the
    listeners it had for every event. *)
Theorem removeEventListener_undoes_addEventListener w h event callback :
  sound_world w -> h < length (elems w) ->
  ~ In callback (registered w h event) ->
  forall h' event',
    registered (removeEventListener h event callback
                  (addEventListener h event callback w)) h' event'
    = registered w h' event'.
Proof.
  intros Hw Hh Hnew h' event'.
  destruct (decide (h' = h /\ event' = event)) as [[-> ->]|Hne].
  - rewrite registered_removeEventListener_eq.
    rewrite registered_addEventListener by assumption.
    rewrite filter_app, filter_absent by exact Hnew.
    rewrite filter_cons, filter_nil.
    destruct (decide (callback <> callback)); [tauto|apply app_nil_r].
  - rewrite registered_removeEventListener_ne
      by (try apply sound_addEventListener; assumption).
    apply registered_addEventListener_ne; assumption.
Qed.

(** *** A listener that registers itself *)

Lemma run_action_keeps_entry a w h event l cbs :
  sound_world w -> listeners_ref w h event = Some l ->
  lists w !! l = Some cbs ->
  ~ removes_from h event a ->
  exists ext,
    sound_world (run_action a w) /\
    listeners_ref (run_action a w) h event = Some l /\
    lists (run_action a w) !! l = Some (cbs ++ ext) /\
    forall cb, a = AddListener h event cb -> In cb ext.
Proof.
  intros Hw Hl Hcbs Hkeep.
  pose proof (lookup_lt_Some _ _ _ Hcbs) as Hlt.
  destruct a as [h' event' cb'|h' event' cb']; simpl in *.
  - assert (Hsound : sound_world (addEventListener h' event' cb' w))
      by (apply sound_addEventListener; exact Hw).
    revert Hsound. unfold addEventListener.
    destruct (listeners_ref w h' event') as [l'|] eqn:Hl'.
    + rewrite Hl'. intros Hsound.
      destruct (decide (l' = l)) as [->|Hne].
      * exists [cb']. split; [exact Hsound|]. split; [exact Hl|]. split.
        -- simpl. rewrite list_lookup_alter_eq, Hcbs. reflexivity.
        -- intros cb [= _ _ ->]. left. reflexivity.
      * exists []. split; [exact Hsound|]. split; [exact Hl|]. split.
        -- simpl. rewrite list_lookup_alter_ne by exact Hne.
           rewrite app_nil_r. exact Hcbs.
        -- intros cb [= -> -> _]. congruence.
    + assert (Hother : ~ (h = h' /\ event = event' /\ h' < length (elems w)))
        by (intros (-> & -> & _); congruence).
      assert (Hl1 : listeners_ref (bind_new_list h' event' [] w) h event = Some l).
      { rewrite listeners_ref_bind_new_list.
        destruct (decide _); [tauto|exact Hl]. }
      destruct (listeners_ref (bind_new_list h' event' [] w) h' event')
        as [l'|] eqn:Hl1'.
      * intros Hsound. exists []. split; [exact Hsound|].
        split; [exact Hl1|]. split.
        -- rewrite listeners_ref_bind_new_list in Hl1'.
           destruct (decide _); [|congruence].
           injection Hl1' as <-. simpl.
           rewrite list_lookup_alter_ne by lia.
           rewrite lookup_app_l by exact Hlt.
           rewrite app_nil_r. exact Hcbs.
        -- intros cb [= -> -> _]. congruence.
      * intros Hsound. exists []. split; [exact Hsound|].
        split; [exact Hl1|]. split.
        -- simpl. rewrite lookup_app_l by exact Hlt.
           rewrite app_nil_r. exact Hcbs.
        -- intros cb [= -> -> _]. congruence.
  - assert (Hsound : sound_world (removeEventListener h' event' cb' w))
      by (apply sound_removeEventListener; exact Hw).
    revert Hsound. unfold removeEventListener.
    destruct (listeners_ref w h' event') as [l'|] eqn:Hl'.
    + destruct (lists w !! l') as [cbs'|].
      * intros Hsound. exists []. split; [exact Hsound|]. split; [|split].
        -- rewrite listeners_ref_bind_new_list.
           destruct (decide _) as [(-> & -> & _)|_]; [tauto|exact Hl].
        -- simpl. rewrite lookup_app_l by exact Hlt.
           rewrite app_nil_r. exact Hcbs.
        -- discriminate.
      * intros Hsound. exists []. rewrite app_nil_r.
        split; [exact Hsound|]. split; [exact Hl|]. split; [exact Hcbs|].
        discriminate.
    + intros Hsound. exists []. rewrite app_nil_r.
      split; [exact Hsound|]. split; [exact Hl|]. split; [exact Hcbs|].
      discriminate.
Qed.

Lemma run_actions_keep_entry h event l acts : forall w cbs,
  sound_world w -> listeners_ref w h event = Some l ->
  lists w !! l = Some cbs ->
  (forall a, In a acts -> ~ removes_from h event a) ->
  exists ext,
    sound_world (fold_left (fun w a => run_action a w) acts w) /\
    listeners_ref (fold_left (fun w a => run_action a w) acts w) h event
      = Some l /\
    lists (fold_left (fun w a => run_action a w) acts w) !! l
      = Some (cbs ++ ext) /\
    forall cb, In (AddListener h event cb) acts -> In cb ext.
Proof.
  induction acts as [|a acts IH]; intros w cbs Hw Hl Hcbs Hkeep; simpl.
  - exists []. rewrite app_nil_r.
    split; [exact Hw|]. split; [exact Hl|]. split; [exact Hcbs|].
    intros cb [].
  - destruct (run_action_keeps_entry a w h event l cbs Hw Hl Hcbs)
      as (ext1 & Hw1 & Hl1 & Hcbs1 & Hin1);
      [apply Hkeep; left; reflexivity|].
    destruct (IH (run_action a w) (cbs ++ ext1) Hw1 Hl1 Hcbs1)
      as (ext2 & Hw2 & Hl2 & Hcbs2 & Hin2);
      [intros a' Ha'; apply Hkeep; right; exact Ha'|].
    exists (ext1 ++ ext2). rewrite app_assoc.
    split; [exact Hw2|]. split; [exact Hl2|]. split; [exact Hcbs2|].
    intros cb [->|Hcb]; apply in_or_app.
    + left. apply Hin1. reflexivity.
    + right. apply Hin2. exact Hcb.
Qed.

Section Reregistering.

Variable body : nat -> list action.

Lemma dispatch_never_ends h event cb args l :
  In (AddListener h event cb) (body cb) ->
  (forall c a, In a (body c) -> ~ removes_from h event a) ->
  forall fuel i w cbs j,
    sound_world w -> listeners_ref w h event = Some l ->
    lists w !! l = Some cbs ->
    i <= j -> cbs !! j = Some cb ->
    dispatch body fuel l i args w = None.
Proof.
  intros Hself Hkeep.
  induction fuel as [|f IH]; intros i w cbs j Hw Hl Hcbs Hij Hj;
    [reflexivity|].
  simpl. rewrite Hcbs.
  pose proof (lookup_lt_Some _ _ _ Hj) as Hjlt.
  destruct (lookup_lt_is_Some_2 cbs i) as [c Hc]; [lia|].
  rewrite Hc. unfold call.
  destruct (run_actions_keep_entry h event l (body c)
              (mkWorld (elems w) (lists w) (calls w ++ [(c, args)])) cbs)
    as (ext & Hw' & Hl' & Hcbs' & Hin); [exact Hw|exact Hl|exact Hcbs|apply Hkeep|].
  destruct (decide (i = j)) as [->|Hne].
  - assert (c = cb) as -> by congruence.
    apply Hin in Hself.
    apply (proj2 (list_elem_of_In _ _)) in Hself.
    apply list_elem_of_lookup_1 in Hself as [k Hk].
    apply (IH (S j) _ (cbs ++ ext) (length cbs + k) Hw' Hl' Hcbs'); [lia|].
    rewrite lookup_app_r by lia.
    replace (length cbs + k - length cbs) with k by lia. exact Hk.
  - apply (IH (S i) _ (cbs ++ ext) j Hw' Hl' Hcbs'); [lia|].
    rewrite lookup_app_l by exact Hjlt. exact Hj.
Qed.

(** X10.  A listener that registers itself for the event on the wrapper
    through which the event is triggered keeps the loop of
    [triggerEvent] going for ever, unless a listener removes a
    registration for that event on that wrapper: every call appends to
    the list the loop is reading. *)
Theorem self_registering_listener_never_returns w h event cb args :
  sound_world w ->
  In cb (registered w h event) ->
  In (AddListener h event cb) (body cb) ->
  (forall c a, In a (body c) -> ~ removes_from h event a) ->
  forall fuel, triggerEvent body fuel h event args w = None.
Proof.
  intros Hw Hreg Hself Hkeep fuel. unfold triggerEvent.
  unfold registered in Hreg.
  destruct (listeners_ref w h event) as [l|] eqn:Hl; [|destruct Hreg].
  destruct (lists w !! l) as [cbs|] eqn:Hcbs; [|destruct Hreg].
  simpl in Hreg. apply (proj2 (list_elem_of_In _ _)) in Hreg.
  apply list_elem_of_lookup_1 in Hreg as [j Hj].
  apply (dispatch_never_ends h event cb args l Hself Hkeep fuel 0 w cbs j);
    try assumption. lia.
Qed.

End Reregistering.

End RegistrationProperties.

Lemma removeEventListener_filters_witness :
  registered (removeEventListener 0 "click" 1 (listening [1; 2; 1])) 0 "click"
    = filter (fun cb => cb <> 1) (registered (listening [1; 2; 1]) 0 "click") /\
  (forall h' event', ~ (h' = 0 /\ event' = "click") ->
     registered (removeEventListener 0 "click" 1 (listening [1; 2; 1])) h' event'
     = registered (listening [1; 2; 1]) h' event') /\
  (forall l cbs, lists (listening [1; 2; 1]) !! l = Some cbs ->
     lists (removeEventListener 0 "click" 1 (listening [1; 2; 1])) !! l = Some cbs) /\
  calls (removeEventListener 0 "click" 1 (listening [1; 2; 1]))
    = calls (listening [1; 2; 1]) /\
  sound_world (removeEventListener 0 "click" 1 (listening [1; 2; 1])).
Proof.
  apply (removeEventListener_filters string (listening [1; 2; 1]) 0 "click" 1).
  apply sound_listening.
Defined.

Lemma addEventListener_appends_witness :
  registered (addEventListener 0 "click" 1 (listening [1; 2])) 0 "click"
    = registered (listening [1; 2]) 0 "click" ++ [1] /\
  (forall h' event', ~ (h' = 0 /\ event' = "click") ->
     registered (addEventListener 0 "click" 1 (listening [1; 2])) h' event'
     = registered (listening [1; 2]) h' event') /\
  calls (addEventListener 0 "click" 1 (listening [1; 2]))
    = calls (listening [1; 2]) /\
  map tag (elems (addEventListener 0 "click" 1 (listening [1; 2])))
    = map tag (elems (listening [1; 2])) /\
  sound_world (addEventListener 0 "click" 1 (listening [1; 2])).
Proof.
  apply (addEventListener_appends string (listening [1; 2]) 0 "click" 1).
  - apply sound_listening.
  - vm_compute. lia.
Defined.

Lemma removeEventListener_undoes_addEventListener_witness :
  registered (removeEventListener 0 "click" 3
                (addEventListener 0 "click" 3 (listening [1; 2]))) 0 "click"
  = registered (listening [1; 2]) 0 "click".
Proof.
  apply (removeEventListener_undoes_addEventListener string
           (listening [1; 2]) 0 "click" 3).
  - apply sound_listening.
  - vm_compute. lia.
  - vm_compute. intros [H|[H|[]]]; discriminate.
Defined.

Lemma self_registering_listener_never_returns_witness :
  triggerEvent reregistering 1000 0 "click" "now" (listening [1]) = None.
Proof.
  apply (self_registering_listener_never_returns string reregistering
           (listening [1]) 0 "click" 1 "now").
  - apply sound_listening.
  - vm_compute. left. reflexivity.
  - left. reflexivity.
  - intros c a [<-|[]]. simpl. tauto.
Defined.

(** ** Parsed documents in the heap *)

Lemma preserved_kind s s' x :
  preserved s s' -> x < length s -> kind_of s' x = kind_of s x.
Proof. intros Hp Hx. unfold kind_of. rewrite Hp by exact Hx. reflexivity. Qed.

(** The children of a tag are loaded as a forest under it. *)
Lemma load_tag p nm ats cs s :
  load p (HTag nm ats cs) s
  = (length s,
     set_contents (length s)
       (fst (load_forest (length s) cs
               (s ++ [mkNode KTag nm ats [] (Some p) EmptyString])))
       (snd (load_forest (length s) cs
               (s ++ [mkNode KTag nm ats [] (Some p) EmptyString])))).
Proof.
  cbn [load].
  set (s0 := s ++ [mkNode KTag nm ats [] (Some p) EmptyString]).
  set (load_all := fix load_all (cs0 : list html) (s' : store) {struct cs0} :=
         match cs0 with
         | [] => ([], s')
         | c :: cs' =>
             let '(i, s1) := load (length s) c s' in
             let '(ids, s2) := load_all cs' s1 in (i :: ids, s2)
         end).
  assert (Hall : forall cs0 s1, load_all cs0 s1 = load_forest (length s) cs0 s1).
  { induction cs0 as [|c cs0 IH]; intros s1; [reflexivity|].
    cbn [load_all load_forest].
    destruct (load (length s) c s1) as [i s2]. rewrite IH. reflexivity. }
  rewrite Hall. destruct (load_forest (length s) cs s0); reflexivity.
Qed.

Lemma grafted_text p s txt :
  grafted p (length s) [length s]
    (s ++ [mkNode KText EmptyString [] [] (Some p) txt]).
Proof.
  assert (Hlen : length (s ++ [mkNode KText EmptyString [] [] (Some p) txt])
                 = S (length s)) by (rewrite length_app; simpl; lia).
  assert (Hnode : (s ++ [mkNode KText EmptyString [] [] (Some p) txt]) !! length s
                  = Some (mkNode KText EmptyString [] [] (Some p) txt))
    by (apply list_lookup_middle; reflexivity).
  split; [|split; [|split]].
  - apply NoDup_singleton.
  - intros r [<-|[]]. rewrite Hlen. split; [lia|].
    unfold parent_of. rewrite Hnode. reflexivity.
  - intros y Hy. rewrite Hlen in Hy. assert (y = length s) as -> by lia.
    unfold kind_of, contents_of. rewrite Hnode. simpl.
    split; [discriminate|]. split; [constructor|]. left. left. reflexivity.
  - intros q c Hq. rewrite Hlen in Hq. assert (q = length s) as -> by lia.
    unfold contents_of. rewrite Hnode. intros [].
Qed.

Lemma grafted_tag p x s0 s1 ids :
  length s0 = S x -> preserved s0 s1 -> length s0 <= length s1 ->
  kind_of s0 x = KTag -> parent_of s0 x = Some p ->
  grafted x (S x) ids s1 ->
  grafted p x [x] (set_contents x ids s1).
Proof.
  intros Hlen0 Hpres Hle Hkind Hpar (Hnd & Hroots & Hobj & Hkids).
  assert (Hx : x < length s1) by lia.
  split; [|split; [|split]].
  - apply NoDup_singleton.
  - intros r [<-|[]]. rewrite length_set_contents. split; [lia|].
    rewrite parent_of_set_contents.
    rewrite (preserved_parent s0 s1) by (assumption || lia). exact Hpar.
  - intros y Hy. rewrite length_set_contents in Hy.
    rewrite kind_of_set_contents.
    destruct (decide (y = x)) as [->|Hne].
    + rewrite contents_of_set_contents_eq by exact Hx.
      rewrite (preserved_kind s0 s1) by (assumption || lia). rewrite Hkind.
      split; [discriminate|]. split; [exact Hnd|]. left. left. reflexivity.
    + rewrite contents_of_set_contents_ne by exact Hne.
      destruct (Hobj y) as (Hk & Hndy & Hwhere); [lia|].
      split; [exact Hk|]. split; [exact Hndy|]. right.
      destruct Hwhere as [Hroot|(q & Hq & Hpq & Hin)].
      * exists x. split; [lia|]. rewrite parent_of_set_contents.
        split; [apply Hroots; exact Hroot|].
        rewrite contents_of_set_contents_eq by exact Hx. exact Hroot.
      * exists q. split; [lia|]. rewrite parent_of_set_contents.
        split; [exact Hpq|].
        rewrite contents_of_set_contents_ne by lia. exact Hin.
  - intros q c Hq. rewrite length_set_contents in Hq |- *.
    rewrite parent_of_set_contents.
    destruct (decide (q = x)) as [->|Hne].
    + rewrite contents_of_set_contents_eq by exact Hx. intros Hc.
      destruct (Hroots c Hc) as (Hrange & Hpc). split; [lia|exact Hpc].
    + rewrite contents_of_set_contents_ne by exact Hne. intros Hc.
      apply Hkids; [lia|exact Hc].
Qed.

Lemma grafted_nil p s : grafted p (length s) [] s.
Proof.
  split; [|split; [|split]].
  - constructor.
  - intros r [].
  - intros y Hy. lia.
  - intros q c Hq. lia.
Qed.

Lemma grafted_cons p lo i ids s1 s2 :
  grafted p lo [i] s1 -> preserved s1 s2 -> length s1 <= length s2 ->
  lo <= length s1 ->
  grafted p (length s1) ids s2 ->
  grafted p lo (i :: ids) s2.
Proof.
  intros (_ & Hroots1 & Hobj1 & Hkids1) Hpres Hle Hlo
         (Hnd2 & Hroots2 & Hobj2 & Hkids2).
  assert (Hi : lo <= i < length s1) by (apply Hroots1; left; reflexivity).
  split; [|split; [|split]].
  - apply NoDup_cons. split; [|exact Hnd2].
    intros Hin. apply list_elem_of_In in Hin. apply Hroots2 in Hin. lia.
  - intros r [<-|Hr].
    + split; [lia|]. rewrite (preserved_parent s1 s2) by (assumption || lia).
      apply Hroots1. left. reflexivity.
    + destruct (Hroots2 r Hr) as (Hrange & Hpr). split; [lia|exact Hpr].
  - intros y Hy. destruct (le_lt_dec (length s1) y) as [Hnew|Hold].
    + destruct (Hobj2 y) as (Hk & Hndy & Hwhere); [lia|].
      split; [exact Hk|]. split; [exact Hndy|].
      destruct Hwhere as [Hroot|(q & Hq & Hpq & Hin)].
      * left. right. exact Hroot.
      * right. exists q. split; [lia|]. split; assumption.
    + destruct (Hobj1 y) as (Hk & Hndy & Hwhere); [lia|].
      rewrite (preserved_kind s1 s2), (preserved_contents s1 s2)
        by (assumption || lia).
      split; [exact Hk|]. split; [exact Hndy|].
      destruct Hwhere as [[<-|[]]|(q & Hq & Hpq & Hin)].
      * left. left. reflexivity.
      * right. exists q. split; [lia|].
        rewrite (preserved_parent s1 s2), (preserved_contents s1 s2)
          by (assumption || lia).
        split; assumption.
  - intros q c Hq Hc. destruct (le_lt_dec (length s1) q) as [Hnew|Hold].
    + destruct (Hkids2 q c) as (Hrange & Hpc); [lia|exact Hc|].
      split; [lia|exact Hpc].
    + rewrite (preserved_contents s1 s2) in Hc by (assumption || lia).
      destruct (Hkids1 q c) as (Hrange & Hpc); [lia|exact Hc|].
      split; [lia|].
      rewrite (preserved_parent s1 s2) by (assumption || lia). exact Hpc.
Qed.

Lemma load_forest_grafted_from hs :
  Forall (fun h => forall p s,
            grafted p (length s) [fst (load p h s)] (snd (load p h s))) hs ->
  forall p s,
    grafted p (length s) (fst (load_forest p hs s)) (snd (load_forest p hs s)).
Proof.
  induction 1 as [|h hs Hh _ IH]; intros p s.
  - apply grafted_nil.
  - cbn [load_forest]. specialize (Hh p s).
    destruct (load_preserved h p s) as (_ & Hlt & Hp1).
    destruct (load p h s) as [i s1]. simpl in Hh, Hlt, Hp1.
    specialize (IH p s1).
    destruct (load_forest_preserved p hs s1) as (_ & Hle & Hp2).
    destruct (load_forest p hs s1) as [ids s2]. simpl in *.
    apply (grafted_cons p (length s) i ids s1 s2); try assumption. lia.
Qed.

Lemma load_grafted h : forall p s,
  grafted p (length s) [fst (load p h s)] (snd (load p h s)).
Proof.
  induction h as [txt|nm ats cs IH] using html_nested_ind; intros p s.
  - apply grafted_text.
  - rewrite load_tag. cbn [fst snd].
    set (s0 := s ++ [mkNode KTag nm ats [] (Some p) EmptyString]).
    assert (Hs0 : length s0 = S (length s))
      by (unfold s0; rewrite length_app; simpl; lia).
    assert (Hnode : s0 !! length s
                    = Some (mkNode KTag nm ats [] (Some p) EmptyString))
      by (apply list_lookup_middle; reflexivity).
    pose proof (load_forest_grafted_from cs IH (length s) s0) as Hg.
    destruct (load_forest_preserved (length s) cs s0) as (_ & Hle & Hp).
    rewrite Hs0 in Hg.
    apply (grafted_tag p (length s) s0); try assumption.
    + unfold kind_of. rewrite Hnode. reflexivity.
    + unfold parent_of. rewrite Hnode. reflexivity.
Qed.

Lemma load_forest_grafted p hs s :
  grafted p (length s) (fst (load_forest p hs s)) (snd (load_forest p hs s)).
Proof.
  apply load_forest_grafted_from. apply Forall_forall.
  intros h _. apply load_grafted.
Qed.

(** A well-formed heap with trees grafted under a new root is well
    formed, and the old objects have the ancestors they had. *)
Lemma grafted_well_formed s s' ids :
  well_formed s -> preserved s s' -> length s < length s' ->
  parent_of s' (length s) = None -> contents_of s' (length s) = ids ->
  grafted (length s) (S (length s)) ids s' ->
  well_formed s' /\
  forall a n, ancestor s' a n ->
    (n < length s /\ ancestor s a n) \/ (length s < n /\ a < n).
Proof.
  intros (Hsym & Hnodup & Hac) Hpres Hlt Hroot Hids (Hnd & Hroots & Hobj & Hkids).
  assert (Hparent : forall n p, parent_of s' n = Some p ->
            (n < length s /\ p < length s /\ parent_of s n = Some p) \/
            (length s < n /\ p < n /\ length s <= p)).
  { intros n p Hp. pose proof (parent_in_range _ _ _ Hp) as Hn.
    destruct (lt_eq_lt_dec n (length s)) as [[Hold| ->]|Hnew].
    - left. rewrite (preserved_parent s s') in Hp by assumption.
      split; [exact Hold|]. split; [|exact Hp].
      apply Hsym in Hp. eapply child_in_range. exact Hp.
    - congruence.
    - right. split; [exact Hnew|].
      destruct (Hobj n) as (_ & _ & [Hr|(q & Hq & Hpq & _)]); [lia| |].
      + destruct (Hroots n Hr) as (_ & Hpn). rewrite Hpn in Hp.
        injection Hp as <-. lia.
      + rewrite Hpq in Hp. injection Hp as <-. lia. }
  assert (Hanc : forall a n, ancestor s' a n ->
            (n < length s /\ ancestor s a n) \/ (length s < n /\ a < n)).
  { intros a n Han. induction Han as [n p Hp|n p a Hp Hap IH].
    - destruct (Hparent n p Hp) as [(Hn & _ & Hps)|(Hn & Hpn & _)].
      + left. split; [exact Hn|]. apply ancestor_parent. exact Hps.
      + right. lia.
    - destruct (Hparent n p Hp) as [(Hn & Hpl & Hps)|(Hn & Hpn & Hpl)].
      + left. split; [exact Hn|]. destruct IH as [(_ & IH)|(IH & _)]; [|lia].
        eapply ancestor_step; eauto.
      + right. split; [exact Hn|]. destruct IH as [(IH & _)|(_ & IH)]; [lia|].
        lia. }
  split; [|exact Hanc]. split; [|split].
  - intros n p. split.
    + intros Hp. pose proof (parent_in_range _ _ _ Hp) as Hn.
      destruct (lt_eq_lt_dec n (length s)) as [[Hold| ->]|Hnew].
      * rewrite (preserved_parent s s') in Hp by assumption.
        apply Hsym in Hp. pose proof (child_in_range _ _ _ Hp) as Hpl.
        rewrite (preserved_contents s s') by assumption. exact Hp.
      * congruence.
      * destruct (Hobj n) as (_ & _ & [Hr|(q & Hq & Hpq & Hin)]); [lia| |].
        -- destruct (Hroots n Hr) as (_ & Hpn). rewrite Hpn in Hp.
           injection Hp as <-. rewrite Hids. exact Hr.
        -- rewrite Hpq in Hp. injection Hp as <-. exact Hin.
    + intros Hin. pose proof (child_in_range _ _ _ Hin) as Hp.
      destruct (lt_eq_lt_dec p (length s)) as [[Hold| ->]|Hnew].
      * rewrite (preserved_contents s s') in Hin by assumption.
        apply Hsym in Hin. pose proof (parent_in_range _ _ _ Hin) as Hn.
        rewrite (preserved_parent s s') by assumption. exact Hin.
      * rewrite Hids in Hin. apply Hroots. exact Hin.
      * apply (Hkids p n); [lia|exact Hin].
  - intros p. destruct (lt_eq_lt_dec p (length s)) as [[Hold| ->]|Hnew].
    + rewrite (preserved_contents s s') by assumption. apply Hnodup.
    + rewrite Hids. exact Hnd.
    + destruct (le_lt_dec (length s') p) as [Hout|Hin].
      * unfold contents_of. rewrite lookup_ge_None_2 by exact Hout. constructor.
      * apply Hobj. lia.
  - intros n Hnn. destruct (Hanc n n Hnn) as [(_ & H)|(_ & H)]; [|lia].
    exact (Hac n H).
Qed.

(** [BeautifulSoup] on a well-formed heap: the heap stays well formed,
    the new root has no parent, and its children are new objects, none a
    root object, each with the root as its parent. *)
Lemma BeautifulSoup_well_formed forest s :
  well_formed s ->
  exists s',
    BeautifulSoup forest s = Ok (length s) s' /\
    preserved s s' /\ length s < length s' /\ well_formed s' /\
    parent_of s' (length s) = None /\
    kind_of s' (length s) = KSoup /\
    length (contents_of s' (length s)) = length forest /\
    grafted (length s) (S (length s)) (contents_of s' (length s)) s' /\
    (forall a n, n < length s -> ancestor s' a n -> ancestor s a n).
Proof.
  intros Hwf. unfold BeautifulSoup.
  set (s0 := s ++ [mkNode KSoup "[document]" [] [] None EmptyString]).
  assert (Hs0 : length s0 = S (length s))
    by (unfold s0; rewrite length_app; simpl; lia).
  assert (Hnode : s0 !! length s
                  = Some (mkNode KSoup "[document]" [] [] None EmptyString))
    by (apply list_lookup_middle; reflexivity).
  pose proof (load_forest_grafted (length s) forest s0) as Hg.
  destruct (load_forest_preserved (length s) forest s0) as (Hlen & Hle & Hp).
  destruct (load_forest (length s) forest s0) as [ids s1]. simpl in *.
  set (s' := set_contents (length s) ids s1).
  assert (Hcontents : contents_of s' (length s) = ids)
    by (apply contents_of_set_contents_eq; lia).
  assert (Hpres : preserved s s').
  { apply preserved_alter_above; [lia|].
    apply (preserved_trans s s0 s1); [lia|apply preserved_app|exact Hp]. }
  assert (Hroot : parent_of s' (length s) = None).
  { unfold s'. rewrite parent_of_set_contents.
    rewrite (preserved_parent s0 s1) by (assumption || lia).
    unfold parent_of. rewrite Hnode. reflexivity. }
  assert (Hg' : grafted (length s) (S (length s)) ids s').
  { rewrite Hs0 in Hg. destruct Hg as (Hnd & Hroots & Hobj & Hkids).
    split; [exact Hnd|]. unfold s'. split; [|split].
    - intros r Hr. rewrite length_set_contents, parent_of_set_contents.
      apply Hroots. exact Hr.
    - intros y Hy. rewrite length_set_contents in Hy.
      rewrite kind_of_set_contents, contents_of_set_contents_ne by lia.
      destruct (Hobj y Hy) as (Hk & Hndy & Hwhere).
      split; [exact Hk|]. split; [exact Hndy|].
      destruct Hwhere as [Hr|(q & Hq & Hpq & Hin)]; [left; exact Hr|].
      right. exists q. split; [exact Hq|].
      rewrite parent_of_set_contents, contents_of_set_contents_ne by lia.
      split; assumption.
    - intros q c Hq. rewrite length_set_contents in Hq |- *.
      rewrite parent_of_set_contents, contents_of_set_contents_ne by lia.
      apply Hkids. exact Hq. }
  assert (Hlt : length s < length s')
    by (unfold s'; rewrite length_set_contents; lia).
  destruct (grafted_well_formed s s' ids Hwf Hpres Hlt Hroot Hcontents Hg')
    as (Hwf' & Hanc).
  exists s'. split; [reflexivity|]. split; [exact Hpres|].
  split; [exact Hlt|]. split; [exact Hwf'|]. split; [exact Hroot|].
  split; [|split; [|split]].
  - unfold s'. rewrite kind_of_set_contents.
    rewrite (preserved_kind s0 s1) by (assumption || lia).
    unfold kind_of. rewrite Hnode. reflexivity.
  - rewrite Hcontents. exact Hlen.
  - rewrite Hcontents. exact Hg'.
  - intros a n Hn Han. destruct (Hanc a n Han) as [(_ & H)|(H & _)];
      [exact H|lia].
Qed.

(** ** Moving the children of a parsed fragment *)

Lemma rev_ind_case {A} (l : list A) :
  l = [] \/ exists l' x, l = l' ++ [x].
Proof.
  induction l as [|x l _] using rev_ind; [left; reflexivity|].
  right. exists l, x. reflexivity.
Qed.

Lemma without_middle c (A R : list nat) :
  NoDup (A ++ c :: R) -> without c (A ++ c :: R) = A ++ R.
Proof.
  intros Hnd. apply NoDup_app in Hnd as (HA & Hdisj & HR).
  apply NoDup_cons in HR as (HcR & HR).
  unfold without. rewrite List.filter_app. simpl. rewrite Nat.eqb_refl. simpl.
  fold (without c A). fold (without c R).
  rewrite !without_absent; [reflexivity| |].
  - intros H. apply HcR. apply list_elem_of_In. exact H.
  - intros H. apply (Hdisj c); [apply list_elem_of_In; exact H|left].
Qed.

Lemma handed_donor s s' r t c l :
  donor s r t -> In c (contents_of s r) -> well_formed s' ->
  handed_over [c] r t (without c (contents_of s r)) l s s' ->
  donor s' r t.
Proof.
  intros (Hwf & Hrt & Ht & Hnot & Hkinds) Hc Hwf'
         (Hlen & Hlab & Hpin & Hpout & Hr & _ & _).
  pose proof Hwf as (Hsym & _ & _).
  assert (Hpc : parent_of s c = Some r) by (apply Hsym; exact Hc).
  assert (Hct : c <> t).
  { intros ->. apply Hnot. apply ancestor_parent. exact Hpc. }
  assert (Hnotc : ~ ancestor s c t).
  { intros H. apply Hnot. eapply ancestor_trans; [|exact H].
    apply ancestor_parent. exact Hpc. }
  split; [exact Hwf'|]. split; [exact Hrt|]. split; [lia|]. split.
  - intros Hanc.
    destruct (ancestor_reparented s s' c t) with (a := r) (b := t)
      as [H|[[H|H] _]]; try assumption.
    + intros x Hx. apply Hpout. intros [->|[]]. congruence.
    + apply Hpin. left. reflexivity.
    + contradiction.
    + congruence.
    + contradiction.
  - intros c' Hc'. rewrite Hr in Hc'. apply In_without in Hc' as [_ Hc'].
    rewrite (kind_of_label s s') by apply Hlab. apply Hkinds. exact Hc'.
Qed.

(** One child of [r] inserted in [t]. *)
Lemma donor_insert s r t position c :
  donor s r t -> In c (contents_of s r) ->
  exists s',
    insert t position c s = Ok tt s' /\ donor s' r t /\
    handed_over [c] r t (without c (contents_of s r))
      (list_insert_at (min position (length (contents_of s t))) c
         (contents_of s t)) s s'.
Proof.
  intros Hdonor Hc. pose proof Hdonor as (Hwf & Hrt & Ht & Hnot & Hkinds).
  pose proof Hwf as (Hsym & _ & _).
  assert (Hpc : parent_of s c = Some r) by (apply Hsym; exact Hc).
  assert (Hct : c <> t).
  { intros ->. apply Hnot. apply ancestor_parent. exact Hpc. }
  assert (Hnotc : ~ ancestor s c t).
  { intros H. apply Hnot. eapply ancestor_trans; [|exact H].
    apply ancestor_parent. exact Hpc. }
  assert (Hcl : c < length s) by (eapply parent_in_range; exact Hpc).
  assert (Hout : forall x, x <> r -> ~ In c (contents_of s x)).
  { intros x Hx Hin. apply Hsym in Hin. congruence. }
  destruct (insert_relocates s t position c) as (s' & Hrun & Hrel & Hm);
    try assumption; [apply Hkinds; exact Hc|].
  assert (Hland : landing s t position c
                  = min position (length (contents_of s t))).
  { unfold landing. rewrite index_absent; [reflexivity|].
    apply Hout. congruence. }
  rewrite Hland in Hm. destruct Hm as (Hlen & Hp & Hcs & Hlab).
  assert (Hover : handed_over [c] r t (without c (contents_of s r))
            (list_insert_at (min position (length (contents_of s t))) c
               (contents_of s t)) s s').
  { split; [exact Hlen|]. split; [exact Hlab|]. split; [|split; [|split; [|split]]].
    - intros x [<-|[]]. rewrite Hp. destruct (decide (c = c)); congruence.
    - intros x Hx. rewrite Hp. destruct (decide (x = c)) as [->|]; [|reflexivity].
      exfalso. apply Hx. left. reflexivity.
    - rewrite Hcs. destruct (decide (r = t)); [contradiction|reflexivity].
    - rewrite Hcs. destruct (decide (t = t)); [|congruence].
      rewrite without_absent; [reflexivity|]. apply Hout. congruence.
    - intros x Hxr Hxt. rewrite Hcs. destruct (decide (x = t)); [contradiction|].
      apply without_absent. apply Hout. exact Hxr. }
  exists s'. split; [exact Hrun|]. split; [|exact Hover].
  eapply handed_donor; eauto. apply Hrel.
Qed.

Lemma handed_over_nil s r t :
  handed_over [] r t (contents_of s r) (contents_of s t) s s.
Proof.
  split; [reflexivity|]. split; [reflexivity|]. split; [intros x []|].
  split; [reflexivity|]. split; [reflexivity|]. split; reflexivity.
Qed.

Lemma handed_over_cons c cs r t l1 lr lt s s1 s' :
  r <> t ->
  handed_over [c] r t (without c (contents_of s r)) l1 s s1 ->
  handed_over cs r t lr lt s1 s' ->
  handed_over (c :: cs) r t lr lt s s'.
Proof.
  intros Hrt (Hlen1 & Hlab1 & Hin1 & Hout1 & Hr1 & Ht1 & Hx1)
         (Hlen2 & Hlab2 & Hin2 & Hout2 & Hr2 & Ht2 & Hx2).
  split; [lia|]. split; [intros x; rewrite Hlab2; apply Hlab1|].
  split; [|split; [|split; [|split]]].
  - intros x Hx. destruct (in_dec Nat.eq_dec x cs) as [Hcs|Hcs].
    + apply Hin2. exact Hcs.
    + rewrite Hout2 by exact Hcs. apply Hin1.
      destruct Hx as [<-|Hx]; [left; reflexivity|contradiction].
  - intros x Hx. rewrite Hout2 by (intros H; apply Hx; right; exact H).
    apply Hout1. intros [<-|[]]. apply Hx. left. reflexivity.
  - exact Hr2.
  - exact Ht2.
  - intros x Hxr Hxt. rewrite Hx2 by assumption. apply Hx1; assumption.
Qed.

Section Transfer.

(** The donor [r], the receiver [t], the body of the loop, where it puts
    the child in the receiver's list, and what it needs of the heap
    besides [donor]. *)
Variables r t : nat.
Variable body : nat -> M unit.
Variable place : nat -> list nat -> list nat.
Variable ready : store -> Prop.

Hypothesis body_hands : forall s c,
  donor s r t -> ready s -> In c (contents_of s r) ->
  exists s',
    body c s = Ok tt s' /\ donor s' r t /\ ready s' /\
    handed_over [c] r t (without c (contents_of s r))
      (place c (contents_of s t)) s s'.

(** The loop over the live list of [r]: the child at the index is
    handed over, which moves the next child into its place, and the
    index goes on; every other child stays with [r]. *)
Lemma for_contents_transfer : forall fuel s A B,
  donor s r t -> ready s -> contents_of s r = A ++ B -> length B < fuel ->
  exists s',
    for_contents fuel r (length A) body s = Ok tt s' /\
    donor s' r t /\ ready s' /\
    handed_over (alternate true B) r t (A ++ alternate false B)
      (fold_left (fun l c => place c l) (alternate true B) (contents_of s t))
      s s'.
Proof.
  induction fuel as [|f IH]; intros s A B Hdonor Hready HAB Hfuel; [lia|].
  cbn [for_contents]. rewrite (bind_Ok get_store _ s s s) by reflexivity.
  rewrite HAB.
  destruct B as [|c B].
  - rewrite app_nil_r in HAB |- *. rewrite lookup_ge_None_2 by lia.
    exists s. split; [reflexivity|]. split; [exact Hdonor|].
    split; [exact Hready|]. simpl. rewrite app_nil_r, <- HAB.
    apply handed_over_nil.
  - rewrite list_lookup_middle by reflexivity.
    assert (Hc : In c (contents_of s r))
      by (rewrite HAB; apply in_or_app; right; left; reflexivity).
    destruct (body_hands s c Hdonor Hready Hc) as (s1 & Hrun & Hdonor1 & Hready1 & Hover1).
    rewrite (bind_Ok _ _ s tt s1) by exact Hrun.
    assert (Hnd : NoDup (A ++ c :: B))
      by (rewrite <- HAB; apply Hdonor).
    assert (Hr1 : contents_of s1 r = A ++ B).
    { destruct Hover1 as (_ & _ & _ & _ & Hr & _). rewrite Hr, HAB.
      apply without_middle. exact Hnd. }
    assert (Ht1 : contents_of s1 t = place c (contents_of s t))
      by apply Hover1.
    assert (Hrt : r <> t) by apply Hdonor.
    destruct B as [|y B].
    + destruct f as [|f]; [simpl in Hfuel; lia|].
      cbn [for_contents]. rewrite (bind_Ok get_store _ s1 s1 s1) by reflexivity.
      rewrite Hr1, app_nil_r, lookup_ge_None_2 by lia.
      exists s1. split; [reflexivity|]. split; [exact Hdonor1|].
      split; [exact Hready1|]. simpl.
      apply (handed_over_cons c [] r t _ _ _ s s1 s1 Hrt Hover1).
      rewrite <- Ht1. rewrite app_nil_r in Hr1 |- *. rewrite <- Hr1.
      apply handed_over_nil.
    + destruct (IH s1 (A ++ [y]) B Hdonor1 Hready1) as (s' & Hrun' & Hdonor' & Hready' & Hover').
      * rewrite Hr1, <- app_assoc. reflexivity.
      * simpl in Hfuel. lia.
      * rewrite length_app in Hrun'. simpl in Hrun'.
        rewrite Nat.add_1_r in Hrun'.
        exists s'. split; [exact Hrun'|]. split; [exact Hdonor'|].
        split; [exact Hready'|]. cbn [alternate fold_left].
        apply (handed_over_cons c _ r t _ _ _ s s1 s' Hrt Hover1).
        rewrite <- app_assoc in Hover'. rewrite Ht1 in Hover'. exact Hover'.
Qed.

(** The loop over the reversed list of [r]: every child is handed over,
    the last one first. *)
Lemma for_reversed_transfer : forall k s ids,
  donor s r t -> ready s -> contents_of s r = ids -> length ids = k ->
  exists s',
    for_reversed r k body s = Ok tt s' /\
    donor s' r t /\ ready s' /\
    handed_over (rev ids) r t []
      (fold_left (fun l c => place c l) (rev ids) (contents_of s t)) s s'.
Proof.
  induction k as [|k IH]; intros s ids Hdonor Hready Hids Hlen.
  - destruct ids; [|discriminate]. exists s. split; [reflexivity|].
    split; [exact Hdonor|]. split; [exact Hready|]. simpl.
    pose proof (handed_over_nil s r t) as Hnil. rewrite Hids in Hnil.
    exact Hnil.
  - destruct (rev_ind_case ids) as [->|(ids' & c & ->)]; [discriminate|].
    rewrite length_app in Hlen. simpl in Hlen.
    assert (Hk : length ids' = k) by lia.
    cbn [for_reversed]. rewrite (bind_Ok get_store _ s s s) by reflexivity.
    rewrite Hids, <- Hk, list_lookup_middle by reflexivity.
    assert (Hc : In c (contents_of s r))
      by (rewrite Hids; apply in_or_app; right; left; reflexivity).
    destruct (body_hands s c Hdonor Hready Hc) as (s1 & Hrun & Hdonor1 & Hready1 & Hover1).
    rewrite (bind_Ok _ _ s tt s1) by exact Hrun.
    assert (Hnd : NoDup (ids' ++ [c]))
      by (rewrite <- Hids; apply Hdonor).
    assert (Hr1 : contents_of s1 r = ids').
    { destruct Hover1 as (_ & _ & _ & _ & Hr & _). rewrite Hr, Hids.
      rewrite (without_middle c ids' []) by exact Hnd. apply app_nil_r. }
    assert (Ht1 : contents_of s1 t = place c (contents_of s t))
      by apply Hover1.
    destruct (IH s1 ids' Hdonor1 Hready1 Hr1 Hk) as (s' & Hrun' & Hdonor' & Hready' & Hover').
    rewrite Hk. exists s'. split; [exact Hrun'|]. split; [exact Hdonor'|].
    split; [exact Hready'|].
    rewrite rev_app_distr. cbn [rev app fold_left].
    eapply (handed_over_cons c _ r t _ _ _ s s1 s'); [apply Hdonor|exact Hover1|].
    rewrite Ht1 in Hover'. exact Hover'.
Qed.

End Transfer.

(** *** The four loop bodies *)

Lemma append_hands r t s c :
  donor s r t -> True -> In c (contents_of s r) ->
  exists s',
    append t c s = Ok tt s' /\ donor s' r t /\ True /\
    handed_over [c] r t (without c (contents_of s r))
      (place_last c (contents_of s t)) s s'.
Proof.
  intros Hdonor _ Hc.
  destruct (donor_insert s r t (length (contents_of s t)) c Hdonor Hc)
    as (s' & Hrun & Hdonor' & Hover).
  exists s'. unfold append. rewrite (bind_Ok get_store _ s s s) by reflexivity.
  split; [exact Hrun|]. split; [exact Hdonor'|]. split; [exact I|].
  rewrite Nat.min_id, list_insert_at_end in Hover. exact Hover.
Qed.

Lemma insert_first_hands r t s c :
  donor s r t -> True -> In c (contents_of s r) ->
  exists s',
    insert t 0 c s = Ok tt s' /\ donor s' r t /\ True /\
    handed_over [c] r t (without c (contents_of s r))
      (place_first c (contents_of s t)) s s'.
Proof.
  intros Hdonor _ Hc.
  destruct (donor_insert s r t 0 c Hdonor Hc) as (s' & Hrun & Hdonor' & Hover).
  exists s'. split; [exact Hrun|]. split; [exact Hdonor'|]. split; [exact I|].
  rewrite Nat.min_0_l, list_insert_at_front in Hover. exact Hover.
Qed.

(** [insert_before] and [insert_after] of a child [x] of [t]. *)
Lemma insert_beside_hands (after : bool) x r t s c :
  donor s r t -> parent_of s x = Some t -> In c (contents_of s r) ->
  exists s',
    (if after then insert_after x c s else insert_before x c s) = Ok tt s' /\
    donor s' r t /\ parent_of s' x = Some t /\
    handed_over [c] r t (without c (contents_of s r))
      ((if after then place_after x c else place_before x c) (contents_of s t))
      s s'.
Proof.
  intros Hdonor Hx Hc. pose proof Hdonor as (Hwf & Hrt & Ht & Hnot & Hkinds).
  pose proof Hwf as (Hsym & _ & _).
  assert (Hpc : parent_of s c = Some r) by (apply Hsym; exact Hc).
  assert (Hcx : c <> x) by congruence.
  assert (Hct : c <> t).
  { intros ->. apply Hnot. apply ancestor_parent. exact Hpc. }
  assert (Hnotc : ~ ancestor s c t).
  { intros H. apply Hnot. eapply ancestor_trans; [|exact H].
    apply ancestor_parent. exact Hpc. }
  assert (Hcl : c < length s) by (eapply parent_in_range; exact Hpc).
  assert (Hout : forall y, y <> r -> ~ In c (contents_of s y)).
  { intros y Hy Hin. apply Hsym in Hin. congruence. }
  destruct (extract_spec s c Hwf) as (s1 & Hex & Hext).
  pose proof (extracted_well_formed s s1 c Hwf Hext) as Hwf1.
  pose proof Hext as (Hlen1 & Hp1 & Hc1 & Hl1).
  assert (Hct1 : contents_of s1 t = contents_of s t).
  { rewrite Hc1. apply without_absent. apply Hout. congruence. }
  assert (Hin : In x (contents_of s t)) by (apply Hsym; exact Hx).
  destruct (index_In _ _ Hin) as [i Hi].
  pose proof (index_lt _ _ _ Hi) as Hilt.
  assert (Hins : forall position, position <= length (contents_of s t) ->
            exists s',
              insert t position c s1 = Ok tt s' /\ donor s' r t /\
              parent_of s' x = Some t /\
              handed_over [c] r t (without c (contents_of s r))
                (list_insert_at position c (contents_of s t)) s s').
  { intros position Hpos.
    destruct (insert_detached s1 t position c) as (s' & Hrun & Hwf' & Hat);
      try assumption; try lia.
    - intros Hanc. apply Hnotc. eapply ancestor_extracted; eauto.
    - rewrite Hp1. destruct (decide (c = c)); congruence.
    - rewrite (kind_of_label _ _ _ (Hl1 c)). apply Hkinds. exact Hc.
    - destruct Hat as (Hlen' & Hlab' & Hp' & Hc').
      assert (Hover : handed_over [c] r t (without c (contents_of s r))
                (list_insert_at position c (contents_of s t)) s s').
      { split; [lia|]. split; [intros y; rewrite Hlab'; apply Hl1|].
        split; [|split; [|split; [|split]]].
        - intros y [<-|[]]. rewrite Hp'. destruct (decide (c = c)); congruence.
        - intros y Hy. rewrite Hp', Hp1.
          destruct (decide (y = c)) as [->|]; [|reflexivity].
          exfalso. apply Hy. left. reflexivity.
        - rewrite Hc'. destruct (decide (r = t)); [contradiction|]. apply Hc1.
        - rewrite Hc'. destruct (decide (t = t)); [|congruence].
          rewrite Hct1, Nat.min_l by lia. reflexivity.
        - intros y Hyr Hyt. rewrite Hc'.
          destruct (decide (y = t)); [contradiction|].
          rewrite Hc1. apply without_absent. apply Hout. exact Hyr. }
      exists s'. split; [exact Hrun|]. split; [|split; [|exact Hover]].
      + eapply handed_donor; eauto.
      + rewrite Hp', Hp1. destruct (decide (x = c)); congruence. }
  destruct after.
  - destruct (Hins (S i)) as (s' & Hrun & Hrest); [lia|]. exists s'.
    unfold place_after. rewrite Hi. split; [|exact Hrest].
    unfold insert_after. rewrite (bind_Ok get_store _ s s s) by reflexivity.
    rewrite Hx. destruct (decide (c = x)); [contradiction|].
    rewrite (bind_Ok _ _ s tt s1) by exact Hex.
    rewrite (bind_Ok get_store _ s1 s1 s1) by reflexivity.
    rewrite Hct1, Hi. exact Hrun.
  - destruct (Hins i) as (s' & Hrun & Hrest); [lia|]. exists s'.
    unfold place_before. rewrite Hi. split; [|exact Hrest].
    unfold insert_before. rewrite (bind_Ok get_store _ s s s) by reflexivity.
    rewrite Hx. destruct (decide (c = x)); [contradiction|].
    rewrite (bind_Ok _ _ s tt s1) by exact Hex.
    rewrite (bind_Ok get_store _ s1 s1 s1) by reflexivity.
    rewrite Hct1, Hi. exact Hrun.
Qed.

(** *** Where a sequence of insertions leaves the children *)

Lemma fold_place_last cs : forall l,
  fold_left (fun l c => place_last c l) cs l = l ++ cs.
Proof.
  induction cs as [|c cs IH]; intros l; simpl; [symmetry; apply app_nil_r|].
  rewrite IH. unfold place_last. rewrite <- app_assoc. reflexivity.
Qed.

Lemma fold_place_first cs : forall l,
  fold_left (fun l c => place_first c l) cs l = rev cs ++ l.
Proof.
  induction cs as [|c cs IH]; intros l; simpl; [reflexivity|].
  rewrite IH. unfold place_first. rewrite <- app_assoc. reflexivity.
Qed.

Lemma index_middle x (pre post : list nat) :
  ~ In x pre -> index x (pre ++ x :: post) = Some (length pre).
Proof.
  induction pre as [|y pre IH]; intros Hx; simpl.
  - destruct (decide (x = x)); congruence.
  - destruct (decide (y = x)) as [->|Hne].
    + exfalso. apply Hx. left. reflexivity.
    + rewrite IH; [reflexivity|]. intros H. apply Hx. right. exact H.
Qed.

Lemma list_insert_at_middle {A} (c : A) pre post :
  list_insert_at (length pre) c (pre ++ post) = pre ++ c :: post.
Proof.
  unfold list_insert_at. rewrite take_app_length, drop_app_length. reflexivity.
Qed.

Lemma fold_place_before x cs : forall pre post,
  ~ In x pre -> ~ In x cs ->
  fold_left (fun l c => place_before x c l) cs (pre ++ x :: post)
  = pre ++ cs ++ x :: post.
Proof.
  induction cs as [|c cs IH]; intros pre post Hpre Hcs; simpl; [reflexivity|].
  unfold place_before at 2. rewrite index_middle by exact Hpre.
  rewrite list_insert_at_middle.
  change (pre ++ c :: x :: post) with (pre ++ [c] ++ x :: post).
  rewrite app_assoc, IH.
  - rewrite <- app_assoc. reflexivity.
  - intros H. apply in_app_or in H as [H|[<-|[]]]; [contradiction|].
    apply Hcs. left. reflexivity.
  - intros H. apply Hcs. right. exact H.
Qed.

Lemma fold_place_after x cs : forall pre post,
  ~ In x pre ->
  fold_left (fun l c => place_after x c l) cs (pre ++ x :: post)
  = pre ++ x :: rev cs ++ post.
Proof.
  induction cs as [|c cs IH]; intros pre post Hpre; simpl; [reflexivity|].
  unfold place_after at 2. rewrite index_middle by exact Hpre.
  replace (S (length pre)) with (length (pre ++ [x]))
    by (rewrite length_app; simpl; lia).
  change (pre ++ x :: post) with (pre ++ [x] ++ post).
  rewrite app_assoc, list_insert_at_middle, <- app_assoc.
  cbn [app]. rewrite IH by exact Hpre.
  rewrite <- app_assoc. reflexivity.
Qed.

(** ** Reading a tree back from the heap *)

Lemma render_unfold f s x :
  render f s x
  = match label_of s x with
    | Some (KText, _, _, txt) => HText txt
    | Some (_, nm, ats, _) =>
        HTag nm ats (match f with
                     | 0 => []
                     | S f' => map (render f' s) (contents_of s x)
                     end)
    | None => HText EmptyString
    end.
Proof.
  unfold label_of, contents_of.
  destruct f; simpl; destruct (s !! x) as [n|]; try reflexivity;
    destruct (nkind n); reflexivity.
Qed.

(** The tree read below [x] depends on the objects below [x] only. *)
Lemma render_agree s s' : forall f x,
  (forall y, below s x y ->
     label_of s' y = label_of s y /\ contents_of s' y = contents_of s y) ->
  render f s' x = render f s x.
Proof.
  induction f as [|f IH]; intros x Hsame; rewrite !render_unfold;
    destruct (Hsame x (below_self s x)) as [-> Hc]; [reflexivity|].
  rewrite Hc.
  assert (Hmap : map (render f s') (contents_of s x)
                 = map (render f s) (contents_of s x)).
  { apply map_ext_in. intros c Hin. apply IH. intros y Hy.
    apply Hsame. eapply below_child; eauto. }
  rewrite Hmap. reflexivity.
Qed.

Lemma render_depth s : children_linked s -> forall d x,
  depth_below s x d -> render (S d) s x = render d s x.
Proof.
  intros Hlink. induction d as [|d IH]; intros x Hdepth.
  - specialize (Hdepth [] (downchain_one s x)). simpl in Hdepth. lia.
  - rewrite (render_unfold (S (S d))), (render_unfold (S d)).
    assert (Hmap : map (render (S d) s) (contents_of s x)
                   = map (render d s) (contents_of s x)).
    { apply map_ext_in. intros c Hc. apply IH. intros l Hl.
      assert (Hchain : downchain s (x :: c :: l))
        by (constructor; [apply Hlink; exact Hc|exact Hl]).
      specialize (Hdepth (c :: l) Hchain). simpl in Hdepth. lia. }
    rewrite Hmap. reflexivity.
Qed.

(** Fuel above the depth of the tree is not used. *)
Lemma render_enough s x d :
  children_linked s -> depth_below s x d ->
  forall k, render (k + d) s x = render d s x.
Proof.
  intros Hlink Hdepth. induction k as [|k IH]; [reflexivity|].
  change (S k + d) with (S (k + d)). rewrite <- IH.
  apply render_depth; [exact Hlink|].
  intros l Hl. specialize (Hdepth l Hl). lia.
Qed.

Lemma depth_below_child s x c :
  well_formed s -> In c (contents_of s x) -> depth_below s c (length s).
Proof.
  intros (Hsym & _ & Hac) Hc l Hl.
  assert (Hchain : downchain s (x :: c :: l))
    by (constructor; [apply Hsym; exact Hc|exact Hl]).
  pose proof (downchain_bound s x (c :: l) Hac Hchain) as Hb.
  simpl in Hb. lia.
Qed.

(** The children of a tag, read back. *)
Lemma rendered_children s x :
  is_tag s x = true ->
  rendered s x = map (render (length s) s) (contents_of s x).
Proof.
  unfold rendered, fuel_of, is_tag, kind_of. rewrite render_unfold.
  unfold label_of, contents_of. destruct (s !! x) as [n|]; [|reflexivity].
  simpl. destruct (nkind n); [reflexivity..|discriminate].
Qed.

Lemma below_grafted p lo roots s x y :
  grafted p lo roots s -> below s x y ->
  lo <= x < length s -> lo <= y < length s.
Proof.
  intros (_ & _ & _ & Hkids) Hb. induction Hb as [x|x c y Hc _ IH]; [auto|].
  intros Hx. apply IH. destruct (Hkids x c Hx Hc). lia.
Qed.

Lemma preserved_label s s' x :
  preserved s s' -> x < length s -> label_of s' x = label_of s x.
Proof. intros Hp Hx. unfold label_of. rewrite Hp by exact Hx. reflexivity. Qed.

Lemma render_preserved_graft p lo roots s s' f x :
  grafted p lo roots s -> preserved s s' -> lo <= x < length s ->
  render f s' x = render f s x.
Proof.
  intros Hg Hp Hx. apply render_agree. intros y Hy.
  destruct (below_grafted p lo roots s x y Hg Hy Hx) as [_ Hlt].
  split; [apply preserved_label|apply preserved_contents]; assumption.
Qed.

Lemma load_forest_renders_from hs :
  Forall (fun h => forall p s f, height h <= f ->
            render f (snd (load p h s)) (fst (load p h s)) = h) hs ->
  forall p s f, Forall (fun h => height h <= f) hs ->
    map (render f (snd (load_forest p hs s))) (fst (load_forest p hs s)) = hs.
Proof.
  induction 1 as [|h hs Hh _ IH]; intros p s f Hf; [reflexivity|].
  apply Forall_cons in Hf as [Hfh Hfhs].
  cbn [load_forest]. specialize (Hh p s f Hfh).
  pose proof (load_grafted h p s) as Hg.
  destruct (load_preserved h p s) as (Hi & Hlt & _).
  destruct (load p h s) as [i s1]. simpl in Hh, Hg, Hi, Hlt.
  specialize (IH p s1 f Hfhs).
  destruct (load_forest_preserved p hs s1) as (_ & _ & Hp2).
  destruct (load_forest p hs s1) as [ids s2]. simpl in *.
  rewrite IH. f_equal. rewrite <- Hh.
  apply (render_preserved_graft p (length s) [i] s1 s2); try assumption. lia.
Qed.

Lemma height_children nm ats cs f :
  height (HTag nm ats cs) <= S f -> Forall (fun c => height c <= f) cs.
Proof.
  simpl. intros Hle. apply list_max_le in Hle.
  apply Forall_forall. intros c Hc.
  rewrite List.Forall_forall in Hle.
  specialize (Hle (S (height c))).
  assert (S (height c) <= S f); [|lia].
  apply Hle. apply in_map_iff. exists c. split; [reflexivity|].
  apply list_elem_of_In. exact Hc.
Qed.

(** What is loaded is read back. *)
Lemma load_renders h : forall p s f,
  height h <= f -> render f (snd (load p h s)) (fst (load p h s)) = h.
Proof.
  induction h as [txt|nm ats cs IH] using html_nested_ind; intros p s f Hf.
  - simpl. rewrite render_unfold. unfold label_of.
    rewrite list_lookup_middle by reflexivity. reflexivity.
  - rewrite load_tag. cbn [fst snd].
    set (s0 := s ++ [mkNode KTag nm ats [] (Some p) EmptyString]).
    assert (Hs0 : length s0 = S (length s))
      by (unfold s0; rewrite length_app; simpl; lia).
    pose proof (load_forest_grafted (length s) cs s0) as Hg.
    destruct (load_forest_preserved (length s) cs s0) as (Hlen & Hle & Hp).
    pose proof (fun f => load_forest_renders_from cs IH (length s) s0 f) as Hcs.
    destruct (load_forest (length s) cs s0) as [ids s1]. simpl in *.
    rewrite render_unfold, label_of_set_contents.
    rewrite (preserved_label s0 s1) by (assumption || lia).
    unfold label_of, s0. rewrite list_lookup_middle by reflexivity.
    cbn [nkind name attrs text]. f_equal.
    rewrite contents_of_set_contents_eq by lia.
    destruct f as [|f].
    + destruct cs as [|c cs]; [reflexivity|]. simpl in Hf. lia.
    + rewrite <- (Hcs f) by (apply (height_children nm ats); exact Hf).
      apply map_ext_in. intros c Hc. apply render_agree. intros y Hy.
      assert (Hrange : S (length s) <= y < length s1).
      { rewrite Hs0 in Hg. apply (below_grafted _ _ _ _ c y Hg Hy).
        destruct Hg as (_ & Hroots & _). apply Hroots. exact Hc. }
      rewrite label_of_set_contents, contents_of_set_contents_ne by lia.
      split; reflexivity.
Qed.

Lemma load_forest_renders p hs s f :
  Forall (fun h => height h <= f) hs ->
  map (render f (snd (load_forest p hs s))) (fst (load_forest p hs s)) = hs.
Proof.
  apply load_forest_renders_from. apply Forall_forall.
  intros h _. apply load_renders.
Qed.

Lemma alternate_map {A B} (g : A -> B) l : forall keep,
  map g (alternate keep l) = alternate keep (map g l).
Proof.
  induction l as [|x l IH]; intros keep; [reflexivity|].
  destruct keep; simpl; rewrite IH; reflexivity.
Qed.

Lemma In_alternate {A} (x : A) l : forall keep,
  In x (alternate keep l) -> In x l.
Proof.
  induction l as [|y l IH]; intros keep; [intros []|].
  destruct keep; simpl.
  - intros [->|H]; [left; reflexivity|right; eapply IH; exact H].
  - intros H. right. eapply IH. exact H.
Qed.

(** ** A parsed fragment and the element that receives it *)

Lemma ancestor_in_range s a x : symmetric s -> ancestor s a x -> a < length s.
Proof.
  intros Hsym Hanc. induction Hanc as [x p Hp|x p a Hp Hanc IH]; [|exact IH].
  apply Hsym in Hp. eapply child_in_range. exact Hp.
Qed.

Lemma below_ancestor s x y :
  children_linked s -> below s x y -> y = x \/ ancestor s x y.
Proof.
  intros Hlink Hb. induction Hb as [x|x c y Hc Hb IH]; [left; reflexivity|].
  right. apply Hlink in Hc. destruct IH as [->|IH].
  - apply ancestor_parent. exact Hc.
  - eapply ancestor_trans; [apply ancestor_parent; exact Hc|exact IH].
Qed.

(** The objects below a child of [t] are allocated, and [t] is not one
    of them. *)
Lemma below_child_of s t c y :
  well_formed s -> In c (contents_of s t) -> below s c y ->
  y < length s /\ y <> t.
Proof.
  intros (Hsym & _ & Hac) Hc Hb.
  assert (Hpc : parent_of s c = Some t) by (apply Hsym; exact Hc).
  destruct (below_ancestor s c y) as [->|Hanc];
    [intros x d Hd; apply Hsym; exact Hd|exact Hb| |].
  - split; [eapply parent_in_range; exact Hpc|].
    intros ->. apply (Hac t). apply ancestor_parent. exact Hpc.
  - split.
    + inversion Hanc; eapply parent_in_range; eauto.
    + intros ->. apply (Hac t).
      eapply ancestor_trans; [apply ancestor_parent; exact Hpc|exact Hanc].
Qed.

(** The heap after parsing a fragment: the element [t] can receive the
    children of the new root, and these read back as the fragment. *)
Lemma fragment_parsed forest s t :
  well_formed s -> t < length s ->
  exists s1,
    BeautifulSoup forest s = Ok (length s) s1 /\
    preserved s s1 /\ length s < length s1 /\
    donor s1 (length s) t /\
    grafted (length s) (S (length s)) (contents_of s1 (length s)) s1 /\
    kind_of s1 (length s) = KSoup /\
    map (render (length s1) s1) (contents_of s1 (length s)) = forest.
Proof.
  intros Hwf Ht.
  destruct (BeautifulSoup_well_formed forest s Hwf)
    as (s1 & Hrun & Hpres & Hlt & Hwf1 & Hroot & Hkind & Hlen & Hg & Hanc).
  exists s1. split; [exact Hrun|]. split; [exact Hpres|]. split; [exact Hlt|].
  split; [|split; [exact Hg|split; [exact Hkind|]]].
  - split; [exact Hwf1|]. split; [lia|]. split; [lia|]. split.
    + intros H. apply Hanc in H; [|exact Ht].
      apply ancestor_in_range in H; [lia|apply Hwf].
    + intros c Hc. destruct Hg as (_ & Hroots & Hobj & _).
      apply Hobj. apply Hroots. exact Hc.
  - revert Hrun. unfold BeautifulSoup.
    set (s0 := s ++ [mkNode KSoup "[document]" [] [] None EmptyString]).
    pose proof (load_forest_grafted (length s) forest s0) as Hg0.
    pose proof (fun f => load_forest_renders (length s) forest s0 f) as Hr.
    destruct (load_forest (length s) forest s0) as [ids s2]. simpl in Hg0, Hr.
    intros [= <-].
    assert (Hs0 : length s0 = S (length s))
      by (unfold s0; rewrite length_app; simpl; lia).
    rewrite Hs0 in Hg0.
    rewrite contents_of_set_contents_eq in *
      by (rewrite length_set_contents in Hlt; exact Hlt).
    set (s1 := set_contents (length s) ids s2) in *.
    set (H := list_max (map height forest)).
    assert (HH : Forall (fun h => height h <= H + length s1) forest).
    { apply Forall_forall. intros h Hh.
      assert (Hle : list_max (map height forest) <= H) by reflexivity.
      apply list_max_le in Hle. rewrite List.Forall_forall in Hle.
      specialize (Hle (height h)).
      assert (height h <= H); [|lia].
      apply Hle. apply in_map. apply list_elem_of_In. exact Hh. }
    etransitivity; [|exact (Hr (H + length s1) HH)].
    apply map_ext_in. intros c Hc.
    rewrite <- (render_enough s1 c (length s1)) with (k := H).
    + apply render_agree. intros y Hy.
      assert (Hrange : S (length s) <= y < length s2).
      { apply (below_grafted _ _ _ _ c y Hg0 Hy).
        destruct Hg0 as (_ & Hroots & _). apply Hroots. exact Hc. }
      unfold s1.
      rewrite label_of_set_contents, contents_of_set_contents_ne by lia.
      split; reflexivity.
    + intros x d Hd. apply Hwf1. exact Hd.
    + apply (depth_below_child s1 (length s)); [exact Hwf1|].
      unfold s1. rewrite contents_of_set_contents_eq; [exact Hc|].
      unfold s1 in Hlt. rewrite length_set_contents in Hlt. exact Hlt.
Qed.

(** After the children of the fragment have been handed to [t]: the
    fragment's nodes and the former children of [t] read back as
    before. *)
Lemma views_after_handing s s1 s' cs t lr lt :
  well_formed s -> t < length s -> is_tag s t = true ->
  preserved s s1 -> length s < length s1 ->
  grafted (length s) (S (length s)) (contents_of s1 (length s)) s1 ->
  handed_over cs (length s) t lr lt s1 s' ->
  is_tag s' t = true /\
  map (render (length s') s') (contents_of s1 (length s))
    = map (render (length s1) s1) (contents_of s1 (length s)) /\
  map (render (length s') s') (contents_of s t) = rendered s t.
Proof.
  intros Hwf Ht Htag Hpres Hlt Hg (Hlen & Hlab & _ & _ & _ & _ & Hothers).
  split; [|split].
  - unfold is_tag in *. rewrite (kind_of_label s1 s') by apply Hlab.
    rewrite (preserved_kind s s1) by assumption. exact Htag.
  - rewrite Hlen. apply map_ext_in. intros c Hc. apply render_agree.
    intros y Hy.
    assert (Hrange : S (length s) <= y < length s1).
    { apply (below_grafted _ _ _ _ c y Hg Hy).
      destruct Hg as (_ & Hroots & _). apply Hroots. exact Hc. }
    split; [apply Hlab|]. apply Hothers; lia.
  - rewrite rendered_children by exact Htag.
    apply map_ext_in. intros c Hc.
    transitivity (render (length s') s c).
    + apply render_agree. intros y Hy.
      destruct (below_child_of s t c y Hwf Hc Hy) as [Hyl Hyt].
      split.
      * rewrite Hlab. apply preserved_label; assumption.
      * rewrite Hothers by (lia || assumption).
        apply preserved_contents; assumption.
    + replace (length s') with ((length s' - length s) + length s) by lia.
      apply render_enough.
      * intros x d Hd. apply Hwf. exact Hd.
      * eapply depth_below_child; eauto.
Qed.

(** ** [clear] *)



(** ** Insertion of parsed HTML *)

(** What the element, the temporary document and the rest of the heap
    look like after a loop has handed nodes of the fragment over. *)
Lemma rendered_after_handing s s1 s' cs t lr lt forest :
  well_formed s -> t < length s -> is_tag s t = true ->
  preserved s s1 -> length s < length s1 ->
  grafted (length s) (S (length s)) (contents_of s1 (length s)) s1 ->
  kind_of s1 (length s) = KSoup ->
  map (render (length s1) s1) (contents_of s1 (length s)) = forest ->
  handed_over cs (length s) t lr lt s1 s' ->
  (forall c, In c cs -> In c (contents_of s1 (length s))) ->
  rendered s' t = map (render (length s') s') lt /\
  rendered s' (length s) = map (render (length s') s') lr /\
  map (render (length s') s') (contents_of s1 (length s)) = forest /\
  map (render (length s') s') (contents_of s t) = rendered s t /\
  (forall x, x < length s -> x <> t -> contents_of s' x = contents_of s x) /\
  (forall x, x < length s -> parent_of s' x = parent_of s x).
Proof.
  intros Hwf Ht Htag Hpres Hlt Hg Hkind Hforest Hover Hcs.
  destruct (views_after_handing s s1 s' cs t lr lt Hwf Ht Htag Hpres Hlt Hg Hover)
    as (Htag' & Hnew & Hold).
  destruct Hover as (Hlen & Hlab & Hin & Hout & Hr & Hc & Hothers).
  split; [|split; [|split; [|split; [|split]]]].
  - rewrite rendered_children by exact Htag'. rewrite Hc. reflexivity.
  - rewrite rendered_children, Hr; [reflexivity|].
    unfold is_tag. rewrite (kind_of_label s1 s') by apply Hlab.
    rewrite Hkind. reflexivity.
  - rewrite Hnew. exact Hforest.
  - exact Hold.
  - intros x Hx Hxt. rewrite Hothers by (lia || assumption).
    apply preserved_contents; assumption.
  - intros x Hx. rewrite Hout.
    + apply preserved_parent; assumption.
    + intros Hxc. apply Hcs in Hxc.
      destruct Hg as (_ & Hroots & _). apply Hroots in Hxc. lia.
Qed.

(** X11.  [prependText] with an HTML string, which is also
    [insertAdjacentHTML("afterbegin", ...)]: every top-level node of the
    fragment becomes a child of the element, in the order of the
    fragment and before the children the element had; the temporary
    document is left empty and the rest of the tree is as it was. *)
Theorem html_put_first s self forest :
  well_formed s -> tag self < length s -> is_tag s (tag self) = true ->
  exists s',
    prependText self (CHtml forest) s = Ok tt s' /\
    insertAdjacentHTML self "afterbegin" forest s = Ok tt s' /\
    well_formed s' /\
    rendered s' (tag self) = forest ++ rendered s (tag self) /\
    rendered s' (length s) = [] /\
    (forall x, x < length s -> x <> tag self ->
       contents_of s' x = contents_of s x) /\
    (forall x, x < length s -> parent_of s' x = parent_of s x).
Proof.
  intros Hwf Ht Htag. set (t := tag self) in *.
  destruct (fragment_parsed forest s t Hwf Ht)
    as (s1 & Hparse & Hpres & Hlt & Hdonor & Hg & Hkind & Hforest).
  set (ids := contents_of s1 (length s)) in *.
  destruct (for_reversed_transfer (length s) t (fun c => insert t 0 c)
              place_first (fun _ => True) (insert_first_hands (length s) t)
              (length ids) s1 ids Hdonor I eq_refl eq_refl)
    as (s' & Hloop & Hdonor' & _ & Hover).
  rewrite fold_place_first, rev_involutive in Hover.
  rewrite (preserved_contents s s1) in Hover by assumption.
  assert (Hrun : prependText self (CHtml forest) s = Ok tt s').
  { unfold prependText. rewrite (bind_Ok _ _ s (length s) s1) by exact Hparse.
    unfold for_in_reversed_contents.
    rewrite (bind_Ok get_store _ s1 s1 s1) by reflexivity. exact Hloop. }
  destruct (rendered_after_handing s s1 s' (rev ids) t [] (ids ++ contents_of s t)
              forest Hwf Ht Htag Hpres Hlt Hg Hkind Hforest Hover)
    as (Ht' & Hr' & Hnew & Hold & Hsame & Hparents).
  { intros c Hc. apply in_rev. exact Hc. }
  fold ids in Hnew.
  exists s'. split; [exact Hrun|]. split; [exact Hrun|].
  split; [apply Hdonor'|]. split; [|split; [exact Hr'|split; assumption]].
  rewrite Ht', map_app, Hnew, Hold. reflexivity.
Qed.

(** X12.  [append] with an HTML string, which is also
    [insertAdjacentHTML("beforeend", ...)]: the first, third, fifth, ...
    top-level nodes of the fragment become the last children of the
    element, in that order; the second, fourth, ... stay in the
    temporary document. *)
Theorem html_put_last s self forest :
  well_formed s -> tag self < length s -> is_tag s (tag self) = true ->
  exists s',
    append_content self (CHtml forest) s = Ok tt s' /\
    insertAdjacentHTML self "beforeend" forest s = Ok tt s' /\
    well_formed s' /\
    rendered s' (tag self) = rendered s (tag self) ++ alternate true forest /\
    rendered s' (length s) = alternate false forest /\
    (forall x, x < length s -> x <> tag self ->
       contents_of s' x = contents_of s x) /\
    (forall x, x < length s -> parent_of s' x = parent_of s x).
Proof.
  intros Hwf Ht Htag. set (t := tag self) in *.
  destruct (fragment_parsed forest s t Hwf Ht)
    as (s1 & Hparse & Hpres & Hlt & Hdonor & Hg & Hkind & Hforest).
  set (ids := contents_of s1 (length s)) in *.
  destruct (for_contents_transfer (length s) t (fun c => append t c)
              place_last (fun _ => True) (append_hands (length s) t)
              (S (length ids)) s1 [] ids Hdonor I eq_refl)
    as (s' & Hloop & Hdonor' & _ & Hover); [lia|].
  rewrite fold_place_last in Hover. cbn [app] in Hover.
  rewrite (preserved_contents s s1) in Hover by assumption.
  assert (Hrun : append_content self (CHtml forest) s = Ok tt s').
  { unfold append_content. rewrite (bind_Ok _ _ s (length s) s1) by exact Hparse.
    unfold for_in_contents.
    rewrite (bind_Ok get_store _ s1 s1 s1) by reflexivity. exact Hloop. }
  destruct (rendered_after_handing s s1 s' (alternate true ids) t
              (alternate false ids) (contents_of s t ++ alternate true ids)
              forest Hwf Ht Htag Hpres Hlt Hg Hkind Hforest Hover)
    as (Ht' & Hr' & Hnew & Hold & Hsame & Hparents).
  { intros c Hc. eapply In_alternate. exact Hc. }
  fold ids in Hnew.
  exists s'. split; [exact Hrun|]. split; [exact Hrun|].
  split; [apply Hdonor'|]. split; [|split; [|split; assumption]].
  - rewrite Ht', map_app, Hold, alternate_map, Hnew. reflexivity.
  - rewrite Hr', alternate_map, Hnew. reflexivity.
Qed.


Lemma index_split x (l : list nat) i :
  index x l = Some i ->
  l = take i l ++ x :: drop (S i) l /\ ~ In x (take i l) /\
  length (take i l) = i.
Proof.
  revert i. induction l as [|y l IH]; intros i; simpl; [discriminate|].
  destruct (decide (y = x)) as [->|Hne].
  - intros [= <-]. simpl. rewrite drop_0.
    split; [reflexivity|]. split; [intros []|reflexivity].
  - destruct (index x l) as [j|]; simpl; [|discriminate].
    intros [= <-]. destruct (IH j eq_refl) as (Hl & Hno & Hlen). simpl.
    split; [f_equal; exact Hl|]. split; [|f_equal; exact Hlen].
    intros [H|H]; [contradiction|exact (Hno H)].
Qed.

Lemma split_at {A} (l pre post : list A) x i :
  l = pre ++ x :: post -> length pre = i ->
  drop i l = x :: post /\ take (S i) l = pre ++ [x].
Proof.
  intros -> <-. split.
  - apply drop_app_length.
  - change (pre ++ x :: post) with (pre ++ [x] ++ post).
    rewrite app_assoc. apply take_app_length'.
    rewrite length_app. simpl. lia.
Qed.

(** The element [x], a child of [p], and the views of the children of
    [p] on both sides of it. *)
Lemma views_split {A} (view : nat -> A) x (l : list nat) i :
  index x l = Some i ->
  map view (take i l) = take i (map view l) /\
  map view (x :: drop (S i) l) = drop i (map view l) /\
  map view (take i l ++ [x]) = take (S i) (map view l) /\
  map view (drop (S i) l) = drop (S i) (map view l).
Proof.
  intros Hi. destruct (index_split x l i Hi) as (Hl & _ & Hlen).
  destruct (split_at l _ _ x i Hl Hlen) as (Hd & Ht).
  rewrite !firstn_map, !skipn_map, Hd, Ht.
  split; [reflexivity|]. split; [reflexivity|]. split; reflexivity.
Qed.

(** X14.  [insertAdjacentHTML("beforebegin", ...)]: every top-level node
    of the fragment becomes a sibling of the element, between the
    element and the siblings before it, the nodes of the fragment in
    reverse order. *)
Theorem html_put_before_is_reversed s self p forest :
  well_formed s -> parent_of s (tag self) = Some p -> is_tag s p = true ->
  exists s' i,
    insertAdjacentHTML self "beforebegin" forest s = Ok tt s' /\
    well_formed s' /\
    index (tag self) (contents_of s p) = Some i /\
    rendered s' p
      = take i (rendered s p) ++ rev forest ++ drop i (rendered s p) /\
    rendered s' (length s) = [].
Proof.
  intros Hwf Hpx Htag. set (x := tag self) in *.
  pose proof Hwf as (Hsym & _ & _).
  assert (Hin : In x (contents_of s p)) by (apply Hsym; exact Hpx).
  assert (Hp : p < length s) by (eapply child_in_range; exact Hin).
  assert (Hx : x < length s) by (eapply parent_in_range; exact Hpx).
  destruct (index_In _ _ Hin) as [i Hi].
  destruct (index_split x _ i Hi) as (Hl & Hpre & Hleni).
  destruct (fragment_parsed forest s p Hwf Hp)
    as (s1 & Hparse & Hpres & Hlt & Hdonor & Hg & Hkind & Hforest).
  set (ids := contents_of s1 (length s)) in *.
  assert (Hready : parent_of s1 x = Some p)
    by (rewrite (preserved_parent s s1) by assumption; exact Hpx).
  destruct (for_reversed_transfer (length s) p (fun c => insert_before x c)
              (place_before x) (fun s => parent_of s x = Some p)
              (insert_beside_hands false x (length s) p)
              (length ids) s1 ids Hdonor Hready eq_refl eq_refl)
    as (s' & Hloop & Hdonor' & _ & Hover).
  rewrite (preserved_contents s s1) in Hover by assumption.
  rewrite Hl in Hover.
  rewrite fold_place_before in Hover; [|exact Hpre|].
  2:{ intros Hxi. apply in_rev in Hxi.
      destruct Hg as (_ & Hroots & _). apply Hroots in Hxi. lia. }
  assert (Hrun : insertAdjacentHTML self "beforebegin" forest s = Ok tt s').
  { unfold insertAdjacentHTML.
    rewrite (bind_Ok _ _ s (length s) s1) by exact Hparse.
    replace (String.eqb "beforebegin" "beforebegin") with true by reflexivity.
    unfold for_in_reversed_contents.
    rewrite (bind_Ok get_store _ s1 s1 s1) by reflexivity. exact Hloop. }
  destruct (rendered_after_handing s s1 s' (rev ids) p []
              (take i (contents_of s p) ++ rev ids
                 ++ x :: drop (S i) (contents_of s p))
              forest Hwf Hp Htag Hpres Hlt Hg Hkind Hforest Hover)
    as (Ht' & Hr' & Hnew & Hold & _ & _).
  { intros c Hc. apply in_rev. exact Hc. }
  fold ids in Hnew.
  exists s', i. split; [exact Hrun|]. split; [apply Hdonor'|].
  split; [exact Hi|]. split; [|exact Hr'].
  destruct (views_split (render (length s') s') x (contents_of s p) i Hi)
    as (Hv1 & Hv2 & _ & _).
  rewrite Ht', !map_app, map_rev, Hnew, Hv1, Hv2, Hold. reflexivity.
Qed.

(** X15.  [insertAdjacentHTML("afterend", ...)]: the first, third,
    fifth, ... top-level nodes of the fragment become siblings of the
    element, between the element and the siblings after it, in reverse
    order; the second, fourth, ... stay in the temporary document. *)
Theorem html_put_after_is_reversed s self p forest :
  well_formed s -> parent_of s (tag self) = Some p -> is_tag s p = true ->
  exists s' i,
    insertAdjacentHTML self "afterend" forest s = Ok tt s' /\
    well_formed s' /\
    index (tag self) (contents_of s p) = Some i /\
    rendered s' p
      = take (S i) (rendered s p) ++ rev (alternate true forest)
        ++ drop (S i) (rendered s p) /\
    rendered s' (length s) = alternate false forest.
Proof.
  intros Hwf Hpx Htag. set (x := tag self) in *.
  pose proof Hwf as (Hsym & _ & _).
  assert (Hin : In x (contents_of s p)) by (apply Hsym; exact Hpx).
  assert (Hp : p < length s) by (eapply child_in_range; exact Hin).
  assert (Hx : x < length s) by (eapply parent_in_range; exact Hpx).
  destruct (index_In _ _ Hin) as [i Hi].
  destruct (index_split x _ i Hi) as (Hl & Hpre & Hleni).
  destruct (fragment_parsed forest s p Hwf Hp)
    as (s1 & Hparse & Hpres & Hlt & Hdonor & Hg & Hkind & Hforest).
  set (ids := contents_of s1 (length s)) in *.
  assert (Hready : parent_of s1 x = Some p)
    by (rewrite (preserved_parent s s1) by assumption; exact Hpx).
  destruct (for_contents_transfer (length s) p (fun c => insert_after x c)
              (place_after x) (fun s => parent_of s x = Some p)
              (insert_beside_hands true x (length s) p)
              (S (length ids)) s1 [] ids Hdonor Hready eq_refl)
    as (s' & Hloop & Hdonor' & _ & Hover); [lia|].
  cbn [app] in Hover.
  rewrite (preserved_contents s s1) in Hover by assumption.
  rewrite Hl in Hover.
  rewrite fold_place_after in Hover by exact Hpre.
  assert (Hrun : insertAdjacentHTML self "afterend" forest s = Ok tt s').
  { unfold insertAdjacentHTML.
    rewrite (bind_Ok _ _ s (length s) s1) by exact Hparse.
    replace (String.eqb "afterend" "beforebegin") with false by reflexivity.
    replace (String.eqb "afterend" "afterbegin") with false by reflexivity.
    replace (String.eqb "afterend" "beforeend") with false by reflexivity.
    replace (String.eqb "afterend" "afterend") with true by reflexivity.
    unfold for_in_contents.
    rewrite (bind_Ok get_store _ s1 s1 s1) by reflexivity. exact Hloop. }
  destruct (rendered_after_handing s s1 s' (alternate true ids) p
              (alternate false ids)
              (take i (contents_of s p) ++ x :: rev (alternate true ids)
                 ++ drop (S i) (contents_of s p))
              forest Hwf Hp Htag Hpres Hlt Hg Hkind Hforest Hover)
    as (Ht' & Hr' & Hnew & Hold & _ & _).
  { intros c Hc. eapply In_alternate. exact Hc. }
  fold ids in Hnew.
  exists s', i. split; [exact Hrun|]. split; [apply Hdonor'|].
  split; [exact Hi|]. split.
  - destruct (views_split (render (length s') s') x (contents_of s p) i Hi)
      as (_ & _ & Hv3 & Hv4).
    change (take i (contents_of s p) ++ x :: rev (alternate true ids)
              ++ drop (S i) (contents_of s p))
      with (take i (contents_of s p) ++ [x] ++ rev (alternate true ids)
              ++ drop (S i) (contents_of s p)) in Ht'.
    rewrite app_assoc in Ht'.
    rewrite map_app in Hv3.
    rewrite Ht', !map_app, map_rev, alternate_map, Hnew, Hv3, Hv4, Hold.
    reflexivity.
  - rewrite Hr', alternate_map, Hnew. reflexivity.
Qed.

Lemma html_put_first_witness :
  exists s',
    prependText (mkElement 1 [] []) (CHtml three_nodes) nested_store = Ok tt s' /\
    insertAdjacentHTML (mkElement 1 [] []) "afterbegin" three_nodes nested_store
      = Ok tt s' /\
    well_formed s' /\
    rendered s' 1 = three_nodes ++ rendered nested_store 1 /\
    rendered s' (length nested_store) = [] /\
    (forall x, x < length nested_store -> x <> 1 ->
       contents_of s' x = contents_of nested_store x) /\
    (forall x, x < length nested_store ->
       parent_of s' x = parent_of nested_store x).
Proof.
  apply (html_put_first nested_store (mkElement 1 [] []) three_nodes).
  - apply well_formedb_sound. reflexivity.
  - simpl. lia.
  - reflexivity.
Defined.

Lemma html_put_last_witness :
  exists s',
    append_content (mkElement 1 [] []) (CHtml three_nodes) nested_store = Ok tt s' /\
    insertAdjacentHTML (mkElement 1 [] []) "beforeend" three_nodes nested_store
      = Ok tt s' /\
    well_formed s' /\
    rendered s' 1 = rendered nested_store 1 ++ alternate true three_nodes /\
    rendered s' (length nested_store) = alternate false three_nodes /\
    (forall x, x < length nested_store -> x <> 1 ->
       contents_of s' x = contents_of nested_store x) /\
    (forall x, x < length nested_store ->
       parent_of s' x = parent_of nested_store x).
Proof.
  apply (html_put_last nested_store (mkElement 1 [] []) three_nodes).
  - apply well_formedb_sound. reflexivity.
  - simpl. lia.
  - reflexivity.
Defined.


Lemma html_put_before_is_reversed_witness :
  exists s' i,
    insertAdjacentHTML (mkElement 3 [] []) "beforebegin" three_nodes nested_store
      = Ok tt s' /\
    well_formed s' /\
    index 3 (contents_of nested_store 1) = Some i /\
    rendered s' 1
      = take i (rendered nested_store 1) ++ rev three_nodes
        ++ drop i (rendered nested_store 1) /\
    rendered s' (length nested_store) = [].
Proof.
  apply (html_put_before_is_reversed nested_store (mkElement 3 [] []) 1
           three_nodes).
  - apply well_formedb_sound. reflexivity.
  - reflexivity.
  - reflexivity.
Defined.

Lemma html_put_after_is_reversed_witness :
  exists s' i,
    insertAdjacentHTML (mkElement 2 [] []) "afterend" three_nodes nested_store
      = Ok tt s' /\
    well_formed s' /\
    index 2 (contents_of nested_store 1) = Some i /\
    rendered s' 1
      = take (S i) (rendered nested_store 1) ++ rev (alternate true three_nodes)
        ++ drop (S i) (rendered nested_store 1) /\
    rendered s' (length nested_store) = alternate false three_nodes.
Proof.
  apply (html_put_after_is_reversed nested_store (mkElement 2 [] []) 1
           three_nodes).
  - apply well_formedb_sound. reflexivity.
  - reflexivity.
  - reflexivity.
Defined.

(** The four positions on [<a><d></d><e></e></a>] with the fragment
    [<h1>hi</h1><h2></h2>t]. *)
Example insertAdjacentHTML_on_a_small_tree :
  (exists s', insertAdjacentHTML (mkElement 3 [] []) "beforebegin" three_nodes
                nested_store = Ok tt s' /\
              rendered s' 1
              = [HTag "d" [] []; HText "t"; HTag "h2" [] [];
                 HTag "h1" [] [HText "hi"]; HTag "e" [] []]) /\
  (exists s', insertAdjacentHTML (mkElement 1 [] []) "afterbegin" three_nodes
                nested_store = Ok tt s' /\
              rendered s' 1
              = [HTag "h1" [] [HText "hi"]; HTag "h2" [] []; HText "t";
                 HTag "d" [] []; HTag "e" [] []]) /\
  (exists s', insertAdjacentHTML (mkElement 1 [] []) "beforeend" three_nodes
                nested_store = Ok tt s' /\
              rendered s' 1
              = [HTag "d" [] []; HTag "e" [] [];
                 HTag "h1" [] [HText "hi"]; HText "t"]) /\
  (exists s', insertAdjacentHTML (mkElement 2 [] []) "afterend" three_nodes
                nested_store = Ok tt s' /\
              rendered s' 1
              = [HTag "d" [] []; HText "t"; HTag "h1" [] [HText "hi"];
                 HTag "e" [] []]).
Proof.
  repeat split; eexists; (split; [vm_compute; reflexivity|reflexivity]).
Qed.

(** ** [textContent] *)






(** ** [createElement] *)

(** X17.  [createElement] returns a wrapper, with no listeners and no
    style, of a new tag that has the given name, no attributes, no
    children and no parent, and leaves the objects that exist as they
    are; [appendChild] of it then makes it the last child of the
    element, and the tree stays well formed. *)
Theorem createElement_then_appendChild s d self tag_name :
  well_formed s -> tag self < length s ->
  exists s1 s',
    createElement d tag_name s = Ok (mkElement (length s) [] []) s1 /\
    preserved s s1 /\ well_formed s1 /\
    label_of s1 (length s) = Some (KTag, tag_name, [], EmptyString) /\
    parent_of s1 (length s) = None /\ contents_of s1 (length s) = [] /\
    appendChild self (VElement (mkElement (length s) [] [])) s1 = Ok tt s' /\
    well_formed s' /\
    contents_of s' (tag self) = contents_of s (tag self) ++ [length s] /\
    parent_of s' (length s) = Some (tag self) /\
    (forall x, label_of s' x = label_of s1 x) /\
    (forall x, x < length s -> parent_of s' x = parent_of s x) /\
    (forall x, x <> tag self -> contents_of s' x = contents_of s1 x).
Proof.
  intros Hwf Ht. set (t := tag self) in *.
  set (nd := mkNode KTag tag_name [] [] None EmptyString).
  set (s1 := s ++ [nd]).
  assert (Hlen1 : length s1 = S (length s))
    by (unfold s1; rewrite length_app; simpl; lia).
  assert (Hnode : s1 !! length s = Some nd)
    by (apply list_lookup_middle; reflexivity).
  assert (Hwf1 : well_formed s1) by (apply well_formed_alloc; auto).
  assert (Hp1 : parent_of s1 (length s) = None)
    by (unfold parent_of; rewrite Hnode; reflexivity).
  assert (Hc1 : contents_of s1 (length s) = [])
    by (unfold contents_of; rewrite Hnode; reflexivity).
  assert (Hct : contents_of s1 t = contents_of s t)
    by (apply alloc_contents; reflexivity).
  destruct (insert_detached s1 t (length (contents_of s1 t)) (length s))
    as (s' & Hrun & Hwf' & Hat); try assumption; try lia.
  { intros Hanc. apply (ancestor_has_child s1) in Hanc; [|apply Hwf1].
    contradiction. }
  { unfold kind_of. rewrite Hnode. discriminate. }
  destruct Hat as (Hlen' & Hlab' & Hp' & Hc').
  exists s1, s'. split.
  { unfold createElement, new_tag, alloc.
    rewrite (bind_Ok _ _ s (length s) s1) by reflexivity.
    unfold Element__init__.
    rewrite (bind_Ok get_store _ s1 s1 s1) by reflexivity.
    unfold is_tag, kind_of, attrs_of. rewrite Hnode. reflexivity. }
  split; [apply preserved_app|]. split; [exact Hwf1|].
  split; [apply alloc_label_new|]. split; [exact Hp1|]. split; [exact Hc1|].
  split.
  { unfold appendChild, append. cbn [tag]. fold t.
    rewrite (bind_Ok get_store _ s1 s1 s1) by reflexivity. exact Hrun. }
  split; [exact Hwf'|]. split; [|split; [|split; [exact Hlab'|split]]].
  - rewrite Hc'. destruct (decide (t = t)); [|congruence].
    rewrite Nat.min_id, list_insert_at_end, Hct. reflexivity.
  - rewrite Hp'. destruct (decide (length s = length s)); congruence.
  - intros x Hx. rewrite Hp'. destruct (decide (x = length s)); [lia|].
    apply alloc_parent. reflexivity.
  - intros x Hx. rewrite Hc'. destruct (decide (x = t)); [contradiction|].
    reflexivity.
Qed.

Lemma createElement_then_appendChild_witness :
  exists s1 s',
    createElement (mkDocument 0) "p" nested_store
      = Ok (mkElement (length nested_store) [] []) s1 /\
    preserved nested_store s1 /\ well_formed s1 /\
    label_of s1 (length nested_store) = Some (KTag, "p", [], EmptyString) /\
    parent_of s1 (length nested_store) = None /\
    contents_of s1 (length nested_store) = [] /\
    appendChild (mkElement 1 [] [])
      (VElement (mkElement (length nested_store) [] [])) s1 = Ok tt s' /\
    well_formed s' /\
    contents_of s' 1 = contents_of nested_store 1 ++ [length nested_store] /\
    parent_of s' (length nested_store) = Some 1 /\
    (forall x, label_of s' x = label_of s1 x) /\
    (forall x, x < length nested_store ->
       parent_of s' x = parent_of nested_store x) /\
    (forall x, x <> 1 -> contents_of s' x = contents_of s1 x).
Proof.
  apply (createElement_then_appendChild nested_store (mkDocument 0)
           (mkElement 1 [] []) "p").
  - apply well_formedb_sound. reflexivity.
  - simpl. lia.
Defined.

(** ** [children] and [parentElement] *)

Lemma init_style_pure segments : forall style s r s',
  init_style segments style s = Ok r s' -> s' = s.
Proof.
  induction segments as [|seg segments IH]; intros style s r s'; simpl.
  - intros [= _ <-]. reflexivity.
  - destruct (truthy (strip seg)); [|apply IH].
    destruct (split ":" seg) as [|k [|v [|? ?]]]; try discriminate.
    apply IH.
Qed.

(** A wrapper is made without touching the tree, and wraps the object
    given. *)
Lemma Element__init__pure t s e s' :
  Element__init__ t s = Ok e s' -> s' = s /\ tag e = t.
Proof.
  unfold Element__init__. rewrite (bind_Ok get_store _ s s s) by reflexivity.
  destruct (negb (is_tag s t)); [discriminate|].
  destruct (dict_get "style" (attrs_of s t)) as [[v|l]|].
  - unfold bind. destruct (init_style (split ";" v) [] s) as [r s1| |] eqn:Hinit;
      try discriminate.
    apply init_style_pure in Hinit as ->.
    intros [= <- <-]. split; reflexivity.
  - discriminate.
  - intros [= <- <-]. split; reflexivity.
Qed.

Lemma wrap_all_spec ts : forall s,
  (forall c, In c ts -> exists e, Element__init__ c s = Ok e s) ->
  exists es,
    wrap_all ts s = Ok es s /\ map tag es = ts /\
    forall e, In e es -> _events e = [].
Proof.
  induction ts as [|c ts IH]; intros s Hall.
  - exists []. split; [reflexivity|]. split; [reflexivity|intros e []].
  - destruct (Hall c) as [e He]; [left; reflexivity|].
    destruct (IH s) as (es & Hrun & Htags & Hev);
      [intros c' Hc'; apply Hall; right; exact Hc'|].
    exists (e :: es). cbn [wrap_all].
    rewrite (bind_Ok _ _ s e s) by exact He.
    rewrite (bind_Ok _ _ s es s) by exact Hrun.
    split; [reflexivity|]. split.
    + simpl. rewrite Htags.
      destruct (Element__init__pure c s e s He) as [_ ->]. reflexivity.
    + intros e' [<-|He']; [|apply Hev; exact He'].
      eapply Element__init__events. exact He.
Qed.

(** X18.  [children] wraps the children of the element that are tags,
    in order, leaving out the strings, and [parentElement] of each of
    them wraps the node of the element again; both make new wrappers,
    which have no listeners, and neither changes the tree.  (A wrapper
    can be made of a tag whose [style] attribute can be parsed.) *)
Theorem children_and_parentElement s self :
  symmetric s ->
  (forall c, In c (contents_of s (tag self)) -> is_tag s c = true ->
     exists e, Element__init__ c s = Ok e s) ->
  (exists e, Element__init__ (tag self) s = Ok e s) ->
  exists es,
    children self s = Ok es s /\
    map tag es = filter (fun c => is_tag s c = true) (contents_of s (tag self)) /\
    forall e, In e es ->
      _events e = [] /\
      exists p, parentElement e s = Ok (Some p) s /\
                tag p = tag self /\ _events p = [].
Proof.
  intros Hsym Hkids (p & Hp).
  destruct (wrap_all_spec (find_all_children s (tag self)) s)
    as (es & Hrun & Htags & Hev).
  { intros c Hc. unfold find_all_children in Hc.
    apply list_elem_of_In, list_elem_of_filter in Hc as [Htag Hc].
    apply Hkids; [apply list_elem_of_In; exact Hc|exact Htag]. }
  exists es. split.
  { unfold children. rewrite (bind_Ok get_store _ s s s) by reflexivity.
    exact Hrun. }
  split; [exact Htags|].
  intros e He. split; [apply Hev; exact He|].
  exists p.
  assert (Hin : In (tag e) (contents_of s (tag self))).
  { assert (H : In (tag e) (map tag es)) by (apply in_map; exact He).
    rewrite Htags in H. unfold find_all_children in H.
    apply list_elem_of_In, list_elem_of_filter in H as [_ H].
    apply list_elem_of_In. exact H. }
  apply Hsym in Hin.
  split; [|split].
  - unfold parentElement. rewrite (bind_Ok get_store _ s s s) by reflexivity.
    rewrite Hin. rewrite (bind_Ok _ _ s p s) by exact Hp. reflexivity.
  - apply (Element__init__pure _ _ _ _ Hp).
  - eapply Element__init__events. exact Hp.
Qed.

Lemma children_and_parentElement_witness :
  exists es,
    children (mkElement 1 [] []) nested_store = Ok es nested_store /\
    map tag es = filter (fun c => is_tag nested_store c = true)
                   (contents_of nested_store 1) /\
    forall e, In e es ->
      _events e = [] /\
      exists p, parentElement e nested_store = Ok (Some p) nested_store /\
                tag p = 1 /\ _events p = [].
Proof.
  apply (children_and_parentElement nested_store (mkElement 1 [] [])).
  - apply (proj1 (well_formedb_sound nested_store eq_refl)).
  - intros c [<-|[<-|[]]] _; eexists; reflexivity.
  - eexists. reflexivity.
Defined.

(** ** [contains] *)

Lemma all_equal_total (eq : nat -> nat -> option bool) l1 : forall l2,
  (forall x y, In x l1 -> eq x y <> None) -> all_equal eq l1 l2 <> None.
Proof.
  induction l1 as [|x l1 IH]; intros l2 Hall; [discriminate|].
  destruct l2 as [|y l2]; [discriminate|]. simpl.
  destruct (eq x y) as [[|]|] eqn:Hxy.
  - apply IH. intros x' y' Hx'. apply Hall. right. exact Hx'.
  - discriminate.
  - exfalso. apply (Hall x y); [left; reflexivity|exact Hxy].
Qed.

(** The comparison does not run out of fuel on a tree whose depth is
    below the fuel. *)
Lemma py_eq_total s : children_linked s -> forall d a b,
  depth_below s a d -> py_eq d s a b <> None.
Proof.
  intros Hlink. induction d as [|d IH]; intros a b Hdepth.
  - specialize (Hdepth [] (downchain_one s a)). simpl in Hdepth. lia.
  - cbn [py_eq]. destruct (decide (a = b)); [discriminate|].
    destruct (s !! a) as [na|] eqn:Ha; [|discriminate].
    destruct (s !! b) as [nb|]; [|discriminate].
    destruct (nkind na), (nkind nb); try discriminate;
      (destruct (_ || _); [discriminate|]);
      (apply all_equal_total; intros x y Hx; apply IH; intros l Hl;
       assert (Hxa : In x (contents_of s a))
         by (unfold contents_of; rewrite Ha; exact Hx);
       assert (Hchain : downchain s (a :: x :: l))
         by (constructor; [apply Hlink; exact Hxa|exact Hl]);
       specialize (Hdepth (x :: l) Hchain); simpl in Hdepth; lia).
Qed.













(** Beyond the recursion limit [contains] raises: in the heap of the
    two chains of 600 levels, the first descendant of the [<div>] is
    compared with the second child, which has the same structure. *)
Example contains_can_exceed_recursion_limit :
  contains (mkElement 1 [] []) (VElement (mkElement 3 [] [])) (deep_store 600)
  = Raise RecursionError (deep_store 600).
Proof. vm_compute. reflexivity. Qed.

(** [contains] compares with [==]: a detached [<b>] is found in a tree
    that has an equal [<b>], and an element is not found in itself. *)
Example contains_by_equality :
  contains (mkElement 1 [] []) (VElement (mkElement 7 [] [])) twin_store
    = Ok true twin_store /\
  parent_of twin_store 7 = None /\
  contains (mkElement 1 [] []) (VElement (mkElement 1 [] [])) twin_store
    = Ok false twin_store.
Proof. split; [|split]; reflexivity. Qed.

(** ** Searching a tree that has changed elsewhere *)











(** ** [t.string = value] on any tag *)


(** ** [document.title] when the document has a title *)



(** ** [document.write] when the document has a body *)





(** The text of [main.py] written into a body is one string node: it is
    the first node and is kept. *)
Example write_one_string :
  exists s',
    write (mkDocument 0) [HText "may the lord have mercy upon us all"]
      titled_store = Ok tt s' /\
    rendered s' 0
    = [HTag "head" [] [HTag "title" [] [HText "old"]];
       HTag "body" [] [HText "may the lord have mercy upon us all"]].
Proof. eexists. split; [vm_compute; reflexivity|reflexivity]. Qed.

(** ** [remove] *)


Lemma descendant_below s : forall f x y,
  In y (descendants f s x) -> below s x y.
Proof.
  induction f as [|f IH]; intros x y Hy; [destruct Hy|].
  cbn [descendants] in Hy. apply in_flat_map in Hy as (c & Hc & [<-|Hy]).
  - eapply below_child; [exact Hc|apply below_self].
  - eapply below_child; [exact Hc|apply IH; exact Hy].
Qed.







(** ** [getElementById] *)

Lemma find_attr_id s root wanted :
  find_attr s root "id" wanted
  = List.find (id_is s wanted) (descendants (fuel_of s) s root).
Proof. reflexivity. Qed.

Lemma id_is_label s s' wanted x :
  label_of s' x = label_of s x -> id_is s' wanted x = id_is s wanted x.
Proof.
  intros Hl. unfold id_is, is_tag. rewrite (kind_of_label s s' x Hl).
  unfold attrs_of, label_of in *.
  destruct (s' !! x), (s !! x); try discriminate; [|reflexivity].
  injection Hl as _ _ -> _. reflexivity.
Qed.

Lemma find_nowhere {A} (p : A -> bool) l :
  (forall x, In x l -> p x = false) -> List.find p l = None.
Proof.
  induction l as [|y l IH]; intros Hall; [reflexivity|]. simpl.
  rewrite (Hall y) by (left; reflexivity).
  apply IH. intros x Hx. apply Hall. right. exact Hx.
Qed.





(** ** [main.py] on a document without the element it looks for *)

Lemma load_forest_no_id_from wanted hs :
  Forall (fun h => has_id wanted h = false ->
            forall p s y, length s <= y < length (snd (load p h s)) ->
              id_is (snd (load p h s)) wanted y = false) hs ->
  existsb (has_id wanted) hs = false ->
  forall p s y, length s <= y < length (snd (load_forest p hs s)) ->
    id_is (snd (load_forest p hs s)) wanted y = false.
Proof.
  induction 1 as [|h hs Hh _ IH]; intros Hno p s y Hy.
  - simpl in Hy. lia.
  - simpl in Hno. apply orb_false_elim in Hno as [Hnoh Hnohs].
    cbn [load_forest] in *. specialize (Hh Hnoh p s).
    destruct (load_preserved h p s) as (_ & Hlt & _).
    destruct (load p h s) as [i s1]. simpl in Hh, Hlt.
    specialize (IH Hnohs p s1).
    destruct (load_forest_preserved p hs s1) as (_ & Hle & Hp2).
    destruct (load_forest p hs s1) as [ids s2]. simpl in *.
    destruct (le_lt_dec (length s1) y) as [Hnew|Hold].
    + apply IH. lia.
    + rewrite (id_is_label s1 s2) by (apply preserved_label; assumption).
      apply Hh. lia.
Qed.

Lemma load_no_id wanted h :
  has_id wanted h = false ->
  forall p s y, length s <= y < length (snd (load p h s)) ->
    id_is (snd (load p h s)) wanted y = false.
Proof.
  induction h as [txt|nm ats cs IH] using html_nested_ind; intros Hno p s y.
  - simpl. rewrite length_app. simpl. intros Hy.
    assert (y = length s) as -> by lia.
    unfold id_is, is_tag, kind_of. rewrite list_lookup_middle by reflexivity.
    reflexivity.
  - simpl in Hno. apply orb_false_elim in Hno as [Hhere Hbelow].
    rewrite load_tag. cbn [fst snd].
    set (s0 := s ++ [mkNode KTag nm ats [] (Some p) EmptyString]).
    assert (Hs0 : length s0 = S (length s))
      by (unfold s0; rewrite length_app; simpl; lia).
    pose proof (load_forest_no_id_from wanted cs IH Hbelow (length s) s0) as Hcs.
    destruct (load_forest_preserved (length s) cs s0) as (_ & Hle & Hp).
    destruct (load_forest (length s) cs s0) as [ids s1]. simpl in *.
    rewrite length_set_contents. intros Hy.
    rewrite (id_is_label s1) by apply label_of_set_contents.
    destruct (decide (y = length s)) as [->|Hne].
    + rewrite (id_is_label s0 s1) by (apply preserved_label; [assumption|lia]).
      unfold id_is, attrs_of, s0. rewrite list_lookup_middle by reflexivity.
      cbn [attrs]. rewrite Hhere. apply andb_false_r.
    + apply Hcs. lia.
Qed.

Lemma load_forest_no_id wanted hs :
  existsb (has_id wanted) hs = false ->
  forall p s y, length s <= y < length (snd (load_forest p hs s)) ->
    id_is (snd (load_forest p hs s)) wanted y = false.
Proof.
  apply load_forest_no_id_from. apply Forall_forall.
  intros h _. apply load_no_id.
Qed.

(** X24.  [main.py] on an [index.html] in which no tag has the [id]
    ["nav"]: the document is parsed, [getElementById] returns [None] and
    the assignment to [nav.innerHTML] raises [AttributeError]; nothing
    has been changed in the document and nothing is written back. *)
Theorem main_without_nav raw s :
  well_formed s -> existsb (has_id "nav") raw = false ->
  exists d s',
    Document__init__ raw s = Ok d s' /\
    getElementById d "nav" s' = Ok None s' /\
    main raw s = Raise AttributeError s'.
Proof.
  intros Hwf Hno.
  destruct (BeautifulSoup_well_formed raw s Hwf)
    as (s' & Hrun & Hpres & Hlt & Hwf' & Hroot & Hkind & Hlen & Hg & Hanc).
  assert (Hnowhere : find_attr s' (length s) "id" "nav" = None).
  { rewrite find_attr_id. apply find_nowhere. intros y Hy.
    assert (Hrange : S (length s) <= y < length s').
    { unfold fuel_of in Hy. cbn [descendants] in Hy.
      apply in_flat_map in Hy as (c & Hc & Hy).
      assert (Hcr : S (length s) <= c < length s')
        by (destruct Hg as (_ & Hroots & _); apply Hroots; exact Hc).
      destruct Hy as [<-|Hy]; [exact Hcr|].
      apply (below_grafted _ _ _ _ c y Hg); [|exact Hcr].
      eapply descendant_below. exact Hy. }
    revert Hrun Hrange. unfold BeautifulSoup.
    set (s0 := s ++ [mkNode KSoup "[document]" [] [] None EmptyString]).
    assert (Hs0 : length s0 = S (length s))
      by (unfold s0; rewrite length_app; simpl; lia).
    pose proof (load_forest_no_id "nav" raw Hno (length s) s0 y) as Hids.
    destruct (load_forest (length s) raw s0) as [ids s1]. simpl in Hids.
    intros [= <-]. rewrite length_set_contents. intros Hrange.
    rewrite (id_is_label s1) by apply label_of_set_contents.
    apply Hids. lia. }
  exists (mkDocument (length s)), s'. split.
  { unfold Document__init__. rewrite (bind_Ok _ _ s (length s) s') by exact Hrun.
    reflexivity. }
  assert (Hget : getElementById (mkDocument (length s)) "nav" s' = Ok None s').
  { unfold getElementById. rewrite (bind_Ok get_store _ s' s' s') by reflexivity.
    cbn [soup]. rewrite Hnowhere. reflexivity. }
  split; [exact Hget|].
  unfold main, Document__init__.
  rewrite (bind_Ok _ _ s (mkDocument (length s)) s')
    by (rewrite (bind_Ok _ _ s (length s) s') by exact Hrun; reflexivity).
  rewrite (bind_Ok _ _ s' None s') by exact Hget.
  reflexivity.
Qed.

Lemma main_without_nav_witness :
  exists d s',
    Document__init__ three_nodes [] = Ok d s' /\
    getElementById d "nav" s' = Ok None s' /\
    main three_nodes [] = Raise AttributeError s'.
Proof.
  apply (main_without_nav three_nodes []).
  - apply well_formedb_sound. reflexivity.
  - reflexivity.
Defined.

(** The script on [<div id="nav"></div>] and on a document with a body:
    what is assigned to [innerHTML] is lost when the element is in the
    body, since the body is written over. *)
Example main_on_small_documents :
  (exists s', main [HTag "div" [("id", AStr "nav")] []] [] = Ok
     [HTag "div" [("id", AStr "nav")] [HTag "h1" [] [HText "heavens above"]];
      HTag "html" [] [HTag "body" []
        [HText "may the lord have mercy upon us all"]]] s') /\
  (exists s', main [HTag "body" [] [HTag "div" [("id", AStr "nav")] []]] [] = Ok
     [HTag "body" [] [HText "may the lord have mercy upon us all"]] s').
Proof. split; eexists; vm_compute; reflexivity. Qed.

(** ** [document.write] when the document has no body *)









(** On the empty document, [write] builds [<html><body>] around the
    text. *)
Example write_on_the_empty_document :
  exists s',
    write (mkDocument 0) [HText "may the lord have mercy upon us all"]
      empty_document_store = Ok tt s' /\
    rendered s' 0
    = [HTag "html" []
         [HTag "body" [] [HText "may the lord have mercy upon us all"]]].
Proof. eexists. split; [vm_compute; reflexivity|reflexivity]. Qed.

(** ** [document.title] when the document has no title *)





(** ** Children are looked up by their structure *)


















